(** * PredictionScope agent: admission, allocation and publication bookkeeping

    A shallow embedding of the agent pipeline of the repository
    (agent/observe.ts, agent/analyze.ts, agent/decide.ts, agent/submit.ts,
    agent/index.ts), of the seed script and of the sitemap route, and the
    properties of its specification that concern them.

    Modelling conventions.
    - A price ([yes_price]) is a binary64 number, as in JavaScript: the
      subtraction and the comparison of the mover detector are those of
      IEEE 754 ([PrimFloat]).  The prices are the numbers a JSON text
      carries, since they come from one and are stored in one: NaN, the
      infinities and a zero with a sign are outside the model.  A score, a
      weight or a volume is an exact rational ([Q]); NaN and the infinities
      are outside the model there too.  Counts and limits ([maxArticles],
      [wordCount], array lengths) are integers.
    - [Math.round x] is [floor (x + 1/2)] (halves round towards +infinity).
    - An array of objects is a list; where the code compares objects by
      reference ([Array.prototype.includes]) an object is a pair of a
      reference and its fields.
    - A [Map] keyed by strings is a [gmap string _].
    - The file system is a map from paths to what the files hold, and the
      set of the directories that exist.  A write into a directory that does
      not exist throws; permissions, a full disk and a file standing where a
      directory is needed are outside the model.  Paths are told apart as
      text, upper and lower case being different: the model is exact for
      paths whose components are plain names (no [.], [..] or empty
      component, no link), and the statements about files say so where it
      matters.  A world holds a file under one path, the one the program
      uses for it.
    - A JSON file of the data directory is represented by the value its text
      parses to.  A file that holds a JSON value of another kind (an object
      where the code expects an array) parses, and the code then throws a
      TypeError where it uses the value as an array.
    - Effects ([fs], the clock, the external model and git calls) are made
      explicit: a state monad over the file system and an event trace, and
      an environment record for what the outside world answers. *)

From Stdlib Require Import QArith Qabs Qround Ascii PrimFloat.
From stdpp Require Import gmap strings list fin_maps sorting.

Open Scope Z_scope.

(** A decimal literal in [float_scope] stands for the binary64 number
    nearest to it, as it does in JavaScript. *)
#[global] Set Warnings "-inexact-float".

(** * The program *)

(** ** Numbers *)

#[global] Instance Q_le_dec (x y : Q) : Decision (x <= y)%Q.
Proof.
  destruct (Qlt_le_dec y x) as [H|H]; [right; by apply Qlt_not_le | by left].
Defined.

#[global] Instance Q_lt_dec (x y : Q) : Decision (x < y)%Q.
Proof.
  destruct (Qlt_le_dec x y) as [H|H]; [by left | right; by apply Qle_not_lt].
Defined.

#[global] Instance Q_eq_dec (x y : Q) : Decision (x == y)%Q := Qeq_dec x y.

(** [Math.round] *)
Definition Math_round (x : Q) : Z := Qfloor (x + (1 # 2))%Q.

(** [Math.abs], on a binary64 number. *)
Definition Math_abs (x : float) : float := PrimFloat.abs x.

(** The binary64 numbers a JSON text carries, and gives back as they were:
    the finite ones, zero having no sign. *)
Definition isJsonNumber (x : float) : bool :=
  is_finite x && negb (is_zero x && get_sign x).

Record JsonNumber := {
  numberOf :> float;
  numberOf_ok : isJsonNumber numberOf = true;
}.

(** The number a binary64 literal stands for (zero for what is no number of
    JSON). *)
Definition jsonNumber (x : float) : JsonNumber :=
  match isJsonNumber x as b return isJsonNumber x = b → JsonNumber with
  | true => λ H, {| numberOf := x; numberOf_ok := H |}
  | false => λ _, {| numberOf := 0; numberOf_ok := eq_refl |}
  end eq_refl.

(** ** agent/observe.ts *)

Inductive Platform := kalshi | polymarket.

#[global] Instance Platform_eq_dec : EqDecision Platform.
Proof. solve_decision. Defined.

Definition platformName (p : Platform) : string :=
  match p with kalshi => "kalshi" | polymarket => "polymarket" end.

Record MarketData := {
  id : string;
  market_title : string;
  market_category : string;
  platform : Platform;
  yes_price : JsonNumber;
  volume : Q;
  end_date : option string;
  url : string;
}.

(** The template literal [`${m.platform}:${m.id}`]. *)
Definition marketKey (m : MarketData) : string :=
  platformName (platform m) +:+ ":" +:+ id m.

(** [new Map(previousSnapshot.map(m => [key, m]))]: the entries are set in
    array order, so a later entry replaces an earlier one with the same key. *)
Definition previousMap (previousSnapshot : list MarketData)
  : gmap string MarketData :=
  foldl (λ acc m, <[marketKey m := m]> acc) ∅ previousSnapshot.

(** The callback of [currentMarkets.filter] in [detectMovers]. *)
Definition isMover (prevMap : gmap string MarketData) (m : MarketData) : bool :=
  match prevMap !! marketKey m with
  | None => false
  | Some prev =>
      let change := Math_abs (yes_price m - yes_price prev) in
      (0.10 <? change)%float
  end.

Definition detectMovers (currentMarkets : list MarketData)
    (previousSnapshot : option (list MarketData)) : list MarketData :=
  match previousSnapshot with
  | None => []
  | Some previous =>
      let prevMap := previousMap previous in
      filter (λ m, isMover prevMap m) currentMarkets
  end.

(** ** agent/analyze.ts: the opportunity record *)

Inductive Bucket := educational | topical | affiliate.

#[global] Instance Bucket_eq_dec : EqDecision Bucket.
Proof. solve_decision. Defined.

Record ContentOpportunity := {
  title : string;
  slug : string;
  bucket : Bucket;
  category : string;
  targetKeyword : string;
  secondaryKeywords : list string;
  score : Q;
  reasoning : string;
  relevantMarkets : list MarketData;
}.

(** ** agent/decide.ts *)

Record BucketWeights := {
  w_educational : Q;
  w_topical : Q;
  w_affiliate : Q;
}.

Record DecisionConfig := {
  maxArticles : Z;
  bucketWeights : BucketWeights;
  minScore : Q;
}.

Definition DEFAULT_CONFIG : DecisionConfig := {|
  maxArticles := 3;
  bucketWeights :=
    {| w_educational := 0.5; w_topical := 0.35; w_affiliate := 0.15 |};
  minScore := 0.3;
|}.

(** [Partial<DecisionConfig>]: [None] is a key that is not present. *)
Record PartialConfig := {
  p_maxArticles : option Z;
  p_bucketWeights : option BucketWeights;
  p_minScore : option Q;
}.

(** [{ ...DEFAULT_CONFIG, ...config }] *)
Definition mergeConfig (config : PartialConfig) : DecisionConfig := {|
  maxArticles := default (maxArticles DEFAULT_CONFIG) (p_maxArticles config);
  bucketWeights :=
    default (bucketWeights DEFAULT_CONFIG) (p_bucketWeights config);
  minScore := default (minScore DEFAULT_CONFIG) (p_minScore config);
|}.

Definition fullConfig (c : DecisionConfig) : PartialConfig := {|
  p_maxArticles := Some (maxArticles c);
  p_bucketWeights := Some (bucketWeights c);
  p_minScore := Some (minScore c);
|}.

(** An opportunity object: its reference and its fields.  [includes] compares
    references. *)
Abbreviation Obj := (nat * ContentOpportunity)%type.

Definition includes (selected : list Obj) (o : Obj) : bool :=
  bool_decide (o.1 ∈ selected.*1).

(** [Array.prototype.sort] with the comparator [(a, b) => b.score - a.score]:
    descending by score, and stable (elements that compare equal keep their
    order).  Insertion from the right realises exactly that order. *)
Section sort.
Context {A : Type} (key : A → Q).

Fixpoint insertDesc (x : A) (l : list A) : list A :=
  match l with
  | [] => [x]
  | y :: l' =>
      if decide (key x < key y)%Q then y :: insertDesc x l' else x :: y :: l'
  end.

Definition sortDesc (l : list A) : list A := foldr insertDesc [] l.
End sort.

Definition byScore (l : list Obj) : list Obj := sortDesc (λ o, score o.2) l.

Definition weight (w : BucketWeights) (b : Bucket) : Q :=
  match b with
  | educational => w_educational w
  | topical => w_topical w
  | affiliate => w_affiliate w
  end.

(** The floor under each bucket's rounded share: the first argument of
    [Math.max] in [targetCounts]. *)
Definition minimumFloor (b : Bucket) : Z :=
  match b with educational => 1 | topical => 0 | affiliate => 0 end.

(** The product is taken exactly.  In binary64 it can fall on the other side
    of a half (90 * 0.35 is 31.499999999999996), which moves a target by
    one; the targets stay monotone in the limit and at least their floor,
    which is what the properties of the allocator rest on. *)
Definition targetCounts (maxArticles : Z) (w : BucketWeights) (b : Bucket) : Z :=
  Z.max (minimumFloor b) (Math_round (inject_Z maxArticles * weight w b)).

(** The inner loop of the first pass: [count] is [bucketCounts[bucket]]. *)
Fixpoint fillBucket (target maxArticles : Z) (bucketOpps selected : list Obj)
    (count : Z) : list Obj * Z :=
  match bucketOpps with
  | [] => (selected, count)
  | opp :: rest =>
      if decide (target ≤ count) then (selected, count)
      else if decide (maxArticles ≤ Z.of_nat (length selected))
      then (selected, count)
      else fillBucket target maxArticles rest (selected ++ [opp]) (count + 1)
  end.

(** [bucketCounts[bucket] = n] on the record of three counters. *)
Definition setCount (b : Bucket) (n : Z) (bucketCounts : Bucket → Z)
  : Bucket → Z :=
  λ b', if decide (b' = b) then n else bucketCounts b'.

Definition bucketOrder : list Bucket := [educational; topical; affiliate].

(** One iteration of [for (const bucket of [...])]. *)
Definition firstPassStep (cfg : DecisionConfig) (viable : list Obj)
    (st : list Obj * (Bucket → Z)) (b : Bucket) : list Obj * (Bucket → Z) :=
  let '(selected, bucketCounts) := st in
  let bucketOpps := byScore (filter (λ o, bucket o.2 = b) viable) in
  let target := targetCounts (maxArticles cfg) (bucketWeights cfg) b in
  let '(selected', count') :=
    fillBucket target (maxArticles cfg) bucketOpps selected (bucketCounts b) in
  (selected', setCount b count' bucketCounts).

Definition firstPass (cfg : DecisionConfig) (viable : list Obj)
  : list Obj * (Bucket → Z) :=
  foldl (firstPassStep cfg viable) ([], λ _, 0) bucketOrder.

(** The loop of the second pass. *)
Fixpoint fillRest (maxArticles : Z) (remaining selected : list Obj) : list Obj :=
  match remaining with
  | [] => selected
  | opp :: rest =>
      if decide (maxArticles ≤ Z.of_nat (length selected)) then selected
      else fillRest maxArticles rest (selected ++ [opp])
  end.

Definition secondPass (cfg : DecisionConfig) (viable selected : list Obj)
  : list Obj :=
  if decide (Z.of_nat (length selected) < maxArticles cfg) then
    let remaining := byScore (filter (λ o, includes selected o = false) viable) in
    fillRest (maxArticles cfg) remaining selected
  else selected.

(** The admission step: [opportunities.filter(o => o.score >= minScore)]. *)
Definition viableOf {A} (get : A → ContentOpportunity) (minScore : Q)
    (opportunities : list A) : list A :=
  filter (λ o, (minScore <= score (get o))%Q) opportunities.

(** [decide] on an array of objects. *)
Definition decideObjs (opportunities : list Obj) (config : PartialConfig)
  : list Obj :=
  let cfg := mergeConfig config in
  let viable := viableOf snd (minScore cfg) opportunities in
  match viable with
  | [] => []
  | _ =>
      let selected := (firstPass cfg viable).1 in
      secondPass cfg viable selected
  end.

(** An array whose elements are pairwise distinct objects, as [analyze]
    builds it (one object literal per recommendation): the reference of an
    element is its index. *)
Definition allocRefs (opportunities : list ContentOpportunity) : list Obj :=
  zip (seq 0 (length opportunities)) opportunities.

(** [decide]; it lives in a module of its own because stdpp uses the name
    for its decision procedures. *)
Module Agent.
Definition decide (opportunities : list ContentOpportunity)
    (config : PartialConfig) : list ContentOpportunity :=
  (decideObjs (allocRefs opportunities) config).*2.
End Agent.

(** The admitted opportunities of a call of [decide]. *)
Definition admitted (opportunities : list ContentOpportunity) (minScore : Q)
  : list ContentOpportunity :=
  viableOf (λ o, o) minScore opportunities.

(** How many of a list fall in a bucket. *)
Definition countBucket (b : Bucket) (l : list ContentOpportunity) : nat :=
  length (filter (λ o, bucket o = b) l).

(** A configuration with every key given, and the default weights. *)
Definition configOf (maxTotal : Z) (w : BucketWeights) (q : Q) : PartialConfig :=
  fullConfig {| maxArticles := maxTotal; bucketWeights := w; minScore := q |}.

Definition defaultWeights : BucketWeights := bucketWeights DEFAULT_CONFIG.

(** ** agent/create.ts: the draft record *)

Module Draft.
Record t := {
  slug : string;
  bucket : string;
  category : string;
  content : string;
  title : string;
  targetKeyword : string;
  wordCount : Z;
}.
End Draft.

(** ** Records kept in the data directory *)

(** An entry of [data/inventory.json]. *)
Module Item.
Record t := {
  slug : string;
  title : string;
  bucket : string;
  category : string;
  targetKeyword : string;
  wordCount : Z;
  status : string;
  createdAt : string;
}.
End Item.

(** An entry of [data/decisions.json]. *)
Module Log.
Record counts := {
  kalshiMarkets : nat;
  polymarketMarkets : nat;
  movers : nat;
  trends : nat;
}.

Record t := {
  timestamp : string;
  observations : counts;
  opportunities : nat;
  selected : list (string * Bucket * Q);
  produced : list (string * string * Z);
  elapsedSeconds : Q;
}.
End Log.

(** [data/agent-config.json]; [None] is a key the file does not have. *)
Record AgentConfig := {
  cfg_bucketWeights : option BucketWeights;
  maxArticlesPerRun : option Z;
  minScoreThreshold : option Q;
}.

(** ** The file system, the clock and the trace of effects *)

(** What a file holds.  A file is stored as text; the JSON files of the data
    directory are represented by the value their text parses to: an array of
    inventory entries, of markets or of log entries, or the configuration
    object.  [Markdown] is the text of an article or of a prompt and [Torn]
    the text of an incomplete write; neither parses as JSON. *)
Inductive FileData :=
  | Markdown (text : string)
  | InventoryJson (items : list Item.t)
  | SnapshotJson (markets : list MarketData)
  | DecisionsJson (entries : list Log.t)
  | ConfigJson (config : AgentConfig)
  | Torn.

Inductive Event :=
  | EvMkdir (dir : string)
  | EvWriteFile (path : string) (data : FileData)
  | EvGitPush (branch : string) (slugs : list string)
  | EvPullRequest (branch : string)
  | EvSlack (prUrl : string)
  | EvExit (code : Z).

Record World := {
  files : gmap string FileData;
  dirs : gset string;
  clock : nat;
  trace : list Event;
}.

Inductive Outcome (A : Type) :=
  | Ok (a : A)
  | Thrown (e : string).
Arguments Ok {A} a.
Arguments Thrown {A} e.

(** Code with effects: it runs in a world and returns or throws. *)
Definition IO (A : Type) : Type := World → Outcome A * World.

#[global] Instance IO_ret : MRet IO := λ A a w, (Ok a, w).

#[global] Instance IO_bind : MBind IO := λ A B f m w,
  match m w with
  | (Ok a, w') => f a w'
  | (Thrown e, w') => (Thrown e, w')
  end.

Definition throw {A} (e : string) : IO A := λ w, (Thrown e, w).

(** [try { body } catch { handler }] *)
Definition tryCatch {A} (body : IO A) (handler : string → IO A) : IO A := λ w,
  match body w with
  | (Ok a, w') => (Ok a, w')
  | (Thrown e, w') => handler e w'
  end.

Definition emit (e : Event) : IO unit := λ w,
  (Ok (), {| files := files w; dirs := dirs w; clock := clock w;
             trace := trace w ++ [e] |}).

(** Paths.  [hasSlash s]: the text [s] contains a [/]. *)
Fixpoint hasSlash (s : string) : bool :=
  match s with
  | EmptyString => false
  | String c rest => if decide (c = "/"%char) then true else hasSlash rest
  end.

(** The directory a path names a file in: the text before its last [/];
    [None] when the path has no [/] (the file is in the working
    directory). *)
Fixpoint dirname (path : string) : option string :=
  match path with
  | EmptyString => None
  | String c rest =>
      match dirname rest with
      | Some d => Some (String c d)
      | None => if decide (c = "/"%char) then Some EmptyString else None
      end
  end.

(** The directories above [path]: its prefixes that end before a [/]. *)
Fixpoint above (prefix path : string) : list string :=
  match path with
  | EmptyString => []
  | String c rest =>
      (if decide (c = "/"%char) then [prefix] else []) ++
      above (prefix +:+ String c EmptyString) rest
  end.

(** What [mkdirSync(dir, { recursive: true })] makes sure exists: [dir] and
    the directories above it. *)
Definition madeBy (dir : string) : list string := dir :: above "" dir.

(** The directory of [path] exists: the working directory and the root
    always do. *)
Definition parentExists (w : World) (path : string) : bool :=
  match dirname path with
  | None => true
  | Some d => if decide (d = "") then true else bool_decide (d ∈ dirs w)
  end.

Definition existsSync (path : string) : IO bool := λ w,
  (Ok (bool_decide (is_Some (files w !! path))), w).

Definition readFileSync (path : string) : IO FileData := λ w,
  match files w !! path with
  | Some d => (Ok d, w)
  | None => (Thrown "ENOENT", w)
  end.

(** [writeFileSync]: the file is created or replaced; when its directory
    does not exist the call throws and nothing is written. *)
Definition writeFileSync (path : string) (data : FileData) : IO unit := λ w,
  if parentExists w path
  then (Ok (), {| files := <[path := data]> (files w); dirs := dirs w;
                  clock := clock w;
                  trace := trace w ++ [EvWriteFile path data] |})
  else (Thrown "ENOENT", w).

(** [mkdirSync(dir, { recursive: true })] *)
Definition mkdirSync (dir : string) : IO unit := λ w,
  (Ok (), {| files := files w; dirs := dirs w ∪ list_to_set (madeBy dir);
             clock := clock w; trace := trace w ++ [EvMkdir dir] |}).

(** A reading of the clock ([new Date()], [Date.now()]): the number of the
    reading; the environment turns it into text. *)
Definition readClock : IO nat := λ w,
  (Ok (clock w),
   {| files := files w; dirs := dirs w; clock := S (clock w);
      trace := trace w |}).

(** What [JSON.parse] returns for the text of a file that the code goes on
    to use as an array: the array, or the value itself when the file holds a
    JSON value that is not an array. *)
Inductive Parsed (A : Type) :=
  | IsArray (l : list A)
  | NotArray (d : FileData).
Arguments IsArray {A} l.
Arguments NotArray {A} d.

(** What the outside world answers during a run. *)
Record Env := {
  toISOString : nat → string;
  millis : nat → string;
  elapsed : Q;
  (* agent/observe.ts: what the three fetches return *)
  fetchKalshiMarkets : list MarketData;
  fetchPolymarketMarkets : list MarketData;
  fetchTrendingTopics : list string;
  (* agent/analyze.ts: the recommendations parsed from the model's answer,
     with their markets attached; empty when the call or the parse fails *)
  recommendations : list ContentOpportunity;
  (* agent/create.ts: the text and the word count of the article written for
     an assignment, or [None] when the call fails *)
  generate : ContentOpportunity → option (string * Z);
  (* agent/submit.ts *)
  inCI : bool;
  gitSucceeds : bool;
  githubToken : bool;
  pullRequestUrl : option string;
  slackWebhook : bool;
}.

(** ** agent/submit.ts *)

Definition inventoryPath : string := "data/inventory.json".

(** The own properties of the object literal [bucketDir]. *)
Definition bucketDir (b : string) : option string :=
  if decide (b = "educational") then Some "site/content/learn"
  else if decide (b = "topical") then Some "site/content/markets"
  else if decide (b = "affiliate") then Some "site/content/best"
  else None.

(** The names [bucketDir[...]] finds on [Object.prototype]: the lookup then
    yields a function (or the prototype itself), which is truthy and is not
    a path. *)
Definition objectPrototype : list string :=
  ["constructor"; "__proto__"; "hasOwnProperty"; "isPrototypeOf";
   "propertyIsEnumerable"; "toLocaleString"; "toString"; "valueOf";
   "__defineGetter__"; "__defineSetter__"; "__lookupGetter__";
   "__lookupSetter__"].

Definition inherited (b : string) : bool := bool_decide (b ∈ objectPrototype).

(** The directory and the path [getContentPath] computes when the lookup
    yields a string or nothing. *)
Definition contentDir (article : Draft.t) : string :=
  let dir := default "site/content/markets" (bucketDir (Draft.bucket article)) in
  if decide (Draft.bucket article = "topical" ∧ Draft.category article ≠ "")
  then dir +:+ "/" +:+ Draft.category article
  else dir.

Definition contentPath (article : Draft.t) : string :=
  contentDir article +:+ "/" +:+ Draft.slug article +:+ ".md".

(** [getContentPath]: with an inherited name as the bucket, [mkdirSync] is
    called on a value that is not a path and throws. *)
Definition getContentPath (article : Draft.t) : IO string :=
  if inherited (Draft.bucket article) then throw "TypeError"
  else mkdirSync (contentDir article) ;; mret (contentPath article).

Definition writeDraft (article : Draft.t) : IO string :=
  filepath ← getContentPath article;
  writeFileSync filepath (Markdown (Draft.content article)) ;;
  mret filepath.

(** [JSON.parse(readFileSync(inventoryPath))].  The entries of an array of
    another kind have no [slug]; none of them is shown. *)
Definition parseInventory (d : FileData) : IO (Parsed Item.t) :=
  match d with
  | InventoryJson items => mret (IsArray items)
  | SnapshotJson _ | DecisionsJson _ => mret (IsArray [])
  | ConfigJson _ => mret (NotArray d)
  | Markdown _ | Torn => throw "SyntaxError"
  end.

Definition hasSlug (inventory : list Item.t) (s : string) : bool :=
  bool_decide (s ∈ Item.slug <$> inventory).

Definition newItem (article : Draft.t) (now : string) : Item.t := {|
  Item.slug := Draft.slug article;
  Item.title := Draft.title article;
  Item.bucket := Draft.bucket article;
  Item.category := Draft.category article;
  Item.targetKeyword := Draft.targetKeyword article;
  Item.wordCount := Draft.wordCount article;
  Item.status := "draft";
  Item.createdAt := now;
|}.

Section submit.
Context (env : Env).

(** The loop [for (const article of articles)] of [updateInventory]. *)
Fixpoint pushArticles (articles : list Draft.t) (inventory : list Item.t)
  : IO (list Item.t) :=
  match articles with
  | [] => mret inventory
  | article :: rest =>
      if hasSlug inventory (Draft.slug article)
      then pushArticles rest inventory
      else
        n ← readClock;
        pushArticles rest (inventory ++ [newItem article (toISOString env n)])
  end.

(** [updateInventory].  When the file holds a value that is not an array,
    the first [inventory.some] throws; with no article the value is written
    back as it was read. *)
Definition updateInventory (articles : list Draft.t) : IO unit :=
  present ← existsSync inventoryPath;
  inventory ←
    (if present : bool
     then tryCatch (readFileSync inventoryPath ≫= parseInventory)
                   (λ _, mret (IsArray []))
     else mret (IsArray []));
  match inventory with
  | IsArray items =>
      inventory' ← pushArticles articles items;
      mkdirSync "data" ;;
      writeFileSync inventoryPath (InventoryJson inventory')
  | NotArray d =>
      match articles with
      | [] => mkdirSync "data" ;; writeFileSync inventoryPath d
      | _ :: _ => throw "TypeError"
      end
  end.

Definition createGitBranch (articles : list Draft.t) : IO string :=
  n ← readClock;
  let branchName := "agent/drafts-" +:+ millis env n in
  if gitSucceeds env
  then emit (EvGitPush branchName (Draft.slug <$> articles)) ;; mret branchName
  else throw "git".

(** The body of the pull request names the file of every article:
    [articles.map(a => ... getContentPath(a) ...)]. *)
Fixpoint listContentPaths (articles : list Draft.t) : IO (list string) :=
  match articles with
  | [] => mret []
  | article :: rest =>
      path ← getContentPath article;
      paths ← listContentPaths rest;
      mret (path :: paths)
  end.

Definition createPullRequest (branchName : string) (articles : list Draft.t)
  : IO string :=
  if githubToken env
  then listContentPaths articles ;;
       emit (EvPullRequest branchName) ;;
       mret (default "" (pullRequestUrl env))
  else mret "".

Definition sendSlackNotification (articles : list Draft.t) (prUrl : string)
  : IO unit :=
  if slackWebhook env then emit (EvSlack prUrl) else mret ().

(** [for (const article of articles) writeDraft(article)] *)
Fixpoint writeDrafts (articles : list Draft.t) : IO unit :=
  match articles with
  | [] => mret ()
  | article :: rest => writeDraft article ;; writeDrafts rest
  end.

Definition submit (articles : list Draft.t) : IO unit :=
  writeDrafts articles ;;
  updateInventory articles ;;
  if inCI env then
    branchName ← createGitBranch articles;
    prUrl ← createPullRequest branchName articles;
    sendSlackNotification articles prUrl
  else sendSlackNotification articles "".
End submit.

(** ** agent/index.ts *)

Definition snapshotPath : string := "data/market-snapshot.json".
Definition configPath : string := "data/agent-config.json".
Definition logPath : string := "data/decisions.json".

Record Observations := {
  kalshiMarkets : list MarketData;
  polymarketMarkets : list MarketData;
  movers : list MarketData;
  trendingTopics : list string;
  newsHeadlines : list string;
  timestamp : string;
}.

(** [JSON.parse] of the snapshot file.  The entries of an array of another
    kind have neither [platform] nor [id]: their key is never the key of a
    market, and none of them is shown. *)
Definition parseSnapshot (d : FileData) : IO (Parsed MarketData) :=
  match d with
  | SnapshotJson markets => mret (IsArray markets)
  | InventoryJson _ | DecisionsJson _ => mret (IsArray [])
  | ConfigJson _ => mret (NotArray d)
  | Markdown _ | Torn => throw "SyntaxError"
  end.

(** [JSON.parse] of the configuration file: an array has none of the three
    keys. *)
Definition parseConfig (d : FileData) : IO AgentConfig :=
  match d with
  | ConfigJson c => mret c
  | InventoryJson _ | SnapshotJson _ | DecisionsJson _ =>
      mret {| cfg_bucketWeights := None; maxArticlesPerRun := None;
              minScoreThreshold := None |}
  | Markdown _ | Torn => throw "SyntaxError"
  end.

(** [JSON.parse] of the decisions log; the entries of an array of another
    kind are not shown. *)
Definition parseDecisions (d : FileData) : IO (Parsed Log.t) :=
  match d with
  | DecisionsJson entries => mret (IsArray entries)
  | InventoryJson _ | SnapshotJson _ => mret (IsArray [])
  | ConfigJson _ => mret (NotArray d)
  | Markdown _ | Torn => throw "SyntaxError"
  end.

(** [loadPreviousSnapshot] returns what the file parses to, whatever it is,
    and [undefined] ([None]) when the file is missing or does not parse. *)
Definition loadPreviousSnapshot : IO (option (Parsed MarketData)) :=
  present ← existsSync snapshotPath;
  if present : bool
  then tryCatch (value ← readFileSync snapshotPath ≫= parseSnapshot;
                 mret (Some value))
                (λ _, mret None)
  else mret None.

Definition saveSnapshot (markets : list MarketData) : IO unit :=
  mkdirSync "data" ;;
  writeFileSync snapshotPath (SnapshotJson markets).

Definition loadConfig : IO AgentConfig :=
  present ← existsSync configPath;
  if present : bool
  then tryCatch (readFileSync configPath ≫= parseConfig)
                (λ _, mret {| cfg_bucketWeights := Some defaultWeights;
                              maxArticlesPerRun := None;
                              minScoreThreshold := None |})
  else mret {| cfg_bucketWeights := Some defaultWeights;
               maxArticlesPerRun := Some 3;
               minScoreThreshold := Some 0.4%Q |}.

(** [x || d] on a number that may be missing: zero is falsy. *)
Definition orZ (x : option Z) (d : Z) : Z :=
  match x with
  | Some v => if decide (v = 0) then d else v
  | None => d
  end.

Definition orQ (x : option Q) (d : Q) : Q :=
  match x with
  | Some v => if decide (v == 0)%Q then d else v
  | None => d
  end.

Definition bucketName (b : Bucket) : string :=
  match b with
  | educational => "educational"
  | topical => "topical"
  | affiliate => "affiliate"
  end.

Section index.
Context (env : Env).

(** [observe({ previousSnapshot })], after the three fetches.  With a
    previous snapshot that is not an array, [previousSnapshot.map] in
    [detectMovers] throws. *)
Definition observe (previousSnapshot : option (Parsed MarketData))
  : IO Observations :=
  let allMarkets := fetchKalshiMarkets env ++ fetchPolymarketMarkets env in
  found ←
    match previousSnapshot with
    | None => mret (detectMovers allMarkets None)
    | Some (IsArray previous) => mret (detectMovers allMarkets (Some previous))
    | Some (NotArray _) => throw "TypeError"
    end;
  n ← readClock;
  mret {| kalshiMarkets := fetchKalshiMarkets env;
          polymarketMarkets := fetchPolymarketMarkets env;
          movers := found;
          trendingTopics := fetchTrendingTopics env;
          newsHeadlines := take 10 (fetchTrendingTopics env);
          timestamp := toISOString env n |}.

(** [analyze]: the prompt is built from the observations, the inventory
    slugs and the configuration (reading [config.bucketWeights.educational]
    throws when the file has no weights); the answer is the recommendations,
    sorted by score descending. *)
Definition analyze (observations : Observations)
  : IO (list ContentOpportunity) :=
  config ← loadConfig;
  match cfg_bucketWeights config with
  | None => throw "TypeError"
  | Some _ => mret (sortDesc score (recommendations env))
  end.

(** [create]: the draft takes slug, bucket, category, title and keyword from
    the assignment; a failed call is rethrown. *)
Definition create (assignment : ContentOpportunity) : IO Draft.t :=
  match generate env assignment with
  | Some (cleaned, words) =>
      mret {| Draft.slug := slug assignment;
              Draft.bucket := bucketName (bucket assignment);
              Draft.category := category assignment;
              Draft.content := cleaned;
              Draft.title := title assignment;
              Draft.targetKeyword := targetKeyword assignment;
              Draft.wordCount := words |}
  | None => throw "create"
  end.

(** Step 4 of [main]: one [create] per assignment; a failure is logged and
    the loop goes on. *)
Fixpoint createAll (assignments : list ContentOpportunity)
    (drafts : list Draft.t) : IO (list Draft.t) :=
  match assignments with
  | [] => mret drafts
  | assignment :: rest =>
      drafts' ← tryCatch (draft ← create assignment; mret (drafts ++ [draft]))
                         (λ _, mret drafts);
      createAll rest drafts'
  end.

Definition logEntryOf (now : string) (observations : Observations)
    (opportunities assignments : list ContentOpportunity)
    (drafts : list Draft.t) : Log.t := {|
  Log.timestamp := now;
  Log.observations :=
    {| Log.kalshiMarkets := length (kalshiMarkets observations);
       Log.polymarketMarkets := length (polymarketMarkets observations);
       Log.movers := length (movers observations);
       Log.trends := length (trendingTopics observations) |};
  Log.opportunities := length opportunities;
  Log.selected := (λ a, (title a, bucket a, score a)) <$> assignments;
  Log.produced :=
    (λ d, (Draft.slug d, Draft.bucket d, Draft.wordCount d)) <$> drafts;
  Log.elapsedSeconds := elapsed env;
|}.

(** The end of [main]: append the entry to the decisions log.  When the file
    holds a value that is not an array, [logs.push] throws. *)
Definition appendLog (logEntry : Log.t) : IO unit :=
  present ← existsSync logPath;
  logs ←
    (if present : bool
     then tryCatch (readFileSync logPath ≫= parseDecisions)
                   (λ _, mret (IsArray []))
     else mret (IsArray []));
  match logs with
  | IsArray entries => writeFileSync logPath (DecisionsJson (entries ++ [logEntry]))
  | NotArray _ => throw "TypeError"
  end.

(** Steps 4 and 5 and the audit entry, for the assignments selected. *)
Definition produce (observations : Observations)
    (opportunities assignments : list ContentOpportunity) : IO unit :=
  drafts ← createAll assignments [];
  match drafts with
  | [] => mret ()
  | _ =>
      submit env drafts ;;
      n ← readClock;
      appendLog (logEntryOf (toISOString env n) observations opportunities
                   assignments drafts)
  end.

(** The body of the [try] block of [main]. *)
Definition mainBody : IO unit :=
  previousSnapshot ← loadPreviousSnapshot;
  observations ← observe previousSnapshot;
  saveSnapshot (kalshiMarkets observations ++ polymarketMarkets observations) ;;
  opportunities ← analyze observations;
  match opportunities with
  | [] => mret ()
  | _ =>
      config ← loadConfig;
      match cfg_bucketWeights config with
      | None =>
          (* [bucketWeights: undefined] replaces the default; [decide] reads
             the weights only after its early return *)
          match admitted opportunities (orQ (minScoreThreshold config) 0.3) with
          | [] => mret ()
          | _ => throw "TypeError"
          end
      | Some w =>
          let assignments :=
            Agent.decide opportunities
              (configOf (orZ (maxArticlesPerRun config) 3) w
                        (orQ (minScoreThreshold config) 0.3)) in
          match assignments with
          | [] => mret ()
          | _ => produce observations opportunities assignments
          end
      end
  end.

(** [main]: an error ends the process with status 1. *)
Definition main : IO unit :=
  tryCatch mainBody (λ _, emit (EvExit 1)).
End index.

(** Running a computation. *)
Definition worldAfter {A} (c : IO A) (w : World) : World := (c w).2.
Definition resultOf {A} (c : IO A) (w : World) : Outcome A := (c w).1.

(** ** agent/observe.ts: [fetchKalshiMarkets] *)

Module Kalshi.
(** A market as the Kalshi API lists it; [None] is a missing field. *)
Record raw := {
  ticker : string;
  title : string;
  category : option string;
  yes_ask : option JsonNumber;
  last_price : option JsonNumber;
  volume : option Q;
  close_time : option string;
}.

(** The outcome of the request: it failed (the [fetch] or the decoding of the
    body threw), or it came back with a status and a body whose [markets]
    field may be missing. *)
Inductive response :=
  | Failed
  | Status (ok : bool) (markets : option (list raw)).
End Kalshi.

(** [s || d] on a string that may be missing: the empty string is falsy. *)
Definition orString (s : option string) (d : string) : string :=
  match s with
  | Some v => if decide (v = "") then d else v
  | None => d
  end.

(** [x || d] on a number that may be missing: zero is falsy. *)
Definition orFloat (x : option JsonNumber) (d : JsonNumber) : JsonNumber :=
  match x with
  | Some v => if (v =? 0)%float then d else v
  | None => d
  end.

Module Observe.
(** [m.volume > 500]: a missing volume compares false. *)
Definition liquid (m : Kalshi.raw) : Prop :=
  match Kalshi.volume m with
  | Some v => (500 < v)%Q
  | None => False
  end.

#[global] Instance liquid_dec (m : Kalshi.raw) : Decision (liquid m).
Proof. unfold liquid. destruct (Kalshi.volume m); apply _. Defined.

Definition toMarket (m : Kalshi.raw) : MarketData := {|
  id := Kalshi.ticker m;
  market_title := Kalshi.title m;
  market_category := orString (Kalshi.category m) "general";
  platform := kalshi;
  yes_price :=
    orFloat (Kalshi.yes_ask m) (orFloat (Kalshi.last_price m) (jsonNumber 0));
  volume := orQ (Kalshi.volume m) 0;
  end_date := Kalshi.close_time m;
  url := "https://kalshi.com/markets/" +:+ Kalshi.ticker m;
|}.

(** [fetchKalshiMarkets], given what the request returned. *)
Definition fetchKalshiMarkets (r : Kalshi.response) : list MarketData :=
  match r with
  | Kalshi.Failed => []
  | Kalshi.Status false _ => []
  | Kalshi.Status true markets => toMarket <$> filter liquid (default [] markets)
  end.
End Observe.

(** ** agent/analyze.ts: [loadInventory] and the markets of a recommendation *)

Module Analyze.

(** [allMarkets.find(m => m.id === id)] *)
Definition findById (allMarkets : list MarketData) (i : string)
  : option MarketData :=
  snd <$> list_find (λ m, id m = i) allMarkets.

(** [(rec.relevantMarketIds || []).map(id => allMarkets.find(...))
      .filter(Boolean)] *)
Definition relevantMarketsOf (allMarkets : list MarketData)
    (relevantMarketIds : option (list string)) : list MarketData :=
  omap (findById allMarkets) (default [] relevantMarketIds).
End Analyze.

(** ** site/app/api/sitemap/route.ts *)

Module Site.
(** [ArticleMeta] of site/lib/content.ts. *)
Record ArticleMeta := {
  title : string;
  slug : string;
  description : string;
  bucket : string;
  category : string;
  targetKeyword : string;
  secondaryKeywords : list string;
  dateCreated : string;
  dateUpdated : string;
  author : string;
  schemaType : string;
  internalLinks : list (string * string);
  affiliateLinks : list (string * option string * option string);
  status : string;
}.

Record page := {
  url : string;
  lastmod : string;
  priority : Q;
  changefreq : string;
}.

(** The callback of [articles.map] in [GET]. *)
Definition articlePage (article : ArticleMeta) : page := {|
  url :=
    if decide (bucket article = "educational")
    then "/learn/" +:+ slug article
    else if decide (bucket article = "topical")
    then "/markets/" +:+ category article +:+ "/" +:+ slug article
    else if decide (bucket article = "affiliate")
    then "/best/" +:+ slug article
    else "";
  lastmod :=
    if decide (dateUpdated article = "") then dateCreated article
    else dateUpdated article;
  priority := if decide (bucket article = "affiliate") then 0.9 else 0.7;
  changefreq :=
    if decide (bucket article = "topical") then "daily" else "weekly";
|}.
End Site.

(** ** scripts/seed-content.ts *)

Module Seed.
Record article := {
  title : string;
  slug : string;
  targetKeyword : string;
  secondaryKeywords : list string;
}.

Definition SEED_ARTICLES : list article := [
  {| title := "What Is a Prediction Market? A Complete Guide";
     slug := "what-is-a-prediction-market";
     targetKeyword := "what is a prediction market";
     secondaryKeywords := ["prediction market definition";
       "how prediction markets work"; "prediction market explained"] |};
  {| title := "How to Read Prediction Market Odds";
     slug := "how-to-read-prediction-market-odds";
     targetKeyword := "how to read prediction market odds";
     secondaryKeywords := ["prediction market odds explained";
       "understanding prediction market prices"] |};
  {| title := "Are Prediction Markets Legal? A State-by-State Guide";
     slug := "are-prediction-markets-legal";
     targetKeyword := "are prediction markets legal";
     secondaryKeywords := ["prediction markets legal US";
       "CFTC prediction markets"; "prediction market regulations"] |};
  {| title := "How Accurate Are Prediction Markets? What the Data Shows";
     slug := "how-accurate-are-prediction-markets";
     targetKeyword := "how accurate are prediction markets";
     secondaryKeywords := ["prediction market accuracy";
       "prediction markets vs polls accuracy"] |};
  {| title := "Prediction Markets vs. Polls: Which Is More Reliable?";
     slug := "prediction-markets-vs-polls";
     targetKeyword := "prediction markets vs polls";
     secondaryKeywords := ["are prediction markets better than polls";
       "prediction markets polling comparison"] |};
  {| title := "Prediction Markets vs. Sports Betting: Key Differences";
     slug := "prediction-markets-vs-sports-betting";
     targetKeyword := "prediction markets vs sports betting";
     secondaryKeywords := ["difference between prediction markets and betting";
       "prediction market or sportsbook"] |};
  {| title := "How to Start Trading Prediction Markets: A Beginner's Guide";
     slug := "prediction-market-beginners-guide";
     targetKeyword := "prediction market for beginners";
     secondaryKeywords := ["how to trade prediction markets";
       "getting started prediction markets"] |};
  {| title := "Do You Pay Taxes on Prediction Market Winnings?";
     slug := "prediction-market-taxes";
     targetKeyword := "prediction market tax";
     secondaryKeywords := ["do you pay taxes on prediction markets";
       "kalshi taxes"; "1099 prediction markets"] |};
  {| title := "Prediction Market Glossary: Every Term You Need to Know";
     slug := "prediction-market-glossary";
     targetKeyword := "prediction market glossary";
     secondaryKeywords := ["prediction market terms";
       "prediction market definitions"] |};
  {| title := "The History of Prediction Markets: From Iowa to Kalshi";
     slug := "history-of-prediction-markets";
     targetKeyword := "history of prediction markets";
     secondaryKeywords := ["when did prediction markets start";
       "prediction market timeline"] |}
].

Definition outputDir : string := "site/content/learn".
Definition systemPrompt : string := "agent/prompts/system.md".
Definition templatePrompt : string := "agent/prompts/educational.md".

Definition filepath (a : article) : string :=
  outputDir +:+ "/" +:+ slug a +:+ ".md".

Definition itemOf (a : article) (words : Z) (now : string) : Item.t := {|
  Item.slug := slug a;
  Item.title := title a;
  Item.bucket := "educational";
  Item.category := "learn";
  Item.targetKeyword := targetKeyword a;
  Item.wordCount := words;
  Item.status := "draft";
  Item.createdAt := now;
|}.

Section script.
(** What the model call answers for an article (the text after clean-up and
    its word count), or [None] when the call fails; and the clock's text. *)
Context (answer : article → option (string * Z)) (toISO : nat → string).

(** [generateArticle]: the two prompt files are read without a check for
    their existence, so a missing one makes the call throw. *)
Definition generateArticle (a : article) : IO (string * Z) :=
  readFileSync systemPrompt ;;
  readFileSync templatePrompt ;;
  readClock ;;
  match answer a with
  | Some text => mret text
  | None => throw "generate"
  end.

(** The body of the [for] loop of [main], with its [try]/[catch] (which also
    covers the write of the article). *)
Definition step (a : article) (inventory : list Item.t) : IO (list Item.t) :=
  tryCatch
    (text ← generateArticle a;
     writeFileSync (filepath a) (Markdown text.1) ;;
     n ← readClock;
     mret (inventory ++ [itemOf a text.2 (toISO n)]))
    (λ _, mret inventory).

Fixpoint loop (articles : list article) (inventory : list Item.t)
  : IO (list Item.t) :=
  match articles with
  | [] => mret inventory
  | a :: rest => inventory' ← step a inventory; loop rest inventory'
  end.

(** [main].  The [try] around the reading of the inventory covers
    [JSON.parse] only: spreading a value that is not an array throws. *)
Definition main : IO unit :=
  mkdirSync outputDir ;;
  inventory ← loop SEED_ARTICLES [];
  mkdirSync "data" ;;
  present ← existsSync inventoryPath;
  existing ←
    (if present : bool
     then tryCatch (readFileSync inventoryPath ≫= parseInventory)
                   (λ _, mret (IsArray []))
     else mret (IsArray []));
  match existing with
  | IsArray existing =>
      let merged :=
        existing ++ filter (λ item, hasSlug existing (Item.slug item) = false)
                      inventory in
      writeFileSync inventoryPath (InventoryJson merged)
  | NotArray _ => throw "TypeError"
  end.
End script.
End Seed.

(** * Properties *)

(** ** The mover detector *)

(** *** The key identifies (platform, id) *)

Lemma marketKey_inj (m m' : MarketData) :
  marketKey m = marketKey m' ↔ platform m = platform m' ∧ id m = id m'.
Proof.
  unfold marketKey. split.
  - destruct (platform m), (platform m'); intros H;
      first [ cbv [String.append] in H; discriminate H
            | do 2 apply (inj (String.app _)) in H; done ].
  - by intros [-> ->].
Qed.

(** *** What the map holds: the last entry of the snapshot with that key *)

Lemma previousMap_nil : previousMap [] = ∅.
Proof. reflexivity. Qed.

Lemma previousMap_snoc (l : list MarketData) (p : MarketData) :
  previousMap (l ++ [p]) = <[marketKey p := p]> (previousMap l).
Proof. unfold previousMap. by rewrite foldl_app. Qed.

Lemma previousMap_lookup_Some (l : list MarketData) (k : string) (p : MarketData) :
  previousMap l !! k = Some p →
  ∃ l1 l2, l = l1 ++ p :: l2 ∧ marketKey p = k ∧
           Forall (λ q, marketKey q ≠ k) l2.
Proof.
  induction l as [|q l IH] using rev_ind; intros Hl.
  - by rewrite previousMap_nil, lookup_empty in Hl.
  - rewrite previousMap_snoc in Hl.
    destruct (decide (marketKey q = k)) as [Heq|Hne].
    + rewrite Heq, lookup_insert_eq in Hl. injection Hl as ->.
      exists l, []. by rewrite Forall_nil.
    + rewrite lookup_insert_ne in Hl by done.
      destruct (IH Hl) as (l1 & l2 & -> & Hk & Hall).
      exists l1, (l2 ++ [q]). rewrite <- app_assoc. simpl.
      split_and!; [done | done |].
      rewrite Forall_app, Forall_singleton. done.
Qed.

Lemma previousMap_lookup_None (l : list MarketData) (k : string) :
  previousMap l !! k = None ↔ Forall (λ q, marketKey q ≠ k) l.
Proof.
  induction l as [|q l IH] using rev_ind.
  - rewrite previousMap_nil, lookup_empty, Forall_nil. tauto.
  - rewrite previousMap_snoc, Forall_app, Forall_singleton.
    destruct (decide (marketKey q = k)) as [Heq|Hne].
    + rewrite Heq, lookup_insert_eq. split; [done | by intros [_ ?]].
    + rewrite lookup_insert_ne by done. rewrite IH. tauto.
Qed.

Lemma previousMap_lookup_last (l1 l2 : list MarketData) (p : MarketData) :
  Forall (λ q, marketKey q ≠ marketKey p) l2 →
  previousMap (l1 ++ p :: l2) !! marketKey p = Some p.
Proof.
  induction l2 as [|q l2 IH] using rev_ind; intros Hall.
  - rewrite previousMap_snoc. apply lookup_insert_eq.
  - rewrite Forall_app, Forall_singleton in Hall. destruct Hall as [Hall Hq].
    replace (l1 ++ p :: l2 ++ [q]) with ((l1 ++ p :: l2) ++ [q])
      by (by rewrite <- app_assoc).
    rewrite previousMap_snoc, lookup_insert_ne by done. by apply IH.
Qed.

(** With one entry per (platform, id), the counterpart of an item is the
    entry of the previous snapshot with the same platform and id. *)
Lemma previousMap_lookup_unique (previous : list MarketData) (m p : MarketData) :
  NoDup (marketKey <$> previous) →
  p ∈ previous → platform p = platform m → id p = id m →
  previousMap previous !! marketKey m = Some p.
Proof.
  intros Hnd Hin Hpl Hid.
  assert (Hk : marketKey p = marketKey m) by (by apply marketKey_inj).
  apply list_elem_of_split in Hin as (l1 & l2 & ->).
  rewrite <- Hk. apply previousMap_lookup_last.
  rewrite fmap_app, fmap_cons in Hnd.
  apply NoDup_app in Hnd as (_ & _ & Hnd). apply NoDup_cons in Hnd as [Hnot _].
  apply Forall_forall. intros q Hq Heq. apply Hnot.
  rewrite <- Heq. apply list_elem_of_fmap. by exists q.
Qed.

Lemma detectMovers_cold_start (current : list MarketData) :
  detectMovers current None = [].
Proof. reflexivity. Qed.

Lemma elem_of_detectMovers (current previous : list MarketData) (m : MarketData) :
  m ∈ detectMovers current (Some previous) ↔
  m ∈ current ∧ isMover (previousMap previous) m = true.
Proof.
  unfold detectMovers. rewrite list_elem_of_filter, Is_true_true. tauto.
Qed.

(** The binary64 number that JavaScript reads a decimal number as: the
    numerator and the denominator (integers below 2^53) are binary64 numbers
    themselves, and their quotient is rounded once, to the nearest. *)
Fixpoint floatOfPos (p : positive) : float :=
  match p with
  | xH => 1
  | xO p' => 2 * floatOfPos p'
  | xI p' => 2 * floatOfPos p' + 1
  end%float.

Definition floatOfZ (z : Z) : float :=
  match z with
  | Z0 => 0
  | Zpos p => floatOfPos p
  | Zneg p => - floatOfPos p
  end%float.

Definition ofDecimal (q : Q) : float :=
  (floatOfZ (Qnum q) / floatOfPos (Qden q))%float.

Example ofDecimal_literals :
  ofDecimal 0.8 = 0.8%float ∧ ofDecimal 0.7 = 0.7%float ∧
  ofDecimal 0.10 = 0.10%float ∧ ofDecimal 0.75 = 0.75%float.
Proof. by vm_compute. Qed.

(** C6 (amended).  For an item of the current snapshot whose key the
    previous snapshot holds (with [prev] the entry kept for that key), the
    item is reported iff the absolute price change, computed in binary64, is
    strictly above the binary64 number 0.10; a computed change equal to it
    is not reported; an item with no counterpart is never reported. *)
Theorem detectMovers_threshold (current previous : list MarketData)
    (m : MarketData) :
  m ∈ current →
  (∀ prev, previousMap previous !! marketKey m = Some prev →
     (m ∈ detectMovers current (Some previous) ↔
        (0.10 <? abs (yes_price m - yes_price prev))%float = true) ∧
     (abs (yes_price m - yes_price prev)%float = 0.10%float →
        m ∉ detectMovers current (Some previous))) ∧
  (previousMap previous !! marketKey m = None →
     m ∉ detectMovers current (Some previous)).
Proof.
  intros Hin. split.
  - intros prev Hprev.
    assert (Hiff : m ∈ detectMovers current (Some previous) ↔
                   (0.10 <? abs (yes_price m - yes_price prev))%float = true).
    { rewrite elem_of_detectMovers. unfold isMover, Math_abs. rewrite Hprev.
      tauto. }
    split; [exact Hiff |].
    intros Heq Hm. apply Hiff in Hm. rewrite Heq in Hm.
    vm_compute in Hm. discriminate Hm.
  - intros Hnone. rewrite elem_of_detectMovers. unfold isMover.
    rewrite Hnone. intros [_ ?]. discriminate.
Qed.

Definition market (i : string) (p : Platform) (price : float) : MarketData := {|
  id := i; market_title := i; market_category := "general"; platform := p;
  yes_price := jsonNumber price; volume := 1000; end_date := None; url := "";
|}.

Lemma detectMovers_threshold_witness :
  (market "FED-CUT" kalshi 0.75 ∈
     detectMovers [market "FED-CUT" kalshi 0.75]
       (Some [market "FED-CUT" polymarket 0.10; market "FED-CUT" kalshi 0.60])) ∧
  (market "FED-CUT" kalshi 0.70 ∉
     detectMovers [market "FED-CUT" kalshi 0.70]
       (Some [market "FED-CUT" polymarket 0.10; market "FED-CUT" kalshi 0.60])) ∧
  (market "FED-CUT" kalshi 0.10 ∉
     detectMovers [market "FED-CUT" kalshi 0.10]
       (Some [market "FED-CUT" kalshi 0])) ∧
  (market "FED-CUT" kalshi 0.75 ∉
     detectMovers [market "FED-CUT" kalshi 0.75]
       (Some [market "FED-CUT" polymarket 0.10])) ∧
  (market "FED-CUT" kalshi 0.8 ∈
     detectMovers [market "FED-CUT" kalshi 0.8]
       (Some [market "FED-CUT" kalshi 0.7])).
Proof.
  split_and!.
  - apply (detectMovers_threshold [market "FED-CUT" kalshi 0.75]
             [market "FED-CUT" polymarket 0.10; market "FED-CUT" kalshi 0.60]
             (market "FED-CUT" kalshi 0.75) (list_elem_of_here _ _))
      with (prev := market "FED-CUT" kalshi 0.60); by vm_compute.
  - intros Hm.
    destruct (detectMovers_threshold [market "FED-CUT" kalshi 0.70]
                [market "FED-CUT" polymarket 0.10; market "FED-CUT" kalshi 0.60]
                (market "FED-CUT" kalshi 0.70) (list_elem_of_here _ _))
      as [H _].
    destruct (H (market "FED-CUT" kalshi 0.60)) as [Hiff _]; [by vm_compute |].
    apply Hiff in Hm. vm_compute in Hm. discriminate Hm.
  - apply (detectMovers_threshold [market "FED-CUT" kalshi 0.10]
             [market "FED-CUT" kalshi 0]
             (market "FED-CUT" kalshi 0.10) (list_elem_of_here _ _))
      with (prev := market "FED-CUT" kalshi 0); by vm_compute.
  - apply (detectMovers_threshold [market "FED-CUT" kalshi 0.75]
             [market "FED-CUT" polymarket 0.10]
             (market "FED-CUT" kalshi 0.75) (list_elem_of_here _ _)).
    by vm_compute.
  - apply (detectMovers_threshold [market "FED-CUT" kalshi 0.8]
             [market "FED-CUT" kalshi 0.7]
             (market "FED-CUT" kalshi 0.8) (list_elem_of_here _ _))
      with (prev := market "FED-CUT" kalshi 0.7); by vm_compute.
Defined.

(** C6, as the specification states it, fails on the code: the prices 0.8
    and 0.7 differ by exactly 0.10, which is not above the threshold, and the
    item is reported, because the binary64 numbers the two prices are read as
    differ by 0.10000000000000009. *)
Lemma threshold_fails_at_one_tenth :
  ¬ (∀ (current previous : list MarketData) (m prev : MarketData) (x y : Q),
       m ∈ current →
       previousMap previous !! marketKey m = Some prev →
       numberOf (yes_price m) = ofDecimal x →
       numberOf (yes_price prev) = ofDecimal y →
       (m ∈ detectMovers current (Some previous) ↔
          (0.10 < Qabs (x - y))%Q)).
Proof.
  intros H.
  specialize (H [market "FED-CUT" kalshi 0.8] [market "FED-CUT" kalshi 0.7]
                (market "FED-CUT" kalshi 0.8) (market "FED-CUT" kalshi 0.7)
                0.8%Q 0.7%Q (list_elem_of_here _ _)).
  destruct H as [H _]; [by vm_compute | by vm_compute | by vm_compute |].
  assert (Hm : market "FED-CUT" kalshi 0.8 ∈
               detectMovers [market "FED-CUT" kalshi 0.8]
                 (Some [market "FED-CUT" kalshi 0.7])).
  { apply elem_of_detectMovers. split; [apply list_elem_of_here |].
    by vm_compute. }
  apply H in Hm. by vm_compute in Hm.
Qed.

(** ** The allocator: sorting and the two loops in closed form *)

Section sort_facts.
Context {A : Type} (key : A → Q).

Lemma insertDesc_perm (x : A) (l : list A) : insertDesc key x l ≡ₚ x :: l.
Proof.
  induction l as [|y l IH]; simpl; [done |].
  destruct (decide (key x < key y)%Q); [| done].
  rewrite IH. apply Permutation_swap.
Qed.

Lemma sortDesc_perm (l : list A) : sortDesc key l ≡ₚ l.
Proof.
  induction l as [|x l IH]; simpl; [done |].
  by rewrite insertDesc_perm, IH.
Qed.

Lemma sortDesc_length (l : list A) : length (sortDesc key l) = length l.
Proof. by rewrite sortDesc_perm. Qed.

Lemma elem_of_sortDesc (x : A) (l : list A) : x ∈ sortDesc key l ↔ x ∈ l.
Proof. by rewrite sortDesc_perm. Qed.

(** The result is in descending order of the key... *)
Definition descending (l : list A) : Prop :=
  StronglySorted (λ a b, (key b <= key a)%Q) l.

Lemma insertDesc_descending (x : A) (l : list A) :
  descending l → descending (insertDesc key x l).
Proof.
  unfold descending. induction 1 as [|y l Hl IH Hy]; simpl.
  - repeat constructor.
  - destruct (decide (key x < key y)%Q) as [Hlt|Hge].
    + constructor; [done |].
      rewrite Forall_forall. intros z Hz.
      rewrite insertDesc_perm in Hz. apply elem_of_cons in Hz as [->|Hz].
      * by apply Qlt_le_weak.
      * by apply (proj1 (Forall_forall _ _) Hy).
    + apply Qnot_lt_le in Hge. constructor; [by constructor |].
      constructor; [done |].
      eapply Forall_impl; [exact Hy |]. simpl. intros z Hz.
      by eapply Qle_trans.
Qed.

Lemma sortDesc_descending (l : list A) : descending (sortDesc key l).
Proof.
  induction l as [|x l IH]; simpl; [constructor |].
  by apply insertDesc_descending.
Qed.

(** ... and elements with equal keys keep their order (stability): the
    elements whose key is [q] appear in the order they had. *)
Lemma insertDesc_stable (q : Q) (x : A) (l : list A) :
  descending l →
  filter (λ a, (key a == q)%Q) (insertDesc key x l) =
  filter (λ a, (key a == q)%Q) (x :: l).
Proof.
  unfold descending. induction 1 as [|y l Hl IH Hy]; simpl; [done |].
  destruct (decide (key x < key y)%Q) as [Hlt|Hge]; [| done].
  rewrite !filter_cons. rewrite IH. rewrite filter_cons.
  destruct (decide (key y == q)%Q) as [Hyq|]; [| done].
  destruct (decide (key x == q)%Q) as [Hxq|]; [| done].
  rewrite Hyq, Hxq in Hlt. by apply Qlt_irrefl in Hlt.
Qed.

Lemma sortDesc_stable (q : Q) (l : list A) :
  filter (λ a, (key a == q)%Q) (sortDesc key l) =
  filter (λ a, (key a == q)%Q) l.
Proof.
  induction l as [|x l IH]; simpl; [done |].
  rewrite insertDesc_stable by apply sortDesc_descending.
  by rewrite !filter_cons, IH.
Qed.
End sort_facts.

(** How many elements a loop of the first pass pushes. *)
Definition quota (target maxArticles : Z) (available selectedLen : nat)
    (count : Z) : nat :=
  Z.to_nat (Z.min (Z.of_nat available)
              (Z.min (target - count) (maxArticles - Z.of_nat selectedLen))).

Lemma fillBucket_take (target maxArticles : Z) (bucketOpps selected : list Obj)
    (count : Z) :
  let k := quota target maxArticles (length bucketOpps) (length selected) count in
  fillBucket target maxArticles bucketOpps selected count =
    (selected ++ take k bucketOpps, count + Z.of_nat k).
Proof.
  revert selected count. unfold quota.
  induction bucketOpps as [|opp rest IH]; intros selected count; simpl.
  - rewrite take_nil, app_nil_r. f_equal. lia.
  - destruct (decide (target ≤ count)) as [Ht|Ht].
    { replace (Z.to_nat _) with 0%nat by lia. simpl.
      rewrite app_nil_r. f_equal. lia. }
    destruct (decide (maxArticles ≤ Z.of_nat (length selected))) as [Hm|Hm].
    { replace (Z.to_nat _) with 0%nat by lia. simpl.
      rewrite app_nil_r. f_equal. lia. }
    rewrite IH. rewrite length_app. simpl.
    match goal with |- context [take (Z.to_nat ?a) (opp :: rest)] =>
      replace (Z.to_nat a) with (S (Z.to_nat (a - 1))) by lia end.
    simpl. rewrite <- app_assoc. simpl.
    match goal with |- (_ ++ _ :: take ?a _, _) = (_ ++ _ :: take ?b _, _) =>
      replace a with b by lia end.
    f_equal. lia.
Qed.

(** How many elements the loop of the second pass pushes. *)
Definition spill (maxArticles : Z) (available selectedLen : nat) : nat :=
  Z.to_nat (Z.min (Z.of_nat available) (maxArticles - Z.of_nat selectedLen)).

Lemma fillRest_take (maxArticles : Z) (remaining selected : list Obj) :
  fillRest maxArticles remaining selected =
    selected ++ take (spill maxArticles (length remaining) (length selected))
                  remaining.
Proof.
  revert selected. unfold spill.
  induction remaining as [|opp rest IH]; intros selected; simpl.
  - by rewrite take_nil, app_nil_r.
  - destruct (decide (maxArticles ≤ Z.of_nat (length selected))) as [Hm|Hm].
    { replace (Z.to_nat _) with 0%nat by lia. simpl. by rewrite app_nil_r. }
    rewrite IH. rewrite length_app. simpl.
    match goal with |- context [take (Z.to_nat ?a) (opp :: rest)] =>
      replace (Z.to_nat a) with (S (Z.to_nat (a - 1))) by lia end.
    simpl. rewrite <- app_assoc. simpl.
    match goal with |- _ ++ _ :: take ?a _ = _ ++ _ :: take ?b _ =>
      replace a with b by lia end.
    done.
Qed.

(** ** The allocator on an array of pairwise distinct objects *)

Lemma byScore_perm (l : list Obj) : byScore l ≡ₚ l.
Proof. apply sortDesc_perm. Qed.

Lemma fst_inj_on {A B} (l : list (A * B)) (x y : A * B) :
  NoDup l.*1 → x ∈ l → y ∈ l → x.1 = y.1 → x = y.
Proof.
  induction l as [|z l IH]; [by intros _ ?%elem_of_nil |].
  rewrite fmap_cons. intros [Hz Hl]%NoDup_cons.
  intros [->|Hx]%elem_of_cons [->|Hy]%elem_of_cons Heq.
  - done.
  - destruct Hz. rewrite Heq. by apply list_elem_of_fmap_2.
  - destruct Hz. rewrite <- Heq. by apply list_elem_of_fmap_2.
  - by apply IH.
Qed.

Section allocation.
Context (cfg : DecisionConfig) (viable : list Obj).
Hypothesis viable_refs : NoDup viable.*1.

Let M := maxArticles cfg.

Lemma viable_NoDup : NoDup viable.
Proof using viable_refs. by eapply NoDup_fmap_1. Qed.

Lemma ref_inj (o o' : Obj) : o ∈ viable → o' ∈ viable → o.1 = o'.1 → o = o'.
Proof using viable_refs. by apply fst_inj_on. Qed.

Lemma includes_iff (selected : list Obj) (o : Obj) :
  selected ⊆ viable → o ∈ viable → includes selected o = true ↔ o ∈ selected.
Proof using viable_refs.
  intros Hsub Ho. unfold includes. rewrite bool_decide_eq_true. split.
  - intros (o' & Heq & Ho')%list_elem_of_fmap.
    pose proof (ref_inj o o' Ho (Hsub _ Ho') Heq) as ->. done.
  - by apply list_elem_of_fmap_2.
Qed.

(** The candidates of a bucket, best first. *)
Definition bucketOpps (b : Bucket) : list Obj :=
  byScore (filter (λ o, bucket o.2 = b) viable).

Lemma elem_of_bucketOpps (b : Bucket) (o : Obj) :
  o ∈ bucketOpps b ↔ bucket o.2 = b ∧ o ∈ viable.
Proof. unfold bucketOpps. by rewrite byScore_perm, list_elem_of_filter. Qed.

Lemma bucketOpps_NoDup (b : Bucket) : NoDup (bucketOpps b).
Proof using viable_refs.
  unfold bucketOpps. rewrite byScore_perm.
  apply NoDup_filter, viable_NoDup.
Qed.

Lemma bucketOpps_length (b : Bucket) :
  length (bucketOpps b) = length (filter (λ o, bucket o.2 = b) viable).
Proof. unfold bucketOpps. by rewrite byScore_perm. Qed.

(** The first pass, loop by loop. *)
Definition taken1 : list Obj :=
  take (quota (targetCounts M (bucketWeights cfg) educational) M
          (length (bucketOpps educational)) 0 0)
       (bucketOpps educational).

Definition taken2 : list Obj :=
  take (quota (targetCounts M (bucketWeights cfg) topical) M
          (length (bucketOpps topical)) (length taken1) 0)
       (bucketOpps topical).

Definition taken3 : list Obj :=
  take (quota (targetCounts M (bucketWeights cfg) affiliate) M
          (length (bucketOpps affiliate)) (length (taken1 ++ taken2)) 0)
       (bucketOpps affiliate).

Lemma firstPassStep_take (selected : list Obj) (counts : Bucket → Z)
    (b : Bucket) :
  let k := quota (targetCounts M (bucketWeights cfg) b) M
             (length (bucketOpps b)) (length selected) (counts b) in
  firstPassStep cfg viable (selected, counts) b =
    (selected ++ take k (bucketOpps b),
     setCount b (counts b + Z.of_nat k) counts).
Proof. simpl. unfold firstPassStep. by rewrite fillBucket_take. Qed.

Lemma firstPass_taken : (firstPass cfg viable).1 = (taken1 ++ taken2) ++ taken3.
Proof.
  unfold firstPass, bucketOrder. cbn [foldl].
  rewrite !firstPassStep_take. reflexivity.
Qed.

Lemma elem_of_taken1 o : o ∈ taken1 → bucket o.2 = educational ∧ o ∈ viable.
Proof. intros Ho. apply elem_of_bucketOpps. by eapply subseteq_take. Qed.

Lemma elem_of_taken2 o : o ∈ taken2 → bucket o.2 = topical ∧ o ∈ viable.
Proof. intros Ho. apply elem_of_bucketOpps. by eapply subseteq_take. Qed.

Lemma elem_of_taken3 o : o ∈ taken3 → bucket o.2 = affiliate ∧ o ∈ viable.
Proof. intros Ho. apply elem_of_bucketOpps. by eapply subseteq_take. Qed.

Lemma firstPass_NoDup : NoDup (firstPass cfg viable).1.
Proof using viable_refs.
  rewrite firstPass_taken. rewrite !NoDup_app.
  split_and!;
    try (eapply sublist_NoDup; [apply bucketOpps_NoDup | apply sublist_take]).
  - intros o [H1 _]%elem_of_taken1 [H2 _]%elem_of_taken2. congruence.
  - intros o [[H1 _]%elem_of_taken1|[H1 _]%elem_of_taken2]%elem_of_app
      [H3 _]%elem_of_taken3; congruence.
Qed.

Lemma firstPass_subseteq : (firstPass cfg viable).1 ⊆ viable.
Proof.
  rewrite firstPass_taken. intros o.
  rewrite !elem_of_app.
  intros [[Ho|Ho]|Ho];
    [apply elem_of_taken1 in Ho | apply elem_of_taken2 in Ho
    | apply elem_of_taken3 in Ho]; tauto.
Qed.

(** The first pass never exceeds the limit. *)
Lemma firstPass_length :
  Z.of_nat (length (firstPass cfg viable).1) ≤ Z.max M 0.
Proof.
  rewrite firstPass_taken. rewrite !length_app.
  unfold taken3. rewrite length_take, length_app.
  unfold taken2. rewrite length_take.
  unfold taken1. rewrite length_take.
  unfold quota. simpl. lia.
Qed.

Lemma NoDup_subseteq_length (l : list Obj) :
  NoDup l → l ⊆ viable → (length l ≤ length viable)%nat.
Proof. intros Hl Hsub. apply submseteq_length. by apply NoDup_submseteq. Qed.

(** What the second pass sorts: the objects not yet selected. *)
Lemma remaining_length (selected : list Obj) :
  NoDup selected → selected ⊆ viable →
  (length (filter (λ o, includes selected o = false) viable)
     + length selected = length viable)%nat.
Proof using viable_refs.
  intros Hnd Hsub.
  pose proof (Permutation_length
    (filter_app_complement (λ o, includes selected o = false) viable)) as Hlen.
  rewrite length_app in Hlen. rewrite <- Hlen. f_equal.
  apply Permutation_length.
  apply NoDup_Permutation; [done | apply NoDup_filter, viable_NoDup |].
  intros o. rewrite list_elem_of_filter. split.
  - intros Ho. split; [| by apply Hsub].
    apply (includes_iff selected o Hsub (Hsub _ Ho)) in Ho. congruence.
  - intros [Hinc Ho]. apply includes_iff; [done | done |].
    by destruct (includes selected o).
Qed.

Lemma secondPass_spec (selected : list Obj) :
  NoDup selected → selected ⊆ viable →
  Z.of_nat (length selected) ≤ Z.max M 0 →
  let out := secondPass cfg viable selected in
  NoDup out ∧ out ⊆ viable ∧
  Z.of_nat (length out) = Z.min (Z.max M 0) (Z.of_nat (length viable)).
Proof using viable_refs.
  intros Hnd Hsub Hlen. simpl. unfold secondPass. fold M.
  pose proof (NoDup_subseteq_length selected Hnd Hsub) as Hle.
  destruct (decide (Z.of_nat (length selected) < M)) as [Hlt|Hge];
    [| split_and!; [done | done | lia]].
  rewrite fillRest_take.
  set (remaining := byScore (filter _ viable)).
  assert (Hrem : ∀ o, o ∈ remaining → o ∈ viable ∧ o ∉ selected).
  { intros o. unfold remaining.
    rewrite byScore_perm, list_elem_of_filter. intros [Hinc Ho].
    split; [done |]. intros Hin.
    apply (includes_iff selected o Hsub Ho) in Hin. congruence. }
  assert (Hremlen : (length remaining + length selected = length viable)%nat).
  { unfold remaining. rewrite byScore_perm. by apply remaining_length. }
  split_and!.
  - apply NoDup_app. split_and!; [done | |].
    + intros o Ho Ho'%subseteq_take. apply Hrem in Ho' as [_ Hn]. by apply Hn.
    + eapply sublist_NoDup; [| apply sublist_take].
      unfold remaining. rewrite byScore_perm.
      apply NoDup_filter, viable_NoDup.
  - intros o [Ho|Ho%subseteq_take]%elem_of_app; [by apply Hsub |].
    by apply Hrem in Ho as [? _].
  - rewrite length_app, length_take. unfold spill. lia.
Qed.

Lemma decideObjs_body_spec :
  let out := secondPass cfg viable (firstPass cfg viable).1 in
  NoDup out ∧ out ⊆ viable ∧
  Z.of_nat (length out) = Z.min (Z.max M 0) (Z.of_nat (length viable)).
Proof using viable_refs.
  apply secondPass_spec;
    [apply firstPass_NoDup | apply firstPass_subseteq | apply firstPass_length].
Qed.
End allocation.

(** ** From objects back to values *)

Lemma filter_snd {A B} (P : B → Prop) `{!∀ x, Decision (P x)}
    (l : list (A * B)) :
  (filter (λ o, P o.2) l).*2 = filter P l.*2.
Proof.
  induction l as [|x l IH]; [done |].
  rewrite fmap_cons, !filter_cons. simpl.
  destruct (decide (P x.2)); by rewrite ?fmap_cons, IH.
Qed.

Lemma filter_fst_NoDup {A B} (P : A * B → Prop) `{!∀ x, Decision (P x)}
    (l : list (A * B)) :
  NoDup l.*1 → NoDup (filter P l).*1.
Proof.
  induction l as [|x l IH]; [done |].
  rewrite fmap_cons. intros [Hx Hl]%NoDup_cons. rewrite filter_cons.
  destruct (decide (P x)); [| by apply IH].
  rewrite fmap_cons. apply NoDup_cons. split; [| by apply IH].
  intros (y & Heq & [_ Hy]%list_elem_of_filter)%list_elem_of_fmap.
  apply Hx. rewrite Heq. by apply list_elem_of_fmap_2.
Qed.

Lemma allocRefs_fst (l : list ContentOpportunity) :
  (allocRefs l).*1 = seq 0 (length l).
Proof. unfold allocRefs. apply fst_zip. by rewrite length_seq. Qed.

Lemma allocRefs_snd (l : list ContentOpportunity) : (allocRefs l).*2 = l.
Proof. unfold allocRefs. apply snd_zip. by rewrite length_seq. Qed.

Lemma allocRefs_NoDup (l : list ContentOpportunity) : NoDup (allocRefs l).*1.
Proof. rewrite allocRefs_fst. apply NoDup_seq. Qed.

Lemma viableOf_allocRefs (l : list ContentOpportunity) (q : Q) :
  (viableOf snd q (allocRefs l)).*2 = admitted l q.
Proof.
  unfold viableOf, admitted.
  pose proof (filter_snd (λ o : ContentOpportunity, (q <= score o)%Q)
                (allocRefs l)) as H.
  simpl in H. by rewrite allocRefs_snd in H.
Qed.

Lemma mergeConfig_full (c : DecisionConfig) : mergeConfig (fullConfig c) = c.
Proof. by destruct c. Qed.

Lemma countBucket_snd (b : Bucket) (l : list Obj) :
  countBucket b l.*2 = length (filter (λ o, bucket o.2 = b) l).
Proof.
  unfold countBucket.
  pose proof (filter_snd (λ o : ContentOpportunity, bucket o = b) l) as H.
  simpl in H. by rewrite <- H, length_fmap.
Qed.

Lemma countBucket_app (b : Bucket) (l k : list ContentOpportunity) :
  countBucket b (l ++ k) = (countBucket b l + countBucket b k)%nat.
Proof. unfold countBucket. by rewrite filter_app, length_app. Qed.

Lemma countBucket_all (b : Bucket) (l : list ContentOpportunity) :
  Forall (λ o, bucket o = b) l → countBucket b l = length l.
Proof.
  unfold countBucket. induction 1 as [|x l Hx _ IH]; [done |].
  rewrite filter_cons_True by done. simpl. by rewrite IH.
Qed.

Lemma countBucket_none (b : Bucket) (l : list ContentOpportunity) :
  Forall (λ o, bucket o ≠ b) l → countBucket b l = 0%nat.
Proof.
  unfold countBucket. induction 1 as [|x l Hx _ IH]; [done |].
  by rewrite filter_cons_False.
Qed.

(** *** What [decide] returns *)

Section decide_facts.
Context (opportunities : list ContentOpportunity) (cfg : DecisionConfig).

Let viable := viableOf snd (minScore cfg) (allocRefs opportunities).

Lemma viable_refs_NoDup : NoDup viable.*1.
Proof. apply filter_fst_NoDup, allocRefs_NoDup. Qed.

Lemma decideObjs_spec :
  let out := decideObjs (allocRefs opportunities) (fullConfig cfg) in
  NoDup out ∧ out ⊆ viable ∧
  Z.of_nat (length out) =
    Z.min (Z.max (maxArticles cfg) 0) (Z.of_nat (length viable)).
Proof.
  simpl. unfold decideObjs. rewrite mergeConfig_full. fold viable.
  pose proof (decideObjs_body_spec cfg viable viable_refs_NoDup) as Hbody.
  destruct viable as [|o l] eqn:Hv; [| exact Hbody].
  split_and!; [constructor | done | simpl; lia].
Qed.

Lemma decide_length :
  Z.of_nat (length (Agent.decide opportunities (fullConfig cfg))) =
    Z.min (Z.max (maxArticles cfg) 0)
      (Z.of_nat (length (admitted opportunities (minScore cfg)))).
Proof.
  unfold Agent.decide. rewrite length_fmap.
  pose proof decideObjs_spec as Hspec. simpl in Hspec.
  destruct Hspec as (_ & _ & ->).
  by rewrite <- viableOf_allocRefs, length_fmap.
Qed.

Lemma decide_submseteq :
  Agent.decide opportunities (fullConfig cfg) ⊆+
    admitted opportunities (minScore cfg).
Proof.
  unfold Agent.decide. rewrite <- viableOf_allocRefs.
  pose proof decideObjs_spec as Hspec. simpl in Hspec.
  destruct Hspec as (Hnd & Hsub & _).
  apply fmap_submseteq. by apply NoDup_submseteq.
Qed.
End decide_facts.

(** ** Sample data used by the closed examples *)

Definition opp (s : string) (b : Bucket) (sc : Q) : ContentOpportunity := {|
  title := s; slug := s; bucket := b; category := "general";
  targetKeyword := s; secondaryKeywords := []; score := sc;
  reasoning := ""; relevantMarkets := [];
|}.

Definition pool : list ContentOpportunity :=
  [ opp "e1" educational 0.9; opp "e2" educational 0.8;
    opp "e3" educational 0.7; opp "t1" topical 0.9; opp "t2" topical 0.8;
    opp "a1" affiliate 0.9; opp "a2" affiliate 0.8 ].

(** ** Admission *)

Lemma elem_of_admitted (opportunities : list ContentOpportunity) (q : Q)
    (o : ContentOpportunity) :
  o ∈ admitted opportunities q ↔ o ∈ opportunities ∧ (q <= score o)%Q.
Proof. unfold admitted, viableOf. rewrite list_elem_of_filter. tauto. Qed.

(** C1, as the specification states it, fails on the code: [decide] admits
    by score alone and is not given the ledger.  Here the slug [e1] is in
    the ledger and the opportunity is admitted all the same. *)
Lemma admission_ignores_ledger :
  ¬ (∀ (opportunities : list ContentOpportunity) (ledgerSlugs : gset string)
       (q : Q) (o : ContentOpportunity),
       o ∈ opportunities → slug o ∈ ledgerSlugs →
       o ∉ admitted opportunities q).
Proof.
  intros H.
  apply (H [opp "e1" educational 0.9] {["e1"]} 0.3%Q
           (opp "e1" educational 0.9)).
  - apply list_elem_of_here.
  - by apply elem_of_singleton.
  - apply elem_of_admitted. split; [apply list_elem_of_here | done].
Qed.

(** C1 (amended).  The admission step keeps exactly the opportunities whose
    score is at least [minScore]; whether the slug is in the ledger plays no
    part, so a ledger slug with a sufficient score is admitted. *)
Theorem admission_by_score (opportunities : list ContentOpportunity)
    (ledgerSlugs : gset string) (q : Q) (o : ContentOpportunity) :
  (o ∈ admitted opportunities q ↔ o ∈ opportunities ∧ (q <= score o)%Q) ∧
  (o ∈ opportunities → slug o ∈ ledgerSlugs → (q <= score o)%Q →
     o ∈ admitted opportunities q).
Proof.
  split; [apply elem_of_admitted |].
  intros Hin _ Hq. by apply elem_of_admitted.
Qed.

(** ** Allocation totality *)

(** C4.  With a limit [maxTotal >= 0] (and some bucket of nonzero weight)
    [decide] returns exactly [min maxTotal n] opportunities, where [n] is the
    number of opportunities given whose score is at least [minScore]: none
    when no score reaches [minScore], and all those that reach it, in some
    order, when they are at most [maxTotal]. *)
Theorem decide_total (opportunities : list ContentOpportunity)
    (maxTotal : Z) (w : BucketWeights) (q : Q) :
  0 ≤ maxTotal →
  (∃ b, ¬ (weight w b == 0)%Q) →
  let out := Agent.decide opportunities (configOf maxTotal w q) in
  let reaching := filter (λ o, (q <= score o)%Q) opportunities in
  Z.of_nat (length out) = Z.min maxTotal (Z.of_nat (length reaching)) ∧
  (reaching = [] → out = []) ∧
  (Z.of_nat (length reaching) ≤ maxTotal → out ≡ₚ reaching).
Proof.
  intros Hmax _. simpl. unfold configOf.
  set (cfg := {| maxArticles := maxTotal; bucketWeights := w; minScore := q |}).
  pose proof (decide_length opportunities cfg) as Hlen.
  pose proof (decide_submseteq opportunities cfg) as Hsub.
  simpl in Hlen, Hsub. unfold admitted, viableOf in Hlen, Hsub. split_and!.
  - lia.
  - intros Hnil. rewrite Hnil in Hlen. simpl in Hlen.
    apply length_zero_iff_nil. lia.
  - intros Hfew. apply submseteq_length_Permutation; [done | lia].
Qed.

(** Of the seven opportunities of [pool], three score at least 0.85. *)
Lemma decide_total_witness :
  Z.of_nat (length (Agent.decide pool (configOf 10 defaultWeights 0.85))) = 3 ∧
  Z.of_nat (length (Agent.decide pool (configOf 2 defaultWeights 0.85))) = 2 ∧
  Agent.decide pool (configOf 10 defaultWeights 0.85) ≡ₚ
    [opp "e1" educational 0.9; opp "t1" topical 0.9; opp "a1" affiliate 0.9] ∧
  Agent.decide pool (configOf 10 defaultWeights 0.95) = [].
Proof.
  assert (Hw : ∃ b, ¬ (weight defaultWeights b == 0)%Q)
    by (exists educational; done).
  split_and!.
  - pose proof (decide_total pool 10 defaultWeights 0.85 ltac:(lia) Hw)
      as [H _].
    exact H.
  - pose proof (decide_total pool 2 defaultWeights 0.85 ltac:(lia) Hw)
      as [H _].
    exact H.
  - pose proof (decide_total pool 10 defaultWeights 0.85 ltac:(lia) Hw)
      as (_ & _ & H).
    apply H. vm_compute. discriminate.
  - pose proof (decide_total pool 10 defaultWeights 0.95 ltac:(lia) Hw)
      as (_ & H & _).
    apply H. reflexivity.
Defined.

(** The count relies on the elements of the array being distinct objects,
    which is what [analyze] hands over.  Were one object listed twice,
    [includes] would drop both occurrences from the second pass once the
    first pass has taken one. *)
Example decideObjs_same_object_twice :
  length (decideObjs [(0%nat, opp "e1" educational 0.9);
                      (0%nat, opp "e1" educational 0.9)]
            (configOf 2 defaultWeights 0.3)) = 1%nat.
Proof. reflexivity. Qed.

(** ** Quota monotonicity *)

Lemma Math_round_mono (x y : Q) : (x <= y)%Q → Math_round x ≤ Math_round y.
Proof.
  intros Hxy. unfold Math_round. apply Qfloor_resp_le.
  by apply Qplus_le_l.
Qed.

Lemma targetCounts_mono (maxTotal maxTotal' : Z) (w : BucketWeights)
    (b : Bucket) :
  maxTotal ≤ maxTotal' → (0 <= weight w b)%Q →
  targetCounts maxTotal w b ≤ targetCounts maxTotal' w b.
Proof.
  intros Hle Hw. unfold targetCounts.
  apply Z.max_le_compat_l, Math_round_mono, Qmult_le_compat_r; [| done].
  by rewrite <- Zle_Qle.
Qed.

(** C3, as the specification states it, fails on the code.  With the default
    weights and the sample pool, the limit 4 selects one affiliate
    opportunity and leaves another one unselected; the limit 5 selects none:
    the targets of the two buckets that come first grow to 3 and 2 and use up
    the whole limit before the affiliate bucket is reached. *)
Lemma quota_not_monotone_per_bucket :
  ¬ (∀ (opportunities : list ContentOpportunity) (w : BucketWeights) (q : Q)
       (maxTotal maxTotal' : Z) (b : Bucket),
       maxTotal ≤ maxTotal' →
       (countBucket b (Agent.decide opportunities (configOf maxTotal w q)) <
          countBucket b (admitted opportunities q))%nat →
       (countBucket b (Agent.decide opportunities (configOf maxTotal w q)) ≤
          countBucket b (Agent.decide opportunities (configOf maxTotal' w q)))%nat).
Proof.
  intros H.
  specialize (H pool defaultWeights 0.3%Q 4 5 affiliate).
  vm_compute in H.
  assert (Hle : (1 <= 0)%nat); [apply H | inversion Hle].
  - discriminate.
  - constructor.
Qed.

Example under_limit_4 :
  slug <$> Agent.decide pool (configOf 4 defaultWeights 0.3) =
    ["e1"; "e2"; "t1"; "a1"].
Proof. reflexivity. Qed.

Example under_limit_5 :
  slug <$> Agent.decide pool (configOf 5 defaultWeights 0.3) =
    ["e1"; "e2"; "e3"; "t1"; "t2"].
Proof. reflexivity. Qed.

(** C3 (amended).  For fixed opportunities, non-negative weights and minimum
    score, raising the limit never lowers the total number selected nor any
    bucket's target count. *)
Theorem quota_monotone (opportunities : list ContentOpportunity)
    (w : BucketWeights) (q : Q) (maxTotal maxTotal' : Z) :
  maxTotal ≤ maxTotal' →
  (∀ b, 0 <= weight w b)%Q →
  (length (Agent.decide opportunities (configOf maxTotal w q)) ≤
     length (Agent.decide opportunities (configOf maxTotal' w q)))%nat ∧
  ∀ b, targetCounts maxTotal w b ≤ targetCounts maxTotal' w b.
Proof.
  intros Hle Hw. split.
  - unfold configOf.
    pose proof (decide_length opportunities
      {| maxArticles := maxTotal; bucketWeights := w; minScore := q |}) as H1.
    pose proof (decide_length opportunities
      {| maxArticles := maxTotal'; bucketWeights := w; minScore := q |}) as H2.
    simpl in H1, H2. lia.
  - intros b. by apply targetCounts_mono.
Qed.

Lemma quota_monotone_witness :
  (length (Agent.decide pool (configOf 4 defaultWeights 0.3)) ≤
     length (Agent.decide pool (configOf 5 defaultWeights 0.3)))%nat ∧
  ∀ b, targetCounts 4 defaultWeights b ≤ targetCounts 5 defaultWeights b.
Proof.
  apply (quota_monotone pool defaultWeights 0.3 4 5); [lia |].
  intros []; vm_compute; discriminate.
Defined.

(** ** The default configuration: limit 3, weights 0.5 / 0.35 / 0.15 *)

(** What the first pass selects, as values. *)
Definition phaseA (opportunities : list ContentOpportunity)
    (config : PartialConfig) : list ContentOpportunity :=
  let cfg := mergeConfig config in
  (firstPass cfg (viableOf snd (minScore cfg) (allocRefs opportunities))).1.*2.

Lemma default_targets :
  targetCounts 3 defaultWeights educational = 2 ∧
  targetCounts 3 defaultWeights topical = 1 ∧
  targetCounts 3 defaultWeights affiliate = 0.
Proof. by vm_compute. Qed.

(** C5, as the specification states it, fails on the code: the affiliate
    target is [max 0 (round (3 * 0.15)) = round 0.45 = 0], not 1. *)
Lemma default_targets_not_2_1_1 :
  ¬ (targetCounts 3 defaultWeights educational = 2 ∧
     targetCounts 3 defaultWeights topical = 1 ∧
     targetCounts 3 defaultWeights affiliate = 1).
Proof. intros (_ & _ & H). vm_compute in H. discriminate H. Qed.

Lemma countBucket_admitted (opportunities : list ContentOpportunity) (q : Q)
    (b : Bucket) :
  countBucket b (admitted opportunities q) =
    length (filter (λ o : Obj, bucket o.2 = b)
              (viableOf snd q (allocRefs opportunities))).
Proof. by rewrite <- viableOf_allocRefs, countBucket_snd. Qed.

Lemma Forall_bucket_snd (P : Bucket → Prop) (l : list Obj) :
  (∀ o, o ∈ l → P (bucket o.2)) → Forall (λ o, P (bucket o)) l.*2.
Proof.
  intros H. apply Forall_forall. intros o (x & -> & Hx)%list_elem_of_fmap.
  by apply H.
Qed.

(** C5 (amended).  With limit 3 and the default weights the targets are 2
    (educational), 1 (topical) and 0 (affiliate).  Given at least two
    admitted educational and one admitted topical opportunity, the first pass
    selects two educational and one topical and no affiliate opportunity, and
    that is what [decide] returns: the limit is reached, and the second pass
    adds nothing. *)
Theorem default_allocation (opportunities : list ContentOpportunity) (q : Q) :
  (2 ≤ countBucket educational (admitted opportunities q))%nat →
  (1 ≤ countBucket topical (admitted opportunities q))%nat →
  (targetCounts 3 defaultWeights educational = 2 ∧
   targetCounts 3 defaultWeights topical = 1 ∧
   targetCounts 3 defaultWeights affiliate = 0) ∧
  (countBucket educational (phaseA opportunities (configOf 3 defaultWeights q)) = 2 ∧
   countBucket topical (phaseA opportunities (configOf 3 defaultWeights q)) = 1 ∧
   countBucket affiliate (phaseA opportunities (configOf 3 defaultWeights q)) = 0)%nat ∧
  Agent.decide opportunities (configOf 3 defaultWeights q) =
    phaseA opportunities (configOf 3 defaultWeights q).
Proof.
  intros HE HT. split; [exact default_targets |].
  rewrite !countBucket_admitted in *.
  unfold phaseA, Agent.decide, decideObjs, configOf.
  rewrite mergeConfig_full. simpl.
  set (cfg := {| maxArticles := 3; bucketWeights := defaultWeights;
                 minScore := q |}).
  set (viable := viableOf snd q (allocRefs opportunities)) in *.
  assert (H1 : length (taken1 cfg viable) = 2%nat).
  { unfold taken1. rewrite length_take, bucketOpps_length.
    unfold quota, cfg. cbn [maxArticles bucketWeights].
    destruct default_targets as (-> & _ & _). lia. }
  assert (H2 : length (taken2 cfg viable) = 1%nat).
  { unfold taken2. rewrite length_take, bucketOpps_length, H1.
    unfold quota, cfg. cbn [maxArticles bucketWeights].
    destruct default_targets as (_ & -> & _). lia. }
  assert (H3 : length (taken3 cfg viable) = 0%nat).
  { unfold taken3. rewrite length_take.
    unfold quota, cfg. cbn [maxArticles bucketWeights].
    destruct default_targets as (_ & _ & ->). lia. }
  assert (Hlen : length (firstPass cfg viable).1 = 3%nat).
  { rewrite firstPass_taken, !length_app. lia. }
  assert (HE1 := λ P, Forall_bucket_snd P (taken1 cfg viable)).
  assert (HT2 := λ P, Forall_bucket_snd P (taken2 cfg viable)).
  assert (HA3 := λ P, Forall_bucket_snd P (taken3 cfg viable)).
  split.
  - rewrite firstPass_taken, !fmap_app, !countBucket_app.
    rewrite (countBucket_all educational (taken1 cfg viable).*2), length_fmap, H1
      by (apply (HE1 (λ b, b = educational));
          intros o [-> _]%elem_of_taken1; done).
    rewrite (countBucket_none educational (taken2 cfg viable).*2)
      by (apply (HT2 (λ b, b ≠ educational));
          intros o [-> _]%elem_of_taken2; done).
    rewrite (countBucket_none educational (taken3 cfg viable).*2)
      by (apply (HA3 (λ b, b ≠ educational));
          intros o [-> _]%elem_of_taken3; done).
    rewrite (countBucket_none topical (taken1 cfg viable).*2)
      by (apply (HE1 (λ b, b ≠ topical));
          intros o [-> _]%elem_of_taken1; done).
    rewrite (countBucket_all topical (taken2 cfg viable).*2), length_fmap, H2
      by (apply (HT2 (λ b, b = topical));
          intros o [-> _]%elem_of_taken2; done).
    rewrite (countBucket_none topical (taken3 cfg viable).*2)
      by (apply (HA3 (λ b, b ≠ topical));
          intros o [-> _]%elem_of_taken3; done).
    rewrite (countBucket_none affiliate (taken1 cfg viable).*2)
      by (apply (HE1 (λ b, b ≠ affiliate));
          intros o [-> _]%elem_of_taken1; done).
    rewrite (countBucket_none affiliate (taken2 cfg viable).*2)
      by (apply (HT2 (λ b, b ≠ affiliate));
          intros o [-> _]%elem_of_taken2; done).
    rewrite (countBucket_all affiliate (taken3 cfg viable).*2), length_fmap, H3
      by (apply (HA3 (λ b, b = affiliate));
          intros o [-> _]%elem_of_taken3; done).
    done.
  - assert (Hsp : secondPass cfg viable (firstPass cfg viable).1 =
                  (firstPass cfg viable).1).
    { unfold secondPass.
      destruct (decide _) as [Hlt|]; [| done].
      rewrite Hlen in Hlt. unfold cfg in Hlt. simpl in Hlt. lia. }
    clearbody viable. destruct viable as [|o l].
    { simpl in HE. lia. }
    by rewrite Hsp.
Qed.

Lemma default_allocation_witness :
  (countBucket educational (phaseA pool (configOf 3 defaultWeights 0.3)) = 2 ∧
   countBucket topical (phaseA pool (configOf 3 defaultWeights 0.3)) = 1 ∧
   countBucket affiliate (phaseA pool (configOf 3 defaultWeights 0.3)) = 0)%nat ∧
  Agent.decide pool (configOf 3 defaultWeights 0.3) =
    phaseA pool (configOf 3 defaultWeights 0.3).
Proof.
  apply (default_allocation pool 0.3); vm_compute; lia.
Defined.

(** ** Running effectful code *)

Lemma bind_run {A B} (m : IO A) (f : A → IO B) (w : World) :
  (m ≫= f) w =
    match m w with
    | (Ok a, w') => f a w'
    | (Thrown e, w') => (Thrown e, w')
    end.
Proof. reflexivity. Qed.

Lemma bind_Ok {A B} (m : IO A) (f : A → IO B) (w w' : World) (a : A) :
  m w = (Ok a, w') → (m ≫= f) w = f a w'.
Proof. intros H. by rewrite bind_run, H. Qed.

Lemma bind_Thrown {A B} (m : IO A) (f : A → IO B) (w w' : World) (e : string) :
  m w = (Thrown e, w') → (m ≫= f) w = (Thrown e, w').
Proof. intros H. by rewrite bind_run, H. Qed.

(** Runs the binds, returns and throws at the head of a goal. *)
Ltac io :=
  repeat first [ rewrite bind_run
               | progress unfold mret, IO_ret, throw
               | progress cbn beta iota zeta ].

(** ** Paths and directories *)

Lemma hasSlash_app (s t : string) :
  hasSlash (s +:+ t) = hasSlash s || hasSlash t.
Proof.
  induction s as [|c s IH]; [done |].
  change (String c s +:+ t) with (String c (s +:+ t)). simpl.
  by destruct (decide (c = "/"%char)).
Qed.

Lemma dirname_None (s : string) : dirname s = None ↔ hasSlash s = false.
Proof.
  induction s as [|c s IH]; [done |]. simpl.
  destruct (dirname s) as [d|], (decide (c = "/"%char)); simpl;
    split; try done; intros H; by apply IH in H.
Qed.

(** A file whose name has no [/] is in the directory written before it. *)
Lemma dirname_file (dir name : string) :
  hasSlash name = false → dirname (dir +:+ "/" +:+ name) = Some dir.
Proof.
  intros Hname. induction dir as [|c dir IH].
  - change ("" +:+ "/" +:+ name) with (String "/" name). simpl.
    apply dirname_None in Hname. by rewrite Hname.
  - change (String c dir +:+ "/" +:+ name)
      with (String c (dir +:+ "/" +:+ name)).
    simpl. by rewrite IH.
Qed.

Lemma madeBy_self (dir : string) (D : gset string) :
  dir ∈ D ∪ list_to_set (madeBy dir).
Proof. unfold madeBy. set_solver. Qed.

Lemma parentExists_mono (w w' : World) (path : string) :
  dirs w ⊆ dirs w' → parentExists w path = true → parentExists w' path = true.
Proof.
  unfold parentExists. intros Hsub.
  destruct (dirname path) as [d|]; [| done].
  destruct (decide (d = "")); [done |].
  rewrite !bool_decide_eq_true. apply Hsub.
Qed.

Lemma parentExists_dirs (w w' : World) (path : string) :
  dirs w = dirs w' → parentExists w path = parentExists w' path.
Proof. unfold parentExists. by intros ->. Qed.

Lemma writeFileSync_run (path dir : string) (data : FileData) (w : World) :
  dirname path = Some dir → dir ∈ dirs w →
  writeFileSync path data w =
    (Ok (), {| files := <[path := data]> (files w); dirs := dirs w;
               clock := clock w;
               trace := trace w ++ [EvWriteFile path data] |}).
Proof.
  intros Hdir Hin. unfold writeFileSync, parentExists. rewrite Hdir.
  destruct (decide (dir = "")); [done |].
  by rewrite bool_decide_eq_true_2.
Qed.

(** [mkdirSync] of the directory, then the write of a file in it. *)
Lemma mkdir_write_run (dir path : string) (data : FileData) (w : World) :
  dirname path = Some dir →
  (mkdirSync dir ;; writeFileSync path data) w =
    (Ok (), {| files := <[path := data]> (files w);
               dirs := dirs w ∪ list_to_set (madeBy dir);
               clock := clock w;
               trace := trace w ++ [EvMkdir dir; EvWriteFile path data] |}).
Proof.
  intros Hdir. rewrite bind_run. unfold mkdirSync.
  rewrite (writeFileSync_run path dir) by (done || apply madeBy_self).
  cbn [files dirs clock trace]. by rewrite <- app_assoc.
Qed.

(** ** The ledger update *)

(** The inventory [updateInventory] starts from: what the file parses to, or
    nothing when the file is missing or does not parse. *)
Definition storedInventory (w : World) : list Item.t :=
  match files w !! inventoryPath with
  | Some (InventoryJson items) => items
  | _ => []
  end.

(** The inventory file is missing, is an incomplete write, or holds an array
    of inventory entries. *)
Definition inventoryLoads (w : World) : Prop :=
  match files w !! inventoryPath with
  | None | Some Torn | Some (InventoryJson _) => True
  | _ => False
  end.

(** The inventory file holds a JSON value that is not an array. *)
Definition inventoryIsObject (w : World) : Prop :=
  match files w !! inventoryPath with
  | Some (ConfigJson _) => True
  | _ => False
  end.

#[global] Instance inventoryIsObject_dec (w : World) :
  Decision (inventoryIsObject w).
Proof.
  unfold inventoryIsObject.
  destruct (files w !! inventoryPath) as [[]|]; apply _.
Defined.

Lemma inventoryLoads_array (w : World) :
  inventoryLoads w → ¬ inventoryIsObject w.
Proof.
  unfold inventoryLoads, inventoryIsObject.
  destruct (files w !! inventoryPath) as [[]|]; tauto.
Qed.

Section ledger.
Context (env : Env).

(** The loop of [updateInventory] without the world: [n] is the number of
    the next clock reading. *)
Fixpoint pushed (articles : list Draft.t) (inventory : list Item.t) (n : nat)
  : list Item.t :=
  match articles with
  | [] => inventory
  | article :: rest =>
      if hasSlug inventory (Draft.slug article)
      then pushed rest inventory n
      else pushed rest
             (inventory ++ [newItem article (toISOString env n)]) (S n)
  end.

Lemma pushArticles_run (articles : list Draft.t) (inventory : list Item.t)
    (w : World) :
  ∃ n, pushArticles env articles inventory w =
         (Ok (pushed articles inventory (clock w)),
          {| files := files w; dirs := dirs w; clock := n;
             trace := trace w |}).
Proof.
  revert inventory w.
  induction articles as [|a rest IH]; intros inventory w; simpl.
  - exists (clock w). by destruct w.
  - destruct (hasSlug inventory (Draft.slug a)); [apply IH |].
    unfold mbind, IO_bind, readClock. simpl.
    destruct (IH (inventory ++ [newItem a (toISOString env (clock w))])
                {| files := files w; dirs := dirs w; clock := S (clock w);
                   trace := trace w |}) as [n ->].
    by exists n.
Qed.

Lemma hasSlug_true (inventory : list Item.t) (s : string) :
  hasSlug inventory s = true ↔ s ∈ Item.slug <$> inventory.
Proof. unfold hasSlug. apply bool_decide_eq_true. Qed.

Lemma hasSlug_false (inventory : list Item.t) (s : string) :
  hasSlug inventory s = false ↔ s ∉ Item.slug <$> inventory.
Proof. unfold hasSlug. apply bool_decide_eq_false. Qed.

(** Entries are only appended, each for a slug the inventory did not hold. *)
Lemma pushed_appends (articles : list Draft.t) (inventory : list Item.t)
    (n : nat) :
  ∃ added, pushed articles inventory n = inventory ++ added ∧
    Forall (λ it, (Item.slug it ∉ Item.slug <$> inventory) ∧
                  (∃ a t, a ∈ articles ∧ it = newItem a t)) added.
Proof.
  revert inventory n.
  induction articles as [|a rest IH]; intros inventory n; simpl.
  - exists []. by rewrite app_nil_r.
  - destruct (hasSlug inventory (Draft.slug a)) eqn:Hs.
    + destruct (IH inventory n) as (added & -> & Hall).
      exists added. split; [done |].
      eapply Forall_impl; [exact Hall |]. simpl.
      intros it (? & b & t & Hb & ->). split; [done |].
      exists b, t. split; [by apply elem_of_cons; right | done].
    + apply hasSlug_false in Hs.
      destruct (IH (inventory ++ [newItem a (toISOString env n)]) (S n))
        as (added & -> & Hall).
      exists (newItem a (toISOString env n) :: added).
      rewrite <- app_assoc. split; [done |].
      constructor.
      * split; [done |]. exists a, (toISOString env n).
        split; [apply list_elem_of_here | done].
      * eapply Forall_impl; [exact Hall |]. simpl.
        intros it (Hit & b & t & Hb & ->). split.
        -- intros Hin. apply Hit. rewrite fmap_app. apply elem_of_app. by left.
        -- exists b, t. split; [by apply elem_of_cons; right | done].
Qed.

Lemma pushed_NoDup (articles : list Draft.t) (inventory : list Item.t)
    (n : nat) :
  NoDup (Item.slug <$> inventory) →
  NoDup (Item.slug <$> pushed articles inventory n).
Proof.
  revert inventory n.
  induction articles as [|a rest IH]; intros inventory n Hnd; simpl; [done |].
  destruct (hasSlug inventory (Draft.slug a)) eqn:Hs; [by apply IH |].
  apply hasSlug_false in Hs. apply IH.
  rewrite fmap_app. apply NoDup_app. split_and!; [done | | ].
  - simpl. intros s Hin ->%list_elem_of_singleton. by apply Hs.
  - simpl. apply NoDup_singleton.
Qed.

Lemma pushed_keeps (articles : list Draft.t) (inventory : list Item.t)
    (n : nat) (s : string) :
  s ∈ Item.slug <$> inventory → s ∈ Item.slug <$> pushed articles inventory n.
Proof.
  intros Hs. destruct (pushed_appends articles inventory n) as (added & -> & _).
  rewrite fmap_app. apply elem_of_app. by left.
Qed.

(** Every article of the batch is covered by the inventory written. *)
Lemma pushed_covers (articles : list Draft.t) (inventory : list Item.t)
    (n : nat) (a : Draft.t) :
  a ∈ articles → Draft.slug a ∈ Item.slug <$> pushed articles inventory n.
Proof.
  revert inventory n.
  induction articles as [|b rest IH]; intros inventory n; simpl;
    [by intros ?%elem_of_nil |].
  intros [->|Ha]%elem_of_cons.
  - destruct (hasSlug inventory (Draft.slug b)) eqn:Hs.
    + apply pushed_keeps. by apply hasSlug_true.
    + apply pushed_keeps. rewrite fmap_app. apply elem_of_app. right.
      apply list_elem_of_singleton. done.
  - destruct (hasSlug inventory (Draft.slug b)); by apply IH.
Qed.

(** A slug the inventory holds gets no further entry. *)
Lemma pushed_filter_present (articles : list Draft.t)
    (inventory : list Item.t) (n : nat) (s : string) :
  s ∈ Item.slug <$> inventory →
  filter (λ it, Item.slug it = s) (pushed articles inventory n) =
  filter (λ it, Item.slug it = s) inventory.
Proof.
  revert inventory n.
  induction articles as [|b rest IH]; intros inventory n Hs; simpl; [done |].
  destruct (hasSlug inventory (Draft.slug b)) eqn:Hb; [by apply IH |].
  apply hasSlug_false in Hb.
  rewrite IH by (rewrite fmap_app; apply elem_of_app; by left).
  rewrite filter_app, filter_cons_False, filter_nil, app_nil_r; [done |].
  simpl. intros Heq. apply Hb. by rewrite Heq.
Qed.

Lemma filter_slug_absent (inventory : list Item.t) (s : string) :
  s ∉ Item.slug <$> inventory → filter (λ it, Item.slug it = s) inventory = [].
Proof.
  intros Hs. induction inventory as [|it l IH]; [done |].
  rewrite fmap_cons in Hs. apply not_elem_of_cons in Hs as [Hne Hs].
  rewrite filter_cons_False by done. by apply IH.
Qed.

(** The first article of the batch with a slug the inventory does not hold
    yet provides the one entry for that slug. *)
Lemma pushed_first_wins (pre post : list Draft.t) (a : Draft.t)
    (inventory : list Item.t) (n : nat) :
  Forall (λ b, Draft.slug b ≠ Draft.slug a) pre →
  Draft.slug a ∉ Item.slug <$> inventory →
  ∃ t, filter (λ it, Item.slug it = Draft.slug a)
         (pushed (pre ++ a :: post) inventory n) = [newItem a t].
Proof.
  intros Hpre. revert inventory n.
  induction Hpre as [|b pre Hb _ IH]; intros inventory n Hs; simpl.
  - apply hasSlug_false in Hs as Hs'. rewrite Hs'.
    exists (toISOString env n).
    rewrite pushed_filter_present.
    + rewrite filter_app, filter_slug_absent by done.
      by rewrite filter_cons_True.
    + rewrite fmap_app. apply elem_of_app. right.
      by apply list_elem_of_singleton.
  - destruct (hasSlug inventory (Draft.slug b)) eqn:Hb'; [by apply IH |].
    apply IH. rewrite fmap_app. simpl.
    intros [?|?%list_elem_of_singleton]%elem_of_app; [by apply Hs | ].
    by apply Hb.
Qed.

(** What [updateInventory] reads: the array the file holds, or the value
    that is not an array. *)
Lemma readInventory_run {B} (k : Parsed Item.t → IO B) (w : World) :
  (present ← existsSync inventoryPath;
   (if present : bool
    then tryCatch (readFileSync inventoryPath ≫= parseInventory)
                  (λ _, mret (IsArray []))
    else mret (IsArray [])) ≫= k) w =
  k (match files w !! inventoryPath with
     | Some (ConfigJson c) => NotArray (ConfigJson c)
     | _ => IsArray (storedInventory w)
     end) w.
Proof.
  unfold storedInventory, existsSync, tryCatch, readFileSync, parseInventory,
    throw.
  unfold mbind, IO_bind, mret, IO_ret.
  destruct (files w !! inventoryPath) as [[]|] eqn:Hf; simpl;
    rewrite ?Hf; simpl; reflexivity.
Qed.

(** What [updateInventory] does to the world when the file does not hold a
    value of another kind. *)
Lemma updateInventory_run (articles : list Draft.t) (w : World) :
  ¬ inventoryIsObject w →
  let inventory' := pushed articles (storedInventory w) (clock w) in
  ∃ n, updateInventory env articles w =
    (Ok (),
     {| files := <[inventoryPath := InventoryJson inventory']> (files w);
        dirs := dirs w ∪ list_to_set (madeBy "data");
        clock := n;
        trace := trace w ++ [EvMkdir "data";
                             EvWriteFile inventoryPath
                               (InventoryJson inventory')] |}).
Proof.
  intros Hobj. simpl. unfold updateInventory. rewrite readInventory_run.
  assert (Harr : match files w !! inventoryPath with
                 | Some (ConfigJson c) => NotArray (ConfigJson c)
                 | _ => IsArray (storedInventory w)
                 end = IsArray (storedInventory w)).
  { unfold inventoryIsObject in Hobj.
    by destruct (files w !! inventoryPath) as [[]|]. }
  rewrite Harr. rewrite bind_run.
  destruct (pushArticles_run articles (storedInventory w) w) as [n ->].
  exists n. by rewrite (mkdir_write_run "data").
Qed.

(** With a value that is not an array in the file, [updateInventory] throws
    at the first article and leaves the world as it was. *)
Lemma updateInventory_object (a : Draft.t) (rest : list Draft.t) (w : World) :
  inventoryIsObject w →
  updateInventory env (a :: rest) w = (Thrown "TypeError", w).
Proof.
  unfold inventoryIsObject, updateInventory. intros Hobj.
  rewrite readInventory_run.
  by destruct (files w !! inventoryPath) as [[]|].
Qed.

(** In no case does [updateInventory] replace a value that is not an
    array. *)
Lemma updateInventory_object_kept (articles : list Draft.t) (w : World) :
  inventoryIsObject w →
  inventoryIsObject (updateInventory env articles w).2.
Proof.
  intros Hobj. destruct articles as [|a rest].
  - unfold inventoryIsObject in *. unfold updateInventory.
    rewrite readInventory_run.
    destruct (files w !! inventoryPath) as [[]|] eqn:Hf; try done.
    rewrite (mkdir_write_run "data") by done.
    cbn [snd files]. by rewrite lookup_insert_eq.
  - by rewrite updateInventory_object.
Qed.
End ledger.

(** ** Sample worlds used by the closed examples *)

Definition sampleEnv : Env := {|
  toISOString := λ _, "2026-01-01T00:00:00.000Z";
  millis := λ _, "1767225600000";
  elapsed := 1.5;
  fetchKalshiMarkets := [];
  fetchPolymarketMarkets := [];
  fetchTrendingTopics := [];
  recommendations := pool;
  generate := λ a,
    if decide (slug a = "e2") then None else Some ("# " +:+ title a, 2);
  inCI := false;
  gitSucceeds := true;
  githubToken := false;
  pullRequestUrl := None;
  slackWebhook := false;
|}.

Definition draft (s ttl : string) : Draft.t := {|
  Draft.slug := s; Draft.bucket := "educational"; Draft.category := "learn";
  Draft.content := "# " +:+ ttl; Draft.title := ttl;
  Draft.targetKeyword := s; Draft.wordCount := 2;
|}.

Definition emptyWorld : World :=
  {| files := ∅; dirs := ∅; clock := 0; trace := [] |}.

Definition worldWith (inventory : list Item.t) : World := {|
  files := {[ inventoryPath := InventoryJson inventory ]};
  dirs := {[ "data" ]};
  clock := 0;
  trace := [];
|}.

Definition oldItem (s : string) : Item.t :=
  newItem (draft s "Published earlier") "2025-06-01T00:00:00.000Z".

(** ** The ledger keeps its slugs unique *)

Lemma storedInventory_updateInventory (env : Env) (articles : list Draft.t)
    (w : World) :
  ¬ inventoryIsObject w →
  storedInventory (worldAfter (updateInventory env articles) w) =
    pushed env articles (storedInventory w) (clock w).
Proof.
  intros Hobj. unfold worldAfter.
  destruct (updateInventory_run env articles w Hobj) as [n ->].
  unfold storedInventory at 1. simpl. by rewrite lookup_insert_eq.
Qed.

(** C7.  When the stored inventory has pairwise distinct slugs, so has the
    inventory after [updateInventory]; the stored entries are kept, unchanged
    and in place, in front of the added ones; no added entry carries a slug
    that was stored, so an article with a stored slug adds nothing. *)
Theorem updateInventory_unique (env : Env) (articles : list Draft.t)
    (w : World) (inventory : list Item.t) :
  files w !! inventoryPath = Some (InventoryJson inventory) →
  NoDup (Item.slug <$> inventory) →
  let inventory' :=
    storedInventory (worldAfter (updateInventory env articles) w) in
  NoDup (Item.slug <$> inventory') ∧
  (∃ added, inventory' = inventory ++ added ∧
     Forall (λ it, Item.slug it ∉ Item.slug <$> inventory) added) ∧
  (∀ a, a ∈ articles → Draft.slug a ∈ Item.slug <$> inventory →
     filter (λ it, Item.slug it = Draft.slug a) inventory' =
     filter (λ it, Item.slug it = Draft.slug a) inventory).
Proof.
  intros Hfile Hnd. simpl.
  rewrite storedInventory_updateInventory
    by (unfold inventoryIsObject; rewrite Hfile; tauto).
  assert (Hstored : storedInventory w = inventory)
    by (unfold storedInventory; by rewrite Hfile).
  rewrite Hstored. split_and!.
  - by apply pushed_NoDup.
  - destruct (pushed_appends env articles inventory (clock w))
      as (added & -> & Hall).
    exists added. split; [done |].
    eapply Forall_impl; [exact Hall |]. by intros it [? _].
  - intros a _ Ha. by apply pushed_filter_present.
Qed.

Lemma updateInventory_unique_witness :
  let inventory := [oldItem "what-is-a-prediction-market"] in
  let articles := [draft "what-is-a-prediction-market" "Again";
                   draft "kalshi-review" "Kalshi review"] in
  let inventory' :=
    storedInventory
      (worldAfter (updateInventory sampleEnv articles) (worldWith inventory)) in
  NoDup (Item.slug <$> inventory') ∧
  ∃ added, inventory' = inventory ++ added ∧
     Forall (λ it, Item.slug it ∉ Item.slug <$> inventory) added.
Proof.
  simpl.
  destruct (updateInventory_unique sampleEnv
              [draft "what-is-a-prediction-market" "Again";
               draft "kalshi-review" "Kalshi review"]
              (worldWith [oldItem "what-is-a-prediction-market"])
              [oldItem "what-is-a-prediction-market"])
    as (H1 & H2 & _).
  - reflexivity.
  - simpl. apply NoDup_singleton.
  - split; [exact H1 | exact H2].
Defined.

Example updateInventory_sample :
  Item.slug <$> storedInventory
    (worldAfter
       (updateInventory sampleEnv
          [draft "what-is-a-prediction-market" "Again";
           draft "kalshi-review" "Kalshi review";
           draft "kalshi-review" "Kalshi review, second draft"])
       (worldWith [oldItem "what-is-a-prediction-market"])) =
  ["what-is-a-prediction-market"; "kalshi-review"].
Proof. vm_compute. reflexivity. Qed.

(** ** Two articles with one slug in a batch *)

(** The entries [updateInventory] adds to the stored inventory. *)
Definition addedBy (env : Env) (articles : list Draft.t) (w : World)
  : list Item.t :=
  drop (length (storedInventory w))
    (storedInventory (worldAfter (updateInventory env articles) w)).

Lemma addedBy_spec (env : Env) (articles : list Draft.t) (w : World) :
  ¬ inventoryIsObject w →
  storedInventory (worldAfter (updateInventory env articles) w) =
    storedInventory w ++ addedBy env articles w.
Proof.
  intros Hobj. unfold addedBy. rewrite storedInventory_updateInventory by done.
  destruct (pushed_appends env articles (storedInventory w) (clock w))
    as (added & -> & _).
  by rewrite drop_app_length.
Qed.

(** C10, as stated, fails on the code when the stored inventory already
    holds the slug: then neither of the two articles adds an entry. *)
Lemma duplicate_of_stored_slug_adds_nothing :
  ¬ (∀ (env : Env) (w : World) (a b : Draft.t) (post : list Draft.t),
       Draft.slug b = Draft.slug a →
       ∃ t, filter (λ it, Item.slug it = Draft.slug a)
              (addedBy env (a :: b :: post) w) = [newItem a t]).
Proof.
  intros H.
  destruct (H sampleEnv (worldWith [oldItem "kalshi-review"])
              (draft "kalshi-review" "Kalshi review")
              (draft "kalshi-review" "Kalshi review, second draft") []
              eq_refl) as [t Ht].
  vm_compute in Ht. discriminate Ht.
Qed.

(** C10 (amended).  Let the inventory file be missing, incomplete or an
    array of inventory entries, and let [a] be the first article of the batch
    with its slug.  If the stored inventory does not hold that slug,
    [updateInventory] adds exactly one entry for it, built from [a] (slug,
    title, bucket, category, keyword and word count of [a], status draft);
    later articles with the same slug add nothing.  If the stored inventory
    holds the slug, no entry is added for it. *)
Theorem duplicate_in_batch_first_wins (env : Env) (w : World)
    (pre post : list Draft.t) (a : Draft.t) :
  inventoryLoads w →
  Forall (λ b, Draft.slug b ≠ Draft.slug a) pre →
  (Draft.slug a ∉ Item.slug <$> storedInventory w →
     ∃ t, filter (λ it, Item.slug it = Draft.slug a)
            (addedBy env (pre ++ a :: post) w) = [newItem a t]) ∧
  (Draft.slug a ∈ Item.slug <$> storedInventory w →
     filter (λ it, Item.slug it = Draft.slug a)
       (addedBy env (pre ++ a :: post) w) = []).
Proof.
  intros Hw%inventoryLoads_array Hpre.
  pose proof (addedBy_spec env (pre ++ a :: post) w Hw) as Hspec.
  rewrite storedInventory_updateInventory in Hspec by done.
  split; intros Hs.
  - destruct (pushed_first_wins env pre post a (storedInventory w) (clock w)
                Hpre Hs) as [t Ht].
    exists t. rewrite Hspec, filter_app, filter_slug_absent in Ht by done.
    exact Ht.
  - pose proof (pushed_filter_present env (pre ++ a :: post)
                  (storedInventory w) (clock w) (Draft.slug a) Hs) as Hf.
    rewrite Hspec, filter_app in Hf.
    apply (f_equal length) in Hf. rewrite length_app in Hf.
    apply nil_length_inv. lia.
Qed.

Lemma duplicate_in_batch_first_wins_witness :
  ∃ t, filter (λ it, Item.slug it = "kalshi-review")
         (addedBy sampleEnv
            [draft "polymarket-guide" "Polymarket guide";
             draft "kalshi-review" "Kalshi review";
             draft "kalshi-review" "Kalshi review, second draft"]
            (worldWith [oldItem "what-is-a-prediction-market"])) =
       [newItem (draft "kalshi-review" "Kalshi review") t].
Proof.
  apply (duplicate_in_batch_first_wins sampleEnv
           (worldWith [oldItem "what-is-a-prediction-market"])
           [draft "polymarket-guide" "Polymarket guide"]
           [draft "kalshi-review" "Kalshi review, second draft"]
           (draft "kalshi-review" "Kalshi review")).
  - exact I.
  - repeat constructor. discriminate.
  - replace (storedInventory _) with [oldItem "what-is-a-prediction-market"]
      by (by vm_compute).
    intros H%list_elem_of_singleton. discriminate H.
Defined.

(** ** The order of the writes of [submit] *)

Fixpoint lastChar (s : string) : option ascii :=
  match s with
  | EmptyString => None
  | String c EmptyString => Some c
  | String _ s' => lastChar s'
  end.

Lemma lastChar_app (s t : string) :
  t ≠ EmptyString → lastChar (s +:+ t) = lastChar t.
Proof.
  intros Ht. induction s as [|c s IH]; [done |].
  change (String c s +:+ t) with (String c (s +:+ t)).
  destruct (s +:+ t) as [|c' r] eqn:Hst; [| exact IH].
  destruct s as [|c' s]; [by destruct Ht | discriminate Hst].
Qed.

Lemma lastChar_contentPath (a : Draft.t) :
  lastChar (contentPath a) = Some "d"%char.
Proof.
  unfold contentPath. rewrite lastChar_app by done.
  change ("/" +:+ Draft.slug a +:+ ".md")
    with (String "/" (Draft.slug a +:+ ".md")).
  assert (Hne : Draft.slug a +:+ ".md" ≠ EmptyString)
    by (by destruct (Draft.slug a)).
  cbn [lastChar]. rewrite lastChar_app by done.
  by destruct (Draft.slug a +:+ ".md").
Qed.

(** A content file is never one of the JSON files of the data directory. *)
Lemma contentPath_not_json (a : Draft.t) (p : string) :
  lastChar p = Some "n"%char → contentPath a ≠ p.
Proof.
  intros Hp Heq. rewrite <- Heq, lastChar_contentPath in Hp. discriminate Hp.
Qed.


(** An article [writeDraft] can write in any world: its bucket is not a
    name inherited from [Object.prototype], and its slug names no
    directory. *)
Definition writable (a : Draft.t) : Prop :=
  inherited (Draft.bucket a) = false ∧ hasSlash (Draft.slug a) = false.

#[global] Instance writable_dec (a : Draft.t) : Decision (writable a).
Proof. unfold writable. apply _. Defined.

Lemma dirname_contentPath (a : Draft.t) :
  hasSlash (Draft.slug a) = false →
  dirname (contentPath a) = Some (contentDir a).
Proof.
  intros Hs. unfold contentPath. apply dirname_file.
  by rewrite hasSlash_app, Hs.
Qed.

(** The effects of [writeDraft] on one article, and on the batch. *)
Definition draftEvents (articles : list Draft.t) : list Event :=
  articles ≫= λ a, [EvMkdir (contentDir a);
                    EvWriteFile (contentPath a) (Markdown (Draft.content a))].

Definition writeAll (articles : list Draft.t) (fs : gmap string FileData)
  : gmap string FileData :=
  foldl (λ fs a, <[contentPath a := Markdown (Draft.content a)]> fs) fs articles.

Definition dirsAfter (articles : list Draft.t) (D : gset string) : gset string :=
  foldl (λ D a, D ∪ list_to_set (madeBy (contentDir a))) D articles.

(** The world after [getContentPath] has made the directory. *)
Definition withDir (a : Draft.t) (w : World) : World :=
  {| files := files w;
     dirs := dirs w ∪ list_to_set (madeBy (contentDir a));
     clock := clock w;
     trace := trace w ++ [EvMkdir (contentDir a)] |}.

(** [writeDraft], case by case. *)
Lemma writeDraft_cases (a : Draft.t) (w : World) :
  writeDraft a w =
    if inherited (Draft.bucket a) then (Thrown "TypeError", w)
    else if parentExists (withDir a w) (contentPath a)
    then (Ok (contentPath a),
          {| files := <[contentPath a := Markdown (Draft.content a)]> (files w);
             dirs := dirs w ∪ list_to_set (madeBy (contentDir a));
             clock := clock w;
             trace := trace w ++
                      [EvMkdir (contentDir a);
                       EvWriteFile (contentPath a)
                         (Markdown (Draft.content a))] |})
    else (Thrown "ENOENT", withDir a w).
Proof.
  unfold writeDraft, getContentPath.
  destruct (inherited (Draft.bucket a)); [reflexivity |].
  unfold mbind, IO_bind, mkdirSync, mret, IO_ret, writeFileSync.
  fold (withDir a w).
  destruct (parentExists (withDir a w) (contentPath a)); [| reflexivity].
  unfold withDir. cbn [files dirs clock trace]. by rewrite <- app_assoc.
Qed.

Lemma writeDraft_run (a : Draft.t) (w : World) :
  writable a →
  writeDraft a w =
    (Ok (contentPath a),
     {| files := <[contentPath a := Markdown (Draft.content a)]> (files w);
        dirs := dirs w ∪ list_to_set (madeBy (contentDir a));
        clock := clock w;
        trace := trace w ++
                 [EvMkdir (contentDir a);
                  EvWriteFile (contentPath a) (Markdown (Draft.content a))] |}).
Proof.
  intros [Hb Hs]. rewrite writeDraft_cases, Hb.
  unfold parentExists. rewrite (dirname_contentPath a Hs).
  destruct (decide (contentDir a = "")); [done |].
  rewrite bool_decide_eq_true_2; [done |]. apply madeBy_self.
Qed.

Lemma writeDrafts_run (articles : list Draft.t) (w : World) :
  Forall writable articles →
  writeDrafts articles w =
    (Ok (), {| files := writeAll articles (files w);
               dirs := dirsAfter articles (dirs w);
               clock := clock w;
               trace := trace w ++ draftEvents articles |}).
Proof.
  intros Hall. revert w.
  induction Hall as [|a rest Ha _ IH]; intros w.
  - simpl. unfold mret, IO_ret, draftEvents. simpl.
    rewrite app_nil_r. by destruct w.
  - cbn [writeDrafts]. rewrite bind_run, (writeDraft_run a w Ha), IH.
    cbn [files dirs clock trace]. unfold draftEvents. simpl.
    by rewrite <- !app_assoc.
Qed.

(** In any batch and world, [writeDrafts] touches no JSON file of the data
    directory, removes no directory and does not read the clock. *)
Lemma writeDrafts_any (articles : list Draft.t) (w : World) (p : string) :
  lastChar p = Some "n"%char →
  files (writeDrafts articles w).2 !! p = files w !! p ∧
  dirs w ⊆ dirs (writeDrafts articles w).2 ∧
  clock (writeDrafts articles w).2 = clock w.
Proof.
  intros Hp. revert w. induction articles as [|a rest IH]; intros w.
  - done.
  - cbn [writeDrafts]. rewrite bind_run, writeDraft_cases.
    destruct (inherited (Draft.bucket a)); [done |].
    destruct (parentExists _ _).
    + match goal with |- context [writeDrafts rest ?w1] =>
        destruct (IH w1) as (Hf & Hd & Hc) end.
      cbn [files dirs clock] in Hf, Hd, Hc. split_and!.
      * rewrite Hf. apply lookup_insert_ne. by apply contentPath_not_json.
      * etrans; [apply union_subseteq_l | exact Hd].
      * done.
    + unfold withDir. cbn [snd files dirs clock].
      split_and!; [done | apply union_subseteq_l | done].
Qed.

(** A batch that cannot be written fails again when it is submitted again:
    the directories the failed run has made do not help. *)
Lemma writeDrafts_fails_again (articles : list Draft.t) (w w1 w2 : World)
    (e : string) :
  writeDrafts articles w = (Thrown e, w1) →
  dirs w ⊆ dirs w2 → dirs w2 ⊆ dirs w1 →
  ∃ e' w3, writeDrafts articles w2 = (Thrown e', w3).
Proof.
  revert w w2. induction articles as [|a rest IH]; intros w w2 Hrun Hlow Hup.
  - discriminate Hrun.
  - cbn [writeDrafts] in Hrun |- *.
    rewrite bind_run, writeDraft_cases in Hrun.
    rewrite bind_run, writeDraft_cases.
    destruct (inherited (Draft.bucket a)); [by eexists _, _ |].
    destruct (parentExists (withDir a w) (contentPath a)) eqn:Hp.
    + rewrite (parentExists_mono (withDir a w) (withDir a w2))
        by (done || (unfold withDir; cbn [dirs]; by apply union_mono_r)).
      match type of Hrun with writeDrafts rest ?wa = _ =>
        pose proof (proj1 (proj2 (writeDrafts_any rest wa inventoryPath
                                    eq_refl))) as Hgrow;
        rewrite Hrun in Hgrow; cbn [snd dirs] in Hgrow;
        eapply (IH wa); [exact Hrun | |]
      end; cbn [dirs].
      * by apply union_mono_r.
      * apply union_least; [exact Hup |].
        etrans; [apply union_subseteq_r | exact Hgrow].
    + injection Hrun as _ <-.
      assert (Hp2 : parentExists (withDir a w2) (contentPath a) = false).
      { destruct (parentExists (withDir a w2) (contentPath a)) eqn:Hp2;
          [| done].
        rewrite <- Hp. symmetry.
        apply (parentExists_mono (withDir a w2)); [| done].
        unfold withDir in *. cbn [dirs] in *.
        apply union_least; [| apply union_subseteq_r].
        etrans; [exact Hup | done]. }
      rewrite Hp2. by eexists _, _.
Qed.

Lemma writeAll_lookup_json (articles : list Draft.t)
    (fs : gmap string FileData) (p : string) :
  lastChar p = Some "n"%char → writeAll articles fs !! p = fs !! p.
Proof.
  intros Hp. revert fs. induction articles as [|a rest IH]; intros fs; [done |].
  simpl. rewrite IH. apply lookup_insert_ne. by apply contentPath_not_json.
Qed.


(** What follows the ledger write in [submit]: git, the pull request and the
    notification; it writes no file. *)
Definition isFileWrite (e : Event) : Prop :=
  match e with EvWriteFile _ _ => True | _ => False end.

Definition publish (env : Env) (articles : list Draft.t) : IO unit :=
  if inCI env then
    branchName ← createGitBranch env articles;
    prUrl ← createPullRequest env branchName articles;
    sendSlackNotification env articles prUrl
  else sendSlackNotification env articles "".

Lemma submit_unfold (env : Env) (articles : list Draft.t) :
  submit env articles =
    (writeDrafts articles ;; updateInventory env articles ;;
     publish env articles).
Proof. reflexivity. Qed.

(** An effect that leaves the files alone, removes no directory and only
    adds events that are not writes. *)
Definition quiet {A} (c : IO A) : Prop :=
  ∀ w, ∃ after,
    files (c w).2 = files w ∧ dirs w ⊆ dirs (c w).2 ∧
    trace (c w).2 = trace w ++ after ∧
    Forall (λ e, ¬ isFileWrite e) after.

Lemma quiet_bind {A B} (c : IO A) (k : A → IO B) :
  quiet c → (∀ a, quiet (k a)) → quiet (c ≫= k).
Proof.
  intros Hc Hk w. rewrite bind_run.
  destruct (Hc w) as (after & Hf & Hd & Ht & Hall).
  destruct (c w) as [[a|e] w1]; cbn [snd] in *.
  - destruct (Hk a w1) as (after' & Hf' & Hd' & Ht' & Hall').
    exists (after ++ after'). rewrite Hf', Ht', Hf, Ht, app_assoc.
    split_and!; [done | by etrans | done |]. by apply Forall_app.
  - by exists after.
Qed.

Lemma quiet_ret {A} (a : A) : quiet (mret a : IO A).
Proof. intros w. exists []. by rewrite app_nil_r. Qed.

Lemma quiet_throw {A} (e : string) : quiet (throw e : IO A).
Proof. intros w. exists []. by rewrite app_nil_r. Qed.

Lemma quiet_emit (e : Event) : ¬ isFileWrite e → quiet (emit e).
Proof.
  intros He w. exists [e]. split_and!; [done | done | done |]. by constructor.
Qed.

Lemma quiet_readClock : quiet readClock.
Proof. intros w. exists []. by rewrite app_nil_r. Qed.

Lemma quiet_mkdirSync (dir : string) : quiet (mkdirSync dir).
Proof.
  intros w. exists [EvMkdir dir]. split_and!; [done | | done |].
  - cbn [mkdirSync snd dirs]. set_solver.
  - constructor; [by intros [] | done].
Qed.

Lemma quiet_getContentPath (a : Draft.t) : quiet (getContentPath a).
Proof.
  unfold getContentPath. destruct (inherited _); [apply quiet_throw |].
  apply quiet_bind; [apply quiet_mkdirSync | intros; apply quiet_ret].
Qed.

Lemma quiet_listContentPaths (articles : list Draft.t) :
  quiet (listContentPaths articles).
Proof.
  induction articles as [|a rest IH]; cbn [listContentPaths].
  - apply quiet_ret.
  - apply quiet_bind; [apply quiet_getContentPath | intros p].
    apply quiet_bind; [exact IH | intros; apply quiet_ret].
Qed.

Lemma quiet_publish (env : Env) (articles : list Draft.t) :
  quiet (publish env articles).
Proof.
  assert (Hslack : ∀ url, quiet (sendSlackNotification env articles url)).
  { intros url. unfold sendSlackNotification.
    destruct (slackWebhook env); [by apply quiet_emit; intros [] |].
    apply quiet_ret. }
  unfold publish. destruct (inCI env); [| apply Hslack].
  apply quiet_bind.
  - unfold createGitBranch. apply quiet_bind; [apply quiet_readClock |].
    intros n. destruct (gitSucceeds env); [| apply quiet_throw].
    apply quiet_bind; [by apply quiet_emit; intros [] |].
    intros; apply quiet_ret.
  - intros branch. apply quiet_bind; [| apply Hslack].
    unfold createPullRequest. destruct (githubToken env); [| apply quiet_ret].
    apply quiet_bind; [apply quiet_listContentPaths |].
    intros _. apply quiet_bind; [by apply quiet_emit; intros [] |].
    intros; apply quiet_ret.
Qed.







Example submit_sample_trace :
  trace (worldAfter
           (submit sampleEnv [draft "kalshi-review" "Kalshi review";
                              draft "polymarket-guide" "Polymarket guide"])
           emptyWorld) =
  [ EvMkdir "site/content/learn";
    EvWriteFile "site/content/learn/kalshi-review.md"
      (Markdown "# Kalshi review");
    EvMkdir "site/content/learn";
    EvWriteFile "site/content/learn/polymarket-guide.md"
      (Markdown "# Polymarket guide");
    EvMkdir "data";
    EvWriteFile "data/inventory.json"
      (InventoryJson
         [ newItem (draft "kalshi-review" "Kalshi review")
             "2026-01-01T00:00:00.000Z";
           newItem (draft "polymarket-guide" "Polymarket guide")
             "2026-01-01T00:00:00.000Z" ]) ].
Proof. vm_compute. reflexivity. Qed.

(** ** Generation failures and the audit entry *)

(** The decisions log [appendLog] starts from. *)
Definition storedEntries (w : World) : list Log.t :=
  match files w !! logPath with
  | Some (DecisionsJson entries) => entries
  | _ => []
  end.

(** The log file is missing, is an incomplete write, or holds an array of
    log entries. *)
Definition logLoads (w : World) : Prop :=
  match files w !! logPath with
  | None | Some Torn | Some (DecisionsJson _) => True
  | _ => False
  end.

(** The log file holds a JSON value that is not an array. *)
Definition logIsObject (w : World) : Prop :=
  match files w !! logPath with
  | Some (ConfigJson _) => True
  | _ => False
  end.

#[global] Instance logIsObject_dec (w : World) : Decision (logIsObject w).
Proof.
  unfold logIsObject. destruct (files w !! logPath) as [[]|]; apply _.
Defined.

Lemma logLoads_array (w : World) : logLoads w → ¬ logIsObject w.
Proof.
  unfold logLoads, logIsObject.
  destruct (files w !! logPath) as [[]|]; tauto.
Qed.

Lemma readLog_run {B} (k : Parsed Log.t → IO B) (w : World) :
  (present ← existsSync logPath;
   (if present : bool
    then tryCatch (readFileSync logPath ≫= parseDecisions)
                  (λ _, mret (IsArray []))
    else mret (IsArray [])) ≫= k) w =
  k (match files w !! logPath with
     | Some (ConfigJson c) => NotArray (ConfigJson c)
     | _ => IsArray (storedEntries w)
     end) w.
Proof.
  unfold storedEntries, existsSync, tryCatch, readFileSync, parseDecisions,
    throw.
  unfold mbind, IO_bind, mret, IO_ret.
  destruct (files w !! logPath) as [[]|] eqn:Hf; simpl;
    rewrite ?Hf; simpl; reflexivity.
Qed.

(** [appendLog] does not make the data directory: it is there when the file
    is written at the end of a run. *)
Lemma appendLog_run (logEntry : Log.t) (w : World) :
  ¬ logIsObject w → "data" ∈ dirs w →
  appendLog logEntry w =
    (Ok (),
     {| files := <[logPath := DecisionsJson (storedEntries w ++ [logEntry])]>
                   (files w);
        dirs := dirs w;
        clock := clock w;
        trace := trace w ++
                 [EvWriteFile logPath
                    (DecisionsJson (storedEntries w ++ [logEntry]))] |}).
Proof.
  intros Hobj Hdata. unfold appendLog. rewrite readLog_run.
  assert (Harr : match files w !! logPath with
                 | Some (ConfigJson c) => NotArray (ConfigJson c)
                 | _ => IsArray (storedEntries w)
                 end = IsArray (storedEntries w)).
  { unfold logIsObject in Hobj. by destruct (files w !! logPath) as [[]|]. }
  rewrite Harr. by apply (writeFileSync_run logPath "data").
Qed.

Lemma appendLog_object (logEntry : Log.t) (w : World) :
  logIsObject w → appendLog logEntry w = (Thrown "TypeError", w).
Proof.
  unfold logIsObject, appendLog. intros Hobj. rewrite readLog_run.
  by destruct (files w !! logPath) as [[]|].
Qed.

Lemma appendLog_no_directory (logEntry : Log.t) (w : World) :
  ¬ logIsObject w → "data" ∉ dirs w →
  appendLog logEntry w = (Thrown "ENOENT", w).
Proof.
  intros Hobj Hdata. unfold appendLog. rewrite readLog_run.
  assert (Harr : match files w !! logPath with
                 | Some (ConfigJson c) => NotArray (ConfigJson c)
                 | _ => IsArray (storedEntries w)
                 end = IsArray (storedEntries w)).
  { unfold logIsObject in Hobj. by destruct (files w !! logPath) as [[]|]. }
  rewrite Harr. unfold writeFileSync, parentExists.
  change (dirname logPath) with (Some "data").
  destruct (decide ("data" = "")); [done |].
  by rewrite bool_decide_eq_false_2.
Qed.

(** The draft [create] returns for an assignment when the call succeeds. *)
Definition draftOf (assignment : ContentOpportunity) (text : string * Z)
  : Draft.t := {|
  Draft.slug := slug assignment;
  Draft.bucket := bucketName (bucket assignment);
  Draft.category := category assignment;
  Draft.content := text.1;
  Draft.title := title assignment;
  Draft.targetKeyword := targetKeyword assignment;
  Draft.wordCount := text.2;
|}.

(** The loop of step 4 has no effect on the world, and a failed call only
    leaves its assignment out. *)
Lemma createAll_run (env : Env) (assignments : list ContentOpportunity)
    (drafts : list Draft.t) (w : World) :
  createAll env assignments drafts w =
    (Ok (drafts ++
         omap (λ a, draftOf a <$> generate env a) assignments), w).
Proof.
  revert drafts. induction assignments as [|a rest IH]; intros drafts; simpl.
  - by rewrite app_nil_r.
  - unfold mbind at 1, IO_bind at 1, tryCatch, create.
    destruct (generate env a) as [[text words]|]; simpl.
    + unfold mbind, IO_bind, mret, IO_ret. rewrite IH.
      by rewrite <- app_assoc.
    + unfold throw, mret, IO_ret. by rewrite IH.
Qed.

Lemma inherited_bucketName (b : Bucket) : inherited (bucketName b) = false.
Proof. by destruct b. Qed.

Lemma writable_draftOf (a : ContentOpportunity) (text : string * Z) :
  hasSlash (slug a) = false → writable (draftOf a text).
Proof. intros Hs. split; [apply inherited_bucketName | done]. Qed.





(** ** The snapshot store *)

(** The file-system calls behind the events, one level down: Node's
    [writeFileSync] opens the file with the flag ['w'], which creates or
    truncates it, and then writes the data.  Between the two the file is
    there with incomplete text.  [FsRename] is [renameSync], which replaces
    the target in one step; the agent does not call it. *)
Inductive FsStep :=
  | FsMkdir (dir : string)
  | FsTruncate (path : string)
  | FsFill (path : string) (data : FileData)
  | FsRename (from to : string).

Definition applyStep (fs : gmap string FileData) (s : FsStep)
  : gmap string FileData :=
  match s with
  | FsMkdir _ => fs
  | FsTruncate p => <[p := Torn]> fs
  | FsFill p d => <[p := d]> fs
  | FsRename from to =>
      match fs !! from with
      | Some d => <[to := d]> (delete from fs)
      | None => fs
      end
  end.

Definition stepsOf (e : Event) : list FsStep :=
  match e with
  | EvMkdir d => [FsMkdir d]
  | EvWriteFile p d => [FsTruncate p; FsFill p d]
  | _ => []
  end.

(** The file-system calls of [saveSnapshot], in order. *)
Definition saveSnapshotSteps (markets : list MarketData) : list FsStep :=
  trace (worldAfter (saveSnapshot markets)
           {| files := ∅; dirs := ∅; clock := 0; trace := [] |}) ≫= stepsOf.

(** The file system after the first [k] of these calls: what a load sees
    that runs at that point, or after a save interrupted there. *)
Definition during (k : nat) (markets : list MarketData)
    (fs : gmap string FileData) : gmap string FileData :=
  foldl applyStep fs (take k (saveSnapshotSteps markets)).

(** What a run gets from [loadPreviousSnapshot] on a file system: the
    snapshot, nothing, or the TypeError it meets in [detectMovers] when the
    value returned is not an array. *)
Definition loadFrom (fs : gmap string FileData)
  : Outcome (option (list MarketData)) :=
  match resultOf loadPreviousSnapshot
          {| files := fs; dirs := ∅; clock := 0; trace := [] |} with
  | Ok (Some (IsArray markets)) => Ok (Some markets)
  | Ok (Some (NotArray _)) => Thrown "TypeError"
  | Ok None => Ok None
  | Thrown e => Thrown e
  end.

Lemma saveSnapshotSteps_eq (markets : list MarketData) :
  saveSnapshotSteps markets =
    [FsMkdir "data"; FsTruncate snapshotPath;
     FsFill snapshotPath (SnapshotJson markets)].
Proof. reflexivity. Qed.

(** The steps, run to the end, give the file system of [saveSnapshot]. *)
Lemma saveSnapshot_files (markets : list MarketData) (w : World) :
  files (worldAfter (saveSnapshot markets) w) =
    foldl applyStep (files w) (saveSnapshotSteps markets) ∧
  files (worldAfter (saveSnapshot markets) w) !! snapshotPath =
    Some (SnapshotJson markets).
Proof.
  rewrite saveSnapshotSteps_eq. unfold worldAfter, saveSnapshot.
  rewrite (mkdir_write_run "data") by done. simpl.
  rewrite insert_insert_eq. split; [done | apply lookup_insert_eq].
Qed.

Lemma loadFrom_lookup (fs : gmap string FileData) :
  loadFrom fs =
    match fs !! snapshotPath with
    | Some (SnapshotJson markets) => Ok (Some markets)
    | Some (InventoryJson _) | Some (DecisionsJson _) => Ok (Some [])
    | Some (ConfigJson _) => Thrown "TypeError"
    | _ => Ok None
    end.
Proof.
  unfold loadFrom, resultOf, loadPreviousSnapshot, existsSync, readFileSync,
    tryCatch, parseSnapshot, throw.
  unfold mbind, IO_bind, mret, IO_ret. simpl.
  destruct (fs !! snapshotPath) as [[]|] eqn:Hf; simpl; rewrite ?Hf; done.
Qed.

(** The mechanism the specification names, for comparison: write a temporary
    file, then rename it over the snapshot. *)
Definition specSaveSteps (markets : list MarketData) : list FsStep :=
  [FsMkdir "data"; FsTruncate (snapshotPath +:+ ".tmp");
   FsFill (snapshotPath +:+ ".tmp") (SnapshotJson markets);
   FsRename (snapshotPath +:+ ".tmp") snapshotPath].

Lemma specSaveSteps_atomic (k : nat) (old new : list MarketData)
    (fs : gmap string FileData) :
  fs !! snapshotPath = Some (SnapshotJson old) →
  let seen := foldl applyStep fs (take k (specSaveSteps new)) !! snapshotPath in
  seen = Some (SnapshotJson old) ∨ seen = Some (SnapshotJson new).
Proof.
  intros Hold. simpl.
  assert (Hne : snapshotPath +:+ ".tmp" ≠ snapshotPath) by done.
  destruct k as [|[|[|[|k]]]]; simpl;
    rewrite ?lookup_insert_eq; simpl; rewrite ?take_nil; simpl;
    rewrite ?lookup_insert_eq, ?lookup_insert_ne by done; auto.
Qed.

(** C9, as the specification states it, fails on the code: [saveSnapshot]
    has no temporary file and no rename; it truncates and rewrites the
    snapshot file in place, and between the two calls the stored file is
    neither the old nor the new snapshot. *)
Lemma saveSnapshot_not_atomic :
  ¬ (∀ (k : nat) (old new : list MarketData) (fs : gmap string FileData),
       fs !! snapshotPath = Some (SnapshotJson old) →
       during k new fs !! snapshotPath = Some (SnapshotJson old) ∨
       during k new fs !! snapshotPath = Some (SnapshotJson new)).
Proof.
  intros H.
  destruct (H 2%nat [] [] {[ snapshotPath := SnapshotJson [] ]}
              (lookup_singleton_eq _ _)) as [Hk|Hk];
    vm_compute in Hk; discriminate Hk.
Qed.

(** C9 (amended).  [saveSnapshot] rewrites the snapshot file in place: it
    makes the directory, truncates the file and writes the data.  A load at
    any point of a save returns the complete old snapshot (before the
    truncation), nothing (between truncation and write: the text does not
    parse and the snapshot counts as absent) or the complete new snapshot
    (after the write); it never returns part of a snapshot and never throws.
    After [saveSnapshot] has returned, a load returns the new snapshot. *)
Theorem saveSnapshot_in_place (k : nat) (old new : list MarketData)
    (fs : gmap string FileData) :
  fs !! snapshotPath = Some (SnapshotJson old) →
  saveSnapshotSteps new =
    [FsMkdir "data"; FsTruncate snapshotPath;
     FsFill snapshotPath (SnapshotJson new)] ∧
  ((k ≤ 1)%nat → loadFrom (during k new fs) = Ok (Some old)) ∧
  (k = 2%nat → loadFrom (during k new fs) = Ok None) ∧
  ((3 ≤ k)%nat → loadFrom (during k new fs) = Ok (Some new)) ∧
  (∀ w, loadFrom (files (worldAfter (saveSnapshot new) w)) = Ok (Some new)).
Proof.
  intros Hold. split; [reflexivity |].
  unfold during. rewrite saveSnapshotSteps_eq.
  split_and!.
  - intros Hk. rewrite loadFrom_lookup.
    destruct k as [|[|k]]; [| | lia]; simpl; by rewrite Hold.
  - intros ->. rewrite loadFrom_lookup. simpl. by rewrite lookup_insert_eq.
  - intros Hk. rewrite loadFrom_lookup.
    rewrite take_ge by (simpl; lia). simpl.
    by rewrite lookup_insert_eq.
  - intros w. rewrite loadFrom_lookup.
    by rewrite (proj2 (saveSnapshot_files new w)).
Qed.

Lemma saveSnapshot_in_place_witness :
  loadFrom (during 2 [] {[ snapshotPath := SnapshotJson [] ]}) = Ok None ∧
  loadFrom (during 3 [] {[ snapshotPath := SnapshotJson [] ]}) = Ok (Some []).
Proof.
  pose proof (saveSnapshot_in_place 2 [] [] {[ snapshotPath := SnapshotJson [] ]}
                (lookup_singleton_eq _ _)) as (_ & _ & H2 & _).
  pose proof (saveSnapshot_in_place 3 [] [] {[ snapshotPath := SnapshotJson [] ]}
                (lookup_singleton_eq _ _)) as (_ & _ & _ & H3 & _).
  split; [by apply H2 | apply H3; lia].
Defined.

(** ** A whole run *)

(** The sample environment recommends the sample pool; there is no
    configuration file, so the limit is 3 and the minimum score 0.4.  The
    allocator selects [e1], [e2] and [t1]; generation fails for [e2]; the run
    writes the two other drafts, records them in the inventory and appends
    one entry to the decisions log. *)
Example main_sample :
  let w' := worldAfter (main sampleEnv) emptyWorld in
  Item.slug <$> storedInventory w' = ["e1"; "t1"] ∧
  (∃ entry,
     files w' !! logPath = Some (DecisionsJson [entry]) ∧
     (Log.selected entry).*1.*1 = ["e1"; "e2"; "t1"] ∧
     (Log.produced entry).*1.*1 = ["e1"; "t1"]) ∧
  (λ e, match e with EvWriteFile p _ => Some p | _ => None end) <$> trace w' =
    [ None; Some "data/market-snapshot.json";
      None; Some "site/content/learn/e1.md";
      None; Some "site/content/markets/general/t1.md";
      None; Some "data/inventory.json";
      Some "data/decisions.json" ].
Proof.
  vm_compute. split_and!; [reflexivity | | reflexivity].
  eexists. split_and!; reflexivity.
Qed.

(** * Further properties of the allocator *)

Lemma decideObjs_merge (opportunities : list Obj) (config : PartialConfig) :
  decideObjs opportunities config =
    decideObjs opportunities (fullConfig (mergeConfig config)).
Proof. unfold decideObjs. by rewrite mergeConfig_full. Qed.

Lemma decide_merge (opportunities : list ContentOpportunity)
    (config : PartialConfig) :
  Agent.decide opportunities config =
    Agent.decide opportunities (fullConfig (mergeConfig config)).
Proof. unfold Agent.decide. by rewrite decideObjs_merge. Qed.

(** X1.  Whatever the configuration, what [decide] returns is taken from the
    opportunities it was given, each one at most as often as it was given,
    and every selected opportunity has a score of at least the minimum
    score in force. *)
Theorem decide_selects_admitted (opportunities : list ContentOpportunity)
    (config : PartialConfig) :
  Agent.decide opportunities config ⊆+ opportunities ∧
  Forall (λ o, (minScore (mergeConfig config) <= score o)%Q)
    (Agent.decide opportunities config).
Proof.
  rewrite decide_merge.
  pose proof (decide_submseteq opportunities (mergeConfig config)) as Hsub.
  split.
  - etrans; [exact Hsub |]. apply sublist_submseteq.
    unfold admitted, viableOf. apply sublist_filter.
  - apply Forall_forall. intros o Ho.
    eapply elem_of_submseteq in Ho; [| exact Hsub].
    by apply elem_of_admitted in Ho as [_ ?].
Qed.

(** X2.  With a limit of zero or less [decide] selects nothing, although the
    educational target is never below 1. *)
Theorem decide_limit_not_positive (opportunities : list ContentOpportunity)
    (config : PartialConfig) :
  maxArticles (mergeConfig config) ≤ 0 →
  Agent.decide opportunities config = [] ∧
  1 ≤ targetCounts (maxArticles (mergeConfig config))
        (bucketWeights (mergeConfig config)) educational.
Proof.
  intros Hmax. split.
  - rewrite decide_merge. apply length_zero_iff_nil.
    pose proof (decide_length opportunities (mergeConfig config)). lia.
  - unfold targetCounts. simpl. lia.
Qed.

Lemma decide_limit_not_positive_witness :
  Agent.decide pool (configOf 0 defaultWeights 0.3) = [] ∧
  1 ≤ targetCounts 0 defaultWeights educational.
Proof.
  apply (decide_limit_not_positive pool (configOf 0 defaultWeights 0.3)).
  simpl. lia.
Defined.

Lemma descending_take_drop {A} (key : A → Q) (l : list A) (k : nat) (x y : A) :
  descending key l → x ∈ take k l → y ∈ drop k l → (key y <= key x)%Q.
Proof.
  unfold descending. intros Hs. revert k.
  induction Hs as [|a l Hl IH Ha]; intros k Hx Hy.
  - rewrite take_nil in Hx. by apply elem_of_nil in Hx.
  - destruct k as [|k]; simpl in Hx, Hy; [by apply elem_of_nil in Hx |].
    apply elem_of_cons in Hx as [->|Hx]; [| by eapply IH].
    apply (proj1 (Forall_forall _ _) Ha).
    eapply (subseteq_drop k l). exact Hy.
Qed.

Lemma elem_of_drop_not_take {A} (l : list A) (k : nat) (y : A) :
  y ∈ l → y ∉ take k l → y ∈ drop k l.
Proof.
  intros Hy Hn. rewrite <- (take_drop k l) in Hy.
  by apply elem_of_app in Hy as [?|?].
Qed.

Section allocation_order.
Context (cfg : DecisionConfig) (viable : list Obj).
Hypothesis viable_refs : NoDup viable.*1.

Lemma bucketOpps_descending (b : Bucket) :
  descending (λ o : Obj, score o.2) (bucketOpps viable b).
Proof. unfold bucketOpps, byScore. apply sortDesc_descending. Qed.

Lemma taken_dominates (b : Bucket) (k : nat) (o o' : Obj) :
  o ∈ take k (bucketOpps viable b) → o' ∈ viable → bucket o'.2 = b →
  o' ∉ take k (bucketOpps viable b) → (score o'.2 <= score o.2)%Q.
Proof.
  intros Ho Ho' Hb Hn.
  apply (descending_take_drop (λ o : Obj, score o.2) (bucketOpps viable b) k);
    [apply bucketOpps_descending | done |].
  apply elem_of_drop_not_take; [| done].
  by apply elem_of_bucketOpps.
Qed.

Lemma secondPass_prefix (selected : list Obj) :
  ∃ extra, secondPass cfg viable selected = selected ++ extra.
Proof.
  unfold secondPass. destruct (decide _).
  - rewrite fillRest_take. by eexists.
  - exists []. by rewrite app_nil_r.
Qed.

(** Within a bucket, no selected object has a lower score than one that was
    admitted and left out. *)
Lemma secondPass_dominates (o o' : Obj) :
  o ∈ secondPass cfg viable (firstPass cfg viable).1 →
  o' ∈ viable →
  o' ∉ secondPass cfg viable (firstPass cfg viable).1 →
  bucket o.2 = bucket o'.2 → (score o'.2 <= score o.2)%Q.
Proof using viable_refs.
  intros Ho Ho' Hn Hb.
  assert (Hn1 : o' ∉ (firstPass cfg viable).1).
  { intros Hin. apply Hn.
    destruct (secondPass_prefix (firstPass cfg viable).1) as [extra ->].
    apply elem_of_app. by left. }
  assert (Hfirst : o ∈ (firstPass cfg viable).1 → (score o'.2 <= score o.2)%Q).
  { rewrite firstPass_taken in Hn1 |- *.
    rewrite !elem_of_app. rewrite !elem_of_app in Hn1.
    intros [[H1|H2]|H3].
    - destruct (elem_of_taken1 _ _ _ H1) as [Hbo _].
      eapply taken_dominates; [exact H1 | done | congruence |].
      intros ?. apply Hn1. by left; left.
    - destruct (elem_of_taken2 _ _ _ H2) as [Hbo _].
      eapply taken_dominates; [exact H2 | done | congruence |].
      intros ?. apply Hn1. by left; right.
    - destruct (elem_of_taken3 _ _ _ H3) as [Hbo _].
      eapply taken_dominates; [exact H3 | done | congruence |].
      intros ?. apply Hn1. by right. }
  unfold secondPass in Ho, Hn.
  destruct (decide _) as [Hlt|Hge]; [| by apply Hfirst].
  rewrite fillRest_take in Ho, Hn.
  apply elem_of_app in Ho as [Ho|Ho]; [by apply Hfirst |].
  eapply (descending_take_drop (λ o : Obj, score o.2)); [| exact Ho |].
  { unfold byScore. apply sortDesc_descending. }
  apply elem_of_drop_not_take.
  - rewrite byScore_perm. apply list_elem_of_filter. split; [| done].
    destruct (includes (firstPass cfg viable).1 o') eqn:Hinc; [| done].
    apply (includes_iff viable viable_refs) in Hinc;
      [done | apply firstPass_subseteq | done].
  - intros Hin. apply Hn. apply elem_of_app. by right.
Qed.

(** With a limit of at least 1, the best educational candidate comes first. *)
Lemma firstPass_head (e : Obj) (rest : list Obj) :
  1 ≤ maxArticles cfg → bucketOpps viable educational = e :: rest →
  ∃ others, secondPass cfg viable (firstPass cfg viable).1 = e :: others.
Proof.
  intros Hmax Hb.
  destruct (secondPass_prefix (firstPass cfg viable).1) as [extra ->].
  rewrite firstPass_taken. unfold taken1. rewrite Hb.
  assert (Hq : ∃ n, quota (targetCounts (maxArticles cfg) (bucketWeights cfg)
                             educational) (maxArticles cfg)
                      (length (e :: rest)) 0 0 = S n).
  { unfold quota, targetCounts. simpl.
    match goal with |- ∃ n, Z.to_nat ?a = S n =>
      exists (Z.to_nat (a - 1)) end. lia. }
  destruct Hq as [n ->]. simpl. by eexists.
Qed.
End allocation_order.

Lemma elem_of_admitted_obj (opportunities : list ContentOpportunity) (q : Q)
    (o : ContentOpportunity) :
  o ∈ admitted opportunities q ↔
  ∃ i, (i, o) ∈ viableOf snd q (allocRefs opportunities).
Proof.
  rewrite <- viableOf_allocRefs. rewrite list_elem_of_fmap. split.
  - intros ([i o'] & -> & Hin). by exists i.
  - intros [i Hin]. by exists (i, o).
Qed.

(** X3.  Within a bucket [decide] never prefers a lower score: a selected
    opportunity has a score at least that of every admitted opportunity of
    its bucket that was left out. *)
Theorem decide_prefers_higher_score (opportunities : list ContentOpportunity)
    (config : PartialConfig) (o o' : ContentOpportunity) :
  o ∈ Agent.decide opportunities config →
  o' ∈ admitted opportunities (minScore (mergeConfig config)) →
  o' ∉ Agent.decide opportunities config →
  bucket o = bucket o' →
  (score o' <= score o)%Q.
Proof.
  rewrite decide_merge. unfold Agent.decide, decideObjs.
  rewrite mergeConfig_full.
  pose proof (viable_refs_NoDup opportunities (mergeConfig config)) as Hnd.
  intros Ho Ho' Hn Hb. apply elem_of_admitted_obj in Ho' as [j Hj].
  destruct (viableOf snd (minScore (mergeConfig config))
              (allocRefs opportunities)) as [|x l] eqn:Hv;
    [by apply elem_of_nil in Hj |].
  apply list_elem_of_fmap in Ho as ([i o1] & -> & Hi).
  apply (secondPass_dominates (mergeConfig config) (x :: l) Hnd (i, o1) (j, o'));
    [done | done | | done].
  intros Hin. apply Hn. apply list_elem_of_fmap. by exists (j, o').
Qed.

Lemma decide_prefers_higher_score_witness :
  (score (opp "e3" educational 0.7) <= score (opp "e2" educational 0.8))%Q.
Proof.
  apply (decide_prefers_higher_score pool (configOf 3 defaultWeights 0.3)).
  - apply list_elem_of_further, list_elem_of_here.
  - apply elem_of_admitted. split; [| done].
    do 2 apply list_elem_of_further. apply list_elem_of_here.
  - replace (Agent.decide pool (configOf 3 defaultWeights 0.3))
      with [opp "e1" educational 0.9; opp "e2" educational 0.8;
            opp "t1" topical 0.9] by (by vm_compute).
    intros H. repeat (apply elem_of_cons in H as [H|H]; [discriminate H |]).
    by apply elem_of_nil in H.
  - reflexivity.
Defined.

(** X4.  With a limit of at least 1 and at least one admitted educational
    opportunity, the first opportunity [decide] returns is educational and no
    admitted educational opportunity has a higher score. *)
Theorem decide_educational_first (opportunities : list ContentOpportunity)
    (config : PartialConfig) :
  1 ≤ maxArticles (mergeConfig config) →
  (∃ o, o ∈ admitted opportunities (minScore (mergeConfig config)) ∧
        bucket o = educational) →
  ∃ o rest,
    Agent.decide opportunities config = o :: rest ∧
    bucket o = educational ∧
    o ∈ admitted opportunities (minScore (mergeConfig config)) ∧
    ∀ o', o' ∈ admitted opportunities (minScore (mergeConfig config)) →
          bucket o' = educational → (score o' <= score o)%Q.
Proof.
  intros Hmax (o0 & [j Hj]%elem_of_admitted_obj & Hb0).
  rewrite decide_merge. unfold Agent.decide, decideObjs.
  rewrite mergeConfig_full.
  set (cfg := mergeConfig config) in *.
  setoid_rewrite elem_of_admitted_obj.
  destruct (viableOf snd (minScore cfg) (allocRefs opportunities))
    as [|x l] eqn:Hv; [by apply elem_of_nil in Hj |].
  assert (Hin0 : (j, o0) ∈ bucketOpps (x :: l) educational)
    by (by apply elem_of_bucketOpps).
  pose proof (bucketOpps_descending (x :: l) educational) as Hdesc.
  pose proof (elem_of_bucketOpps (x :: l) educational) as Hmem.
  destruct (bucketOpps (x :: l) educational) as [|[i e] rest] eqn:Hbo;
    [by apply elem_of_nil in Hin0 |].
  destruct (firstPass_head cfg (x :: l) (i, e) rest Hmax Hbo) as [others ->].
  exists e, others.*2. split_and!.
  - reflexivity.
  - by apply (Hmem (i, e)), list_elem_of_here.
  - exists i. by apply (Hmem (i, e)), list_elem_of_here.
  - intros o' [k Hk] Hb'.
    assert (Hk' : (k, o') ∈ (i, e) :: rest) by (by apply Hmem).
    apply elem_of_cons in Hk' as [[= _ ->]|Hk']; [apply Qle_refl |].
    inversion Hdesc as [|? ? _ Hall]; subst.
    by apply (proj1 (Forall_forall _ _) Hall (k, o')).
Qed.

Lemma decide_educational_first_witness :
  ∃ o rest,
    Agent.decide pool (configOf 1 defaultWeights 0.3) = o :: rest ∧
    bucket o = educational ∧
    o ∈ admitted pool 0.3 ∧
    ∀ o', o' ∈ admitted pool 0.3 →
          bucket o' = educational → (score o' <= score o)%Q.
Proof.
  apply (decide_educational_first pool (configOf 1 defaultWeights 0.3)).
  - simpl. lia.
  - exists (opp "e1" educational 0.9). split; [| reflexivity].
    apply elem_of_admitted. split; [apply list_elem_of_here | done].
Defined.

(** * Further properties of the mover detector *)

(** X5.  The movers are a sublist of the current markets: nothing is
    invented, repeated or reordered; without a previous snapshot, or with an
    empty one, there are none. *)
Theorem detectMovers_sublist (current : list MarketData)
    (previous : option (list MarketData)) :
  detectMovers current previous `sublist_of` current ∧
  (previous = None ∨ previous = Some [] → detectMovers current previous = []).
Proof.
  split.
  - destruct previous as [prev|]; simpl; [apply sublist_filter |].
    apply sublist_nil_l.
  - intros [->| ->]; [done |]. simpl.
    induction current as [|m l IH]; [done |].
    rewrite filter_cons_False; [done |].
    unfold isMover. rewrite previousMap_nil, lookup_empty. by intros [].
Qed.

(** X6.  A market is compared only with an entry of its own platform: when
    every entry of the previous snapshot with its id is of the other
    platform, it is not reported, whatever the prices. *)
Theorem detectMovers_same_platform_only (current previous : list MarketData)
    (m : MarketData) :
  (∀ p, p ∈ previous → id p = id m → platform p ≠ platform m) →
  m ∉ detectMovers current (Some previous).
Proof.
  intros Hother. rewrite elem_of_detectMovers. intros [_ Hm].
  unfold isMover in Hm.
  destruct (previousMap previous !! marketKey m) as [p|] eqn:Hp; [| done].
  apply previousMap_lookup_Some in Hp as (l1 & l2 & -> & Hk & _).
  apply marketKey_inj in Hk as [Hpl Hid].
  apply (Hother p); [| done | done].
  apply elem_of_app. right. apply list_elem_of_here.
Qed.

Lemma detectMovers_same_platform_only_witness :
  market "FED-CUT" kalshi 0.90 ∉
    detectMovers [market "FED-CUT" kalshi 0.90]
      (Some [market "FED-CUT" polymarket 0.10]).
Proof.
  apply detectMovers_same_platform_only.
  intros p ->%list_elem_of_singleton _. discriminate.
Defined.

(** X7.  When the previous snapshot holds several entries for one platform
    and id, the last of them is the one a current market is compared with:
    the market is reported exactly when its price change against that entry,
    computed in binary64, is above the binary64 number 0.10. *)
Theorem detectMovers_last_entry_counts (current before after : list MarketData)
    (m p : MarketData) :
  m ∈ current →
  platform p = platform m → id p = id m →
  Forall (λ q, ¬ (platform q = platform m ∧ id q = id m)) after →
  m ∈ detectMovers current (Some (before ++ p :: after)) ↔
  (0.10 <? abs (yes_price m - yes_price p))%float = true.
Proof.
  intros Hm Hpl Hid Hafter.
  assert (Hk : marketKey p = marketKey m) by (by apply marketKey_inj).
  assert (Hp : previousMap (before ++ p :: after) !! marketKey m = Some p).
  { rewrite <- Hk. apply previousMap_lookup_last.
    eapply Forall_impl; [exact Hafter |]. simpl. intros q Hq Heq.
    apply Hq. apply marketKey_inj. by rewrite Heq. }
  rewrite elem_of_detectMovers. unfold isMover, Math_abs. rewrite Hp. tauto.
Qed.

Lemma detectMovers_last_entry_counts_witness :
  (market "FED-CUT" kalshi 0.75 ∉
     detectMovers [market "FED-CUT" kalshi 0.75]
       (Some [market "FED-CUT" kalshi 0.10; market "FED-CUT" kalshi 0.70])) ∧
  (market "FED-CUT" kalshi 0.8 ∈
     detectMovers [market "FED-CUT" kalshi 0.8]
       (Some [market "FED-CUT" kalshi 0.75; market "FED-CUT" kalshi 0.7])).
Proof.
  split.
  - intros H.
    apply (detectMovers_last_entry_counts [market "FED-CUT" kalshi 0.75]
             [market "FED-CUT" kalshi 0.10] []
             (market "FED-CUT" kalshi 0.75) (market "FED-CUT" kalshi 0.70)) in H.
    + vm_compute in H. discriminate H.
    + apply list_elem_of_here.
    + reflexivity.
    + reflexivity.
    + constructor.
  - apply (detectMovers_last_entry_counts [market "FED-CUT" kalshi 0.8]
             [market "FED-CUT" kalshi 0.75] []
             (market "FED-CUT" kalshi 0.8) (market "FED-CUT" kalshi 0.7)).
    + apply list_elem_of_here.
    + reflexivity.
    + reflexivity.
    + constructor.
    + by vm_compute.
Defined.

(** * Further properties of observation and analysis *)

(** The markets a response lists. *)
Definition kalshiListed (r : Kalshi.response) : list Kalshi.raw :=
  match r with
  | Kalshi.Status _ (Some l) => l
  | _ => []
  end.

(** X8.  Every market [fetchKalshiMarkets] returns is a Kalshi market with a
    volume above 500, which is the volume the API listed (the default 0 is
    never used), and a non-empty category; a failed request or a status that
    is not ok gives no markets. *)
Theorem fetchKalshiMarkets_liquid (r : Kalshi.response) :
  Forall (λ m, platform m = kalshi ∧ (500 < volume m)%Q ∧
               market_category m ≠ "" ∧
               ∃ x, x ∈ kalshiListed r ∧
                    id m = Kalshi.ticker x ∧ Kalshi.volume x = Some (volume m))
    (Observe.fetchKalshiMarkets r) ∧
  (r = Kalshi.Failed ∨ (∃ l, r = Kalshi.Status false l) →
     Observe.fetchKalshiMarkets r = []).
Proof.
  split.
  - destruct r as [|[] [l|]]; simpl; try by constructor.
    apply Forall_fmap, Forall_forall. intros x [Hx Hin]%list_elem_of_filter.
    unfold Observe.liquid in Hx. simpl.
    destruct (Kalshi.volume x) as [v|] eqn:Hv; [| done].
    assert (Hv0 : orQ (Some v) 0 = v).
    { simpl. destruct (decide (v == 0)%Q) as [Heq|]; [| done].
      rewrite Heq in Hx. by vm_compute in Hx. }
    split_and!.
    + done.
    + by rewrite Hv0.
    + unfold orString. destruct (Kalshi.category x) as [c|]; [| done].
      by destruct (decide (c = "")).
    + exists x. by rewrite Hv0.
  - intros [->|[l ->]]; done.
Qed.

Lemma findById_Some (allMarkets : list MarketData) (i : string)
    (m : MarketData) :
  Analyze.findById allMarkets i = Some m → m ∈ allMarkets ∧ id m = i.
Proof.
  unfold Analyze.findById.
  destruct (list_find _ allMarkets) as [[n x]|] eqn:Hf; [| done].
  intros [= <-]. apply list_find_Some in Hf as (Hl & Hx & _). simpl.
  split; [by eapply list_elem_of_lookup_2 | done].
Qed.

Lemma findById_None (allMarkets : list MarketData) (i : string) :
  Analyze.findById allMarkets i = None ↔ i ∉ id <$> allMarkets.
Proof.
  unfold Analyze.findById.
  destruct (list_find _ allMarkets) as [[n x]|] eqn:Hf; simpl.
  - apply list_find_Some in Hf as (Hl & Hx & _). split; [done |].
    intros Hn. destruct Hn. rewrite <- Hx.
    apply list_elem_of_fmap_2. by eapply list_elem_of_lookup_2.
  - apply list_find_None in Hf. split; [| done]. intros _.
    intros (m & -> & Hm)%list_elem_of_fmap.
    by apply (proj1 (Forall_forall _ _) Hf m).
Qed.

(** X9.  The markets attached to a recommendation are markets of the
    observation; their ids are the requested ids that some observed market
    carries, in the order requested; ids no market carries are dropped, and
    a recommendation without the field gets no markets. *)
Theorem relevantMarketsOf_known_ids (allMarkets : list MarketData)
    (ids : list string) :
  Analyze.relevantMarketsOf allMarkets (Some ids) ⊆ allMarkets ∧
  id <$> Analyze.relevantMarketsOf allMarkets (Some ids) =
    filter (λ i, i ∈ id <$> allMarkets) ids ∧
  Analyze.relevantMarketsOf allMarkets None = [].
Proof.
  unfold Analyze.relevantMarketsOf. simpl. split_and!; [| | done].
  - intros m (i & _ & Hi)%list_elem_of_omap.
    by apply findById_Some in Hi as [? _].
  - induction ids as [|i ids IH]; [done |]. simpl.
    destruct (Analyze.findById allMarkets i) as [m|] eqn:Hf.
    + apply findById_Some in Hf as [Hm <-].
      rewrite filter_cons_True by (by apply list_elem_of_fmap_2).
      simpl. f_equal. exact IH.
    + apply findById_None in Hf. rewrite filter_cons_False by done. exact IH.
Qed.

(** The lookup is by id alone: of two markets with one id, the first of the
    list is attached, whatever the platforms. *)
Example relevantMarketsOf_first_platform :
  Analyze.relevantMarketsOf
    [market "FED-CUT" kalshi 0.60; market "FED-CUT" polymarket 0.65]
    (Some ["FED-CUT"; "UNKNOWN"]) = [market "FED-CUT" kalshi 0.60].
Proof. reflexivity. Qed.


(** * Further properties of publication *)

Lemma storedInventory_object (w : World) :
  inventoryIsObject w → storedInventory w = [].
Proof.
  unfold inventoryIsObject, storedInventory.
  by destruct (files w !! inventoryPath) as [[]|].
Qed.

Lemma inventoryIsObject_files (w w' : World) :
  files w' !! inventoryPath = files w !! inventoryPath →
  inventoryIsObject w' ↔ inventoryIsObject w.
Proof. unfold inventoryIsObject. by intros ->. Qed.

Lemma storedInventory_files (w w' : World) :
  files w' !! inventoryPath = files w !! inventoryPath →
  storedInventory w' = storedInventory w.
Proof. unfold storedInventory. by intros ->. Qed.

(** When a draft cannot be written, [submit] ends there. *)
Lemma submit_drafts_fail (env : Env) (articles : list Draft.t) (w w1 : World)
    (e : string) :
  writeDrafts articles w = (Thrown e, w1) →
  submit env articles w = (Thrown e, w1).
Proof. intros Hrun. rewrite submit_unfold. by apply bind_Thrown. Qed.

(** A value that is not an array stays in the inventory file, whatever the
    batch. *)
Lemma submit_object_kept (env : Env) (articles : list Draft.t) (w : World) :
  inventoryIsObject w → inventoryIsObject (worldAfter (submit env articles) w).
Proof.
  intros Hobj. unfold worldAfter. rewrite submit_unfold, bind_run.
  destruct (writeDrafts_any articles w inventoryPath eq_refl) as (Hf & _ & _).
  destruct (writeDrafts articles w) as [[[]|e] w1]; cbn [snd] in *.
  - apply (inventoryIsObject_files w w1) in Hobj; [| done].
    rewrite bind_run.
    pose proof (updateInventory_object_kept env articles w1 Hobj) as Hkept.
    destruct (updateInventory env articles w1) as [[[]|e] w2]; cbn [snd] in *;
      [| done].
    destruct (quiet_publish env articles w2) as (after & Hf2 & _).
    apply (inventoryIsObject_files w2); [by rewrite Hf2 | done].
  - by apply (inventoryIsObject_files w w1).
Qed.

(** When the drafts are written, the inventory is updated, whatever follows. *)
Lemma submit_after_drafts (env : Env) (articles : list Draft.t) (w w1 : World) :
  writeDrafts articles w = (Ok (), w1) → ¬ inventoryIsObject w →
  files (worldAfter (submit env articles) w) =
    <[inventoryPath :=
        InventoryJson (pushed env articles (storedInventory w) (clock w))]>
      (files w1).
Proof.
  intros Hrun Hobj. unfold worldAfter. rewrite submit_unfold, bind_run, Hrun.
  destruct (writeDrafts_any articles w inventoryPath eq_refl) as (Hf & _ & Hc).
  rewrite Hrun in Hf, Hc. cbn [snd] in Hf, Hc.
  assert (Hobj1 : ¬ inventoryIsObject w1)
    by (by rewrite (inventoryIsObject_files w w1)).
  rewrite bind_run.
  destruct (updateInventory_run env articles w1 Hobj1) as [n ->].
  rewrite (storedInventory_files w w1), Hc by done.
  match goal with |- context [publish env articles ?w2] =>
    destruct (quiet_publish env articles w2) as (after & Hf2 & _) end.
  by rewrite Hf2.
Qed.

Lemma submit_files (env : Env) (articles : list Draft.t) (w : World) :
  Forall writable articles → ¬ inventoryIsObject w →
  files (worldAfter (submit env articles) w) =
    <[inventoryPath :=
        InventoryJson (pushed env articles (storedInventory w) (clock w))]>
      (writeAll articles (files w)).
Proof.
  intros Hall Hobj.
  by rewrite (submit_after_drafts env articles w _
                (writeDrafts_run articles w Hall) Hobj).
Qed.





Lemma pushed_all_present (env : Env) (articles : list Draft.t)
    (inventory : list Item.t) (n : nat) :
  (∀ a, a ∈ articles → Draft.slug a ∈ Item.slug <$> inventory) →
  pushed env articles inventory n = inventory.
Proof.
  induction articles as [|a rest IH]; intros Hall; simpl; [done |].
  rewrite (proj2 (hasSlug_true inventory (Draft.slug a)))
    by (apply Hall, list_elem_of_here).
  apply IH. intros b Hb. apply Hall. by apply list_elem_of_further.
Qed.

(** X11.  Submitting a batch a second time leaves the inventory as the first
    submission left it: no entry is added, changed or dropped. *)
Theorem submit_twice_same_inventory (env env' : Env) (articles : list Draft.t)
    (w : World) :
  storedInventory
    (worldAfter (submit env' articles) (worldAfter (submit env articles) w)) =
  storedInventory (worldAfter (submit env articles) w).
Proof.
  destruct (decide (inventoryIsObject w)) as [Hobj|Hobj].
  { (* a value that is not an array stays, and shows no entry *)
    pose proof (submit_object_kept env articles w Hobj) as H1.
    pose proof (submit_object_kept env' articles _ H1) as H2.
    by rewrite !storedInventory_object. }
  destruct (writeDrafts_any articles w inventoryPath eq_refl) as (Hf & Hd & _).
  destruct (writeDrafts articles w) as [[[]|e] w1] eqn:Hrun; cbn [snd] in *.
  - (* the first run gets to the inventory *)
    set (v := worldAfter (submit env articles) w).
    assert (Hv : files v !! inventoryPath =
                 Some (InventoryJson
                         (pushed env articles (storedInventory w) (clock w)))).
    { unfold v. rewrite (submit_after_drafts env articles w w1 Hrun Hobj).
      apply lookup_insert_eq. }
    assert (Hobjv : ¬ inventoryIsObject v)
      by (unfold inventoryIsObject; rewrite Hv; tauto).
    assert (Hsv : storedInventory v =
                  pushed env articles (storedInventory w) (clock w))
      by (unfold storedInventory; by rewrite Hv).
    destruct (writeDrafts_any articles v inventoryPath eq_refl) as (Hfv & _).
    destruct (writeDrafts articles v) as [[[]|e'] v1] eqn:Hrunv; cbn [snd] in *.
    + unfold storedInventory at 1.
      rewrite (submit_after_drafts env' articles v v1 Hrunv Hobjv).
      rewrite lookup_insert_eq. rewrite pushed_all_present; [done |].
      intros a Ha. rewrite Hsv. by apply pushed_covers.
    + unfold worldAfter at 1.
      rewrite (submit_drafts_fail env' articles v v1 e' Hrunv). cbn [snd].
      by apply storedInventory_files.
  - (* the first run stops at a draft: so does the second *)
    unfold worldAfter at 2 3.
    rewrite (submit_drafts_fail env articles w w1 e Hrun). cbn [snd].
    destruct (writeDrafts_fails_again articles w w1 w1 e Hrun Hd)
      as (e' & w3 & Hrun1); [done |].
    unfold worldAfter. rewrite (submit_drafts_fail env' articles w1 w3 e' Hrun1).
    cbn [snd].
    destruct (writeDrafts_any articles w1 inventoryPath eq_refl) as (Hf1 & _).
    rewrite Hrun1 in Hf1. by apply storedInventory_files.
Qed.

Lemma writeAll_snoc (articles : list Draft.t) (a : Draft.t)
    (fs : gmap string FileData) :
  writeAll (articles ++ [a]) fs =
    <[contentPath a := Markdown (Draft.content a)]> (writeAll articles fs).
Proof. unfold writeAll. by rewrite foldl_app. Qed.


Lemma writeAll_lookup_other (articles : list Draft.t)
    (fs : gmap string FileData) (p : string) :
  Forall (λ b, contentPath b ≠ p) articles →
  writeAll articles fs !! p = fs !! p.
Proof.
  induction articles as [|b l IH] using rev_ind; intros Hall; [done |].
  rewrite Forall_app, Forall_singleton in Hall. destruct Hall as [Hall Hb].
  rewrite writeAll_snoc, lookup_insert_ne by done. by apply IH.
Qed.



(** The content files after [submit] of a batch that can be written,
    whatever happens at the inventory or after it. *)
Lemma submit_content_files (env : Env) (articles : list Draft.t) (w : World)
    (p : string) :
  Forall writable articles → p ≠ inventoryPath →
  files (worldAfter (submit env articles) w) !! p =
    writeAll articles (files w) !! p.
Proof.
  intros Hall Hp.
  destruct (decide (inventoryIsObject w)) as [Hobj|Hobj].
  - unfold worldAfter. rewrite submit_unfold, bind_run.
    rewrite (writeDrafts_run articles w Hall). rewrite bind_run.
    match goal with |- context [updateInventory env articles ?wx] =>
      set (w1 := wx);
      assert (Hobj1 : inventoryIsObject w1)
        by (unfold inventoryIsObject, w1 in *; cbn [files];
            by rewrite writeAll_lookup_json) end.
    destruct articles as [|a rest].
    + unfold updateInventory. rewrite readInventory_run.
      unfold inventoryIsObject in Hobj1.
      destruct (files w1 !! inventoryPath) as [[]|] eqn:Hf; try done.
      rewrite (mkdir_write_run "data") by done.
      match goal with |- context [publish env [] ?w2] =>
        destruct (quiet_publish env [] w2) as (after & Hf2 & _);
        destruct (publish env [] w2) as [r w'] end.
      cbn [snd files] in *. rewrite Hf2.
      by rewrite lookup_insert_ne.
    + by rewrite (updateInventory_object env a rest w1 Hobj1).
  - rewrite submit_files by done. by rewrite lookup_insert_ne.
Qed.








Example submit_inherited_bucket :
  let article := {|
    Draft.slug := "kalshi-review"; Draft.bucket := "constructor";
    Draft.category := ""; Draft.content := "# Kalshi review";
    Draft.title := "Kalshi review"; Draft.targetKeyword := "kalshi review";
    Draft.wordCount := 2 |} in
  submit sampleEnv [article] emptyWorld = (Thrown "TypeError", emptyWorld).
Proof. reflexivity. Qed.




(** * Further properties of a run *)



Definition draftsOf (env : Env) (assignments : list ContentOpportunity)
  : list Draft.t :=
  omap (λ a, draftOf a <$> generate env a) assignments.



Definition noObservations : Observations := {|
  kalshiMarkets := []; polymarketMarkets := []; movers := [];
  trendingTopics := []; newsHeadlines := []; timestamp := "";
|}.


Lemma draftsOf_all_failed (env : Env) (assignments : list ContentOpportunity) :
  (∀ a, a ∈ assignments → generate env a = None) →
  draftsOf env assignments = [].
Proof.
  unfold draftsOf.
  induction assignments as [|a rest IH]; intros Hall; [done |]. simpl.
  rewrite (Hall a) by apply list_elem_of_here. simpl.
  apply IH. intros b Hb. apply Hall. by apply list_elem_of_further.
Qed.

(** X15.  When generation fails for every assignment, steps 4 and 5 change
    nothing: no content file, no inventory write, no log entry, no event,
    and the run returns normally. *)
Theorem produce_nothing_generated (env : Env) (observations : Observations)
    (opportunities assignments : list ContentOpportunity) (w : World) :
  (∀ a, a ∈ assignments → generate env a = None) →
  produce env observations opportunities assignments w = (Ok (), w).
Proof.
  intros Hall. unfold produce.
  unfold mbind at 1, IO_bind at 1. rewrite createAll_run. simpl.
  fold (draftsOf env assignments). by rewrite draftsOf_all_failed.
Qed.

Lemma produce_nothing_generated_witness :
  produce sampleEnv noObservations pool [opp "e2" educational 0.8]
    (worldWith [oldItem "e1"]) = (Ok (), worldWith [oldItem "e1"]).
Proof.
  apply produce_nothing_generated.
  intros a ->%list_elem_of_singleton. reflexivity.
Defined.

(** X16.  Step 4 never throws and does not touch the world; it returns one
    draft per assignment whose generation succeeded, in the order of the
    assignments, each with the slug, title and category of its assignment. *)
Theorem createAll_successes (env : Env) (assignments : list ContentOpportunity)
    (w : World) :
  ∃ drafts,
    createAll env assignments [] w = (Ok drafts, w) ∧
    (λ d, (Draft.slug d, Draft.title d, Draft.category d)) <$> drafts =
      (λ a, (slug a, title a, category a)) <$>
        filter (λ a, is_Some (generate env a)) assignments.
Proof.
  exists (draftsOf env assignments). rewrite createAll_run. split; [done |].
  unfold draftsOf. induction assignments as [|a rest IH]; [done |]. simpl.
  destruct (generate env a) as [text|] eqn:Hg; simpl.
  - rewrite filter_cons_True by (by rewrite Hg). simpl. f_equal. exact IH.
  - rewrite filter_cons_False by (rewrite Hg; by intros [? ?]). exact IH.
Qed.

(** X17.  The decisions log only grows.  With the data directory in place
    and a log file that is missing, incomplete or an array of log entries,
    [appendLog] returns, and the new log is the old one followed by the new
    entry (the new entry alone when there was no log to read).  No other
    file is touched. *)
Theorem appendLog_appends (logEntry : Log.t) (w : World) :
  logLoads w → "data" ∈ dirs w →
  resultOf (appendLog logEntry) w = Ok () ∧
  files (worldAfter (appendLog logEntry) w) =
    <[logPath := DecisionsJson (storedEntries w ++ [logEntry])]> (files w).
Proof.
  intros Hw%logLoads_array Hdata. unfold resultOf, worldAfter.
  by rewrite appendLog_run.
Qed.

Definition sampleEntry : Log.t :=
  logEntryOf sampleEnv "2026-01-02T00:00:00.000Z"
    {| kalshiMarkets := []; polymarketMarkets := []; movers := [];
       trendingTopics := []; newsHeadlines := []; timestamp := "" |}
    [] [] [].

Lemma appendLog_appends_witness :
  let w := {| files := {[ logPath := DecisionsJson [sampleEntry] ]};
              dirs := {[ "data" ]}; clock := 0; trace := [] |} in
  resultOf (appendLog sampleEntry) w = Ok () ∧
  files (worldAfter (appendLog sampleEntry) w) !! logPath =
    Some (DecisionsJson [sampleEntry; sampleEntry]).
Proof.
  cbv zeta.
  destruct (appendLog_appends sampleEntry
              {| files := {[ logPath := DecisionsJson [sampleEntry] ]};
                 dirs := {[ "data" ]}; clock := 0; trace := [] |})
    as [Hr Hf].
  - exact I.
  - cbn [dirs]. by apply elem_of_singleton_2.
  - split; [exact Hr |]. rewrite Hf. apply lookup_insert_eq.
Defined.

(** In any world, [updateInventory] and [appendLog] touch no file but
    their own. *)
Lemma updateInventory_keeps (env : Env) (articles : list Draft.t) (w : World)
    (p : string) :
  p ≠ inventoryPath →
  files (updateInventory env articles w).2 !! p = files w !! p.
Proof.
  intros Hp. destruct (decide (inventoryIsObject w)) as [Hobj|Hobj].
  - destruct articles as [|a rest];
      [| by rewrite (updateInventory_object env a rest w Hobj)].
    unfold updateInventory. rewrite readInventory_run.
    unfold inventoryIsObject in Hobj.
    destruct (files w !! inventoryPath) as [[]|] eqn:Hf; try done.
    rewrite (mkdir_write_run "data") by done. cbn [snd files].
    by apply lookup_insert_ne.
  - destruct (updateInventory_run env articles w Hobj) as [n ->].
    cbn [snd files]. by apply lookup_insert_ne.
Qed.

Lemma appendLog_keeps (logEntry : Log.t) (w : World) (p : string) :
  p ≠ logPath → files (appendLog logEntry w).2 !! p = files w !! p.
Proof.
  intros Hp. destruct (decide (logIsObject w)) as [Hobj|Hobj].
  - by rewrite appendLog_object.
  - destruct (decide ("data" ∈ dirs w)) as [Hd|Hd].
    + rewrite appendLog_run by done. cbn [snd files].
      by apply lookup_insert_ne.
    + by rewrite appendLog_no_directory.
Qed.

Lemma submit_keeps (env : Env) (articles : list Draft.t) (w : World)
    (p : string) :
  lastChar p = Some "n"%char → p ≠ inventoryPath →
  files (submit env articles w).2 !! p = files w !! p.
Proof.
  intros Hp Hinv. rewrite submit_unfold, bind_run.
  destruct (writeDrafts_any articles w p Hp) as (Hf & _ & _).
  destruct (writeDrafts articles w) as [[[]|e] w1]; cbn [snd] in *; [| done].
  rewrite bind_run.
  pose proof (updateInventory_keeps env articles w1 p Hinv) as Hk.
  destruct (updateInventory env articles w1) as [[[]|e] w2]; cbn [snd] in *;
    [| by rewrite Hk].
  destruct (quiet_publish env articles w2) as (after & Hf2 & _).
  by rewrite Hf2, Hk.
Qed.

(** ** The snapshot across runs *)

(** What [loadPreviousSnapshot] returns. *)
Definition storedSnapshot (w : World) : option (Parsed MarketData) :=
  match files w !! snapshotPath with
  | Some (SnapshotJson markets) => Some (IsArray markets)
  | Some (InventoryJson _) | Some (DecisionsJson _) => Some (IsArray [])
  | Some (ConfigJson c) => Some (NotArray (ConfigJson c))
  | _ => None
  end.

(** The snapshot file is missing, is an incomplete write, or holds an array
    of markets. *)
Definition snapshotLoads (w : World) : Prop :=
  match files w !! snapshotPath with
  | None | Some Torn | Some (SnapshotJson _) => True
  | _ => False
  end.

(** The snapshot file holds a JSON value that is not an array. *)
Definition snapshotIsObject (w : World) : Prop :=
  match files w !! snapshotPath with
  | Some (ConfigJson _) => True
  | _ => False
  end.

Lemma snapshotLoads_array (w : World) : snapshotLoads w → ¬ snapshotIsObject w.
Proof.
  unfold snapshotLoads, snapshotIsObject.
  destruct (files w !! snapshotPath) as [[]|]; tauto.
Qed.

(** The array [detectMovers] works on. *)
Definition previousOf (value : option (Parsed MarketData))
  : option (list MarketData) :=
  match value with
  | Some (IsArray markets) => Some markets
  | _ => None
  end.

Lemma loadPreviousSnapshot_run (w : World) :
  loadPreviousSnapshot w = (Ok (storedSnapshot w), w).
Proof.
  unfold loadPreviousSnapshot, storedSnapshot, existsSync, readFileSync,
    tryCatch, parseSnapshot, throw.
  unfold mbind, IO_bind, mret, IO_ret. simpl.
  destruct (files w !! snapshotPath) as [[]|] eqn:Hf; simpl; rewrite ?Hf; done.
Qed.

Lemma observe_run (env : Env) (value : option (Parsed MarketData)) (w : World) :
  (∀ d, value ≠ Some (NotArray d)) →
  observe env value w =
    (Ok {| kalshiMarkets := fetchKalshiMarkets env;
           polymarketMarkets := fetchPolymarketMarkets env;
           movers := detectMovers (fetchKalshiMarkets env ++
                                   fetchPolymarketMarkets env)
                       (previousOf value);
           trendingTopics := fetchTrendingTopics env;
           newsHeadlines := take 10 (fetchTrendingTopics env);
           timestamp := toISOString env (clock w) |},
     {| files := files w; dirs := dirs w; clock := S (clock w);
        trace := trace w |}).
Proof.
  intros Hv. unfold observe.
  destruct value as [[l|d]|]; [| by destruct (Hv d) |]; reflexivity.
Qed.

Lemma observe_object (env : Env) (d : FileData) (w : World) :
  observe env (Some (NotArray d)) w = (Thrown "TypeError", w).
Proof. reflexivity. Qed.

Lemma storedSnapshot_array (w : World) :
  ¬ snapshotIsObject w → ∀ d, storedSnapshot w ≠ Some (NotArray d).
Proof.
  unfold snapshotIsObject, storedSnapshot. intros Hobj d.
  by destruct (files w !! snapshotPath) as [[]|].
Qed.

Lemma loadConfig_run (w : World) : ∃ c, loadConfig w = (Ok c, w).
Proof.
  unfold loadConfig, existsSync, readFileSync, tryCatch, parseConfig, throw.
  unfold mbind, IO_bind, mret, IO_ret. simpl.
  destruct (files w !! configPath) as [[]|] eqn:Hf; simpl; rewrite ?Hf;
    by eexists.
Qed.

Lemma analyze_run (env : Env) (observations : Observations) (w : World) :
  ∃ r, analyze env observations w = (r, w) ∧
       (recommendations env = [] → r = Ok [] ∨ ∃ e, r = Thrown e).
Proof.
  unfold analyze. unfold mbind, IO_bind.
  destruct (loadConfig_run w) as [c ->].
  destruct (cfg_bucketWeights c); eexists; (split; [reflexivity |]).
  - intros ->. by left.
  - intros _. right. by eexists.
Qed.

(** What steps 4 and 5 leave alone, in any world: every JSON file of the
    data directory other than the inventory and the log. *)
Lemma produce_keeps (env : Env) (observations : Observations)
    (opportunities assignments : list ContentOpportunity) (w : World)
    (p : string) :
  lastChar p = Some "n"%char → p ≠ inventoryPath → p ≠ logPath →
  files (worldAfter (produce env observations opportunities assignments) w) !! p
    = files w !! p.
Proof.
  intros Hp Hinv Hlog. unfold worldAfter, produce.
  rewrite bind_run, createAll_run. cbn [app].
  destruct (omap _ assignments) as [|d ds]; [done |].
  rewrite bind_run.
  pose proof (submit_keeps env (d :: ds) w p Hp Hinv) as Hk.
  destruct (submit env (d :: ds) w) as [[[]|e] w1]; cbn [snd] in *; [| done].
  rewrite bind_run. unfold readClock. io.
  rewrite appendLog_keeps by done. by cbn [files].
Qed.

(** The body of [main] when the snapshot file does not hold a value of
    another kind: the snapshot is saved before anything else is written. *)
Lemma mainBody_snapshot (env : Env) (w : World) :
  ¬ snapshotIsObject w →
  ∃ r w', mainBody env w = (r, w') ∧
    files w' !! snapshotPath =
      Some (SnapshotJson (fetchKalshiMarkets env ++ fetchPolymarketMarkets env)) ∧
    (recommendations env = [] →
       files w' = <[snapshotPath :=
                      SnapshotJson (fetchKalshiMarkets env ++
                                    fetchPolymarketMarkets env)]> (files w)).
Proof.
  intros Hobj. unfold mainBody.
  rewrite bind_run, loadPreviousSnapshot_run, bind_run.
  rewrite (observe_run env _ w (storedSnapshot_array w Hobj)).
  cbn [kalshiMarkets polymarketMarkets].
  rewrite bind_run. unfold saveSnapshot.
  rewrite (mkdir_write_run "data") by done.
  cbn [files clock trace dirs].
  rewrite bind_run.
  match goal with |- context [analyze env ?obs ?w2] =>
    destruct (analyze_run env obs w2) as (r & -> & Hnone);
    set (w2' := w2) in * end.
  assert (H2 : files w2' !! snapshotPath =
            Some (SnapshotJson (fetchKalshiMarkets env ++
                                fetchPolymarketMarkets env)))
    by apply lookup_insert_eq.
  destruct r as [opps|e]; [| by eexists _, _].
  destruct opps as [|o opps]; [by eexists _, _ |].
  rewrite bind_run.
  destruct (loadConfig_run w2') as [c ->].
  assert (Hrec : recommendations env = [] → False).
  { intros Hr. destruct (Hnone Hr) as [[=]|[e [=]]]. }
  destruct (cfg_bucketWeights c) as [wts|].
  - destruct (Agent.decide _ _) as [|a assignments] eqn:Hdec;
      [eexists _, _; by split_and! |].
    eexists _, _. split; [apply surjective_pairing |].
    split; [| by intros ?%Hrec].
    match goal with |- context [produce env ?obs ?opps ?asg ?wx] =>
      change (produce env obs opps asg wx).2
        with (worldAfter (produce env obs opps asg) wx) end.
    by rewrite produce_keeps.
  - destruct (admitted _ _); eexists _, _; by split_and!.
Qed.

(** X18.  With a snapshot file that is missing, incomplete or an array of
    markets, every run of [main], whatever happens later in it, leaves the
    markets it observed as the stored snapshot: the next run's
    [loadPreviousSnapshot] returns exactly them. *)
Theorem main_saves_snapshot (env : Env) (w : World) :
  snapshotLoads w →
  resultOf loadPreviousSnapshot (worldAfter (main env) w) =
    Ok (Some (IsArray (fetchKalshiMarkets env ++ fetchPolymarketMarkets env))).
Proof.
  intros Hw%snapshotLoads_array.
  unfold resultOf. rewrite loadPreviousSnapshot_run. cbn [fst]. f_equal.
  unfold storedSnapshot, worldAfter, main, tryCatch.
  destruct (mainBody_snapshot env w Hw) as (r & w' & -> & Hs & _).
  destruct r; cbn [snd emit files]; by rewrite Hs.
Qed.

(** X19.  With a snapshot file that is missing, incomplete or an array of
    markets: when the analysis recommends nothing, the run writes the
    snapshot and no other file: no draft, no inventory, no log entry. *)
Theorem main_no_recommendations (env : Env) (w : World) :
  snapshotLoads w →
  recommendations env = [] →
  files (worldAfter (main env) w) =
    <[snapshotPath :=
        SnapshotJson (fetchKalshiMarkets env ++ fetchPolymarketMarkets env)]>
      (files w).
Proof.
  intros Hw%snapshotLoads_array Hrec. unfold worldAfter, main, tryCatch.
  destruct (mainBody_snapshot env w Hw) as (r & w' & -> & _ & Hf).
  destruct r; cbn [snd emit files]; by apply Hf.
Qed.

Definition quietEnv : Env := {|
  toISOString := toISOString sampleEnv;
  millis := millis sampleEnv;
  elapsed := elapsed sampleEnv;
  fetchKalshiMarkets := [market "FED-CUT" kalshi 0.60];
  fetchPolymarketMarkets := [];
  fetchTrendingTopics := [];
  recommendations := [];
  generate := generate sampleEnv;
  inCI := false;
  gitSucceeds := true;
  githubToken := false;
  pullRequestUrl := None;
  slackWebhook := false;
|}.

Lemma main_saves_snapshot_witness :
  resultOf loadPreviousSnapshot
    (worldAfter (main quietEnv) (worldWith [oldItem "e1"])) =
  Ok (Some (IsArray [market "FED-CUT" kalshi 0.60])).
Proof. by apply (main_saves_snapshot quietEnv (worldWith [oldItem "e1"])). Defined.

Lemma main_no_recommendations_witness :
  files (worldAfter (main quietEnv) (worldWith [oldItem "e1"])) =
    <[snapshotPath := SnapshotJson [market "FED-CUT" kalshi 0.60]]>
      (files (worldWith [oldItem "e1"])).
Proof. by apply (main_no_recommendations quietEnv). Defined.

(** X20.  On a first run, and whenever the snapshot file is missing or is
    an incomplete write, observation reports no movers (and does not
    fail). *)
Theorem observe_cold_start (env : Env) (w : World) :
  files w !! snapshotPath = None ∨ files w !! snapshotPath = Some Torn →
  ∃ observations w',
    (loadPreviousSnapshot ≫= observe env) w = (Ok observations, w') ∧
    movers observations = [] ∧
    kalshiMarkets observations = fetchKalshiMarkets env ∧
    polymarketMarkets observations = fetchPolymarketMarkets env.
Proof.
  intros Hs. rewrite bind_run, loadPreviousSnapshot_run.
  assert (Hnone : storedSnapshot w = None)
    by (unfold storedSnapshot; by destruct Hs as [-> | ->]).
  rewrite Hnone. rewrite observe_run by done.
  by eexists _, _.
Qed.

Lemma observe_cold_start_witness :
  ∃ observations w',
    (loadPreviousSnapshot ≫= observe quietEnv) emptyWorld =
      (Ok observations, w') ∧
    movers observations = [] ∧
    kalshiMarkets observations = [market "FED-CUT" kalshi 0.60] ∧
    polymarketMarkets observations = [].
Proof. apply (observe_cold_start quietEnv emptyWorld). by left. Defined.



(** * Further properties of the content paths *)

Lemma append_assoc (s t u : string) : (s +:+ t) +:+ u = s +:+ (t +:+ u).
Proof.
  induction s as [|c s IH]; [reflexivity |].
  change (String c ((s +:+ t) +:+ u) = String c (s +:+ (t +:+ u))).
  by rewrite IH.
Qed.

Lemma length_append (s t : string) :
  String.length (s +:+ t) = (String.length s + String.length t)%nat.
Proof.
  induction s as [|c s IH]; [reflexivity |].
  change (S (String.length (s +:+ t)) =
          S (String.length s + String.length t)). by rewrite IH.
Qed.

Lemma append_cancel_r (s1 s2 t : string) : s1 +:+ t = s2 +:+ t → s1 = s2.
Proof.
  revert s2. induction s1 as [|c s1 IH]; intros [|c' s2] H.
  - done.
  - apply (f_equal String.length) in H. rewrite !length_append in H.
    simpl in H. lia.
  - apply (f_equal String.length) in H. rewrite !length_append in H.
    simpl in H. lia.
  - change (String c (s1 +:+ t) = String c' (s2 +:+ t)) in H.
    injection H as -> H. f_equal. by apply IH.
Qed.

Lemma contentPath_slug_inj (a b : Draft.t) :
  Draft.bucket a = Draft.bucket b → Draft.category a = Draft.category b →
  contentPath a = contentPath b → Draft.slug a = Draft.slug b.
Proof.
  intros Hb Hc. unfold contentPath, contentDir. rewrite Hb, Hc. intros H.
  do 2 apply (inj (String.app _)) in H. by apply append_cancel_r in H.
Qed.

(** X21.  Two drafts of one bucket and category that can be written and
    have different slugs are written to two files: after [submit] of the
    two, each file holds the text of its own draft. *)
Theorem distinct_slugs_distinct_files (env : Env) (a b : Draft.t) (w : World) :
  writable a → writable b →
  Draft.bucket a = Draft.bucket b → Draft.category a = Draft.category b →
  Draft.slug a ≠ Draft.slug b →
  contentPath a ≠ contentPath b ∧
  files (worldAfter (submit env [a; b]) w) !! contentPath a =
    Some (Markdown (Draft.content a)) ∧
  files (worldAfter (submit env [a; b]) w) !! contentPath b =
    Some (Markdown (Draft.content b)).
Proof.
  intros Ha Hb Hbucket Hcat Hslug.
  assert (Hne : contentPath a ≠ contentPath b)
    by (intros Heq; by apply Hslug, contentPath_slug_inj).
  split; [done |].
  assert (Hall : Forall writable [a; b]) by (by do 2 (apply List.Forall_cons; [done |])).
  rewrite !(submit_content_files env [a; b] w _ Hall)
    by (by apply contentPath_not_json).
  unfold writeAll. cbn [foldl]. split.
  - rewrite lookup_insert_ne by done. apply lookup_insert_eq.
  - apply lookup_insert_eq.
Qed.

Lemma distinct_slugs_distinct_files_witness :
  let a := draft "kalshi-review" "Kalshi review" in
  let b := draft "polymarket-guide" "Polymarket guide" in
  contentPath a ≠ contentPath b ∧
  files (worldAfter (submit sampleEnv [a; b]) emptyWorld) !! contentPath a =
    Some (Markdown (Draft.content a)) ∧
  files (worldAfter (submit sampleEnv [a; b]) emptyWorld) !! contentPath b =
    Some (Markdown (Draft.content b)).
Proof.
  apply (distinct_slugs_distinct_files sampleEnv
           (draft "kalshi-review" "Kalshi review")
           (draft "polymarket-guide" "Polymarket guide") emptyWorld);
    try reflexivity; try (by split); discriminate.
Defined.

Lemma getContentPath_result (d : Draft.t) (w : World) :
  resultOf (getContentPath d) w =
    if inherited (Draft.bucket d) then Thrown "TypeError"
    else Ok (contentPath d).
Proof. unfold resultOf, getContentPath. by destruct (inherited _). Qed.

(** X22.  For the three buckets the agent knows (a topical article having a
    category), the path [getContentPath] returns for an article is the
    sitemap URL of that article under [site/content], with the extension
    [.md].  With any other bucket the sitemap lists the site root; the path
    is then in the markets directory, unless the bucket is a name inherited
    from [Object.prototype], for which [getContentPath] throws. *)
Theorem contentPath_matches_sitemap (d : Draft.t) (meta : Site.ArticleMeta)
    (w : World) :
  Site.bucket meta = Draft.bucket d →
  Site.category meta = Draft.category d →
  Site.slug meta = Draft.slug d →
  (Draft.bucket d = "educational" ∨
   Draft.bucket d = "topical" ∧ Draft.category d ≠ "" ∨
   Draft.bucket d = "affiliate" →
     resultOf (getContentPath d) w =
       Ok ("site/content" +:+ Site.url (Site.articlePage meta) +:+ ".md")) ∧
  (Draft.bucket d ≠ "educational" → Draft.bucket d ≠ "topical" →
   Draft.bucket d ≠ "affiliate" →
     Site.url (Site.articlePage meta) = "" ∧
     resultOf (getContentPath d) w =
       if inherited (Draft.bucket d) then Thrown "TypeError"
       else Ok ("site/content/markets/" +:+ Draft.slug d +:+ ".md")).
Proof.
  intros Hb Hc Hs. rewrite getContentPath_result.
  unfold Site.articlePage, contentPath, contentDir, bucketDir. simpl.
  rewrite Hb, Hc, Hs. split.
  - intros [He|[[Ht Hcat]|Ha]].
    + rewrite He. reflexivity.
    + rewrite Ht. rewrite decide_True by done.
      rewrite (decide_False (P := "topical" = "educational")) by done.
      rewrite !(decide_True (P := "topical" = "topical")) by done.
      simpl. rewrite !append_assoc. reflexivity.
    + rewrite Ha. reflexivity.
  - intros He Ht Ha.
    rewrite !(decide_False (P := Draft.bucket d = "educational")) by done.
    rewrite !(decide_False (P := Draft.bucket d = "topical")) by done.
    rewrite !(decide_False (P := Draft.bucket d = "affiliate")) by done.
    rewrite decide_False by (by intros [? _]). done.
Qed.

Definition metaOf (d : Draft.t) : Site.ArticleMeta := {|
  Site.title := Draft.title d; Site.slug := Draft.slug d;
  Site.description := ""; Site.bucket := Draft.bucket d;
  Site.category := Draft.category d;
  Site.targetKeyword := Draft.targetKeyword d; Site.secondaryKeywords := [];
  Site.dateCreated := "2026-01-01"; Site.dateUpdated := "";
  Site.author := "PredictionScope"; Site.schemaType := "Article";
  Site.internalLinks := []; Site.affiliateLinks := [];
  Site.status := "draft";
|}.

Definition draftIn (b : string) : Draft.t := {|
  Draft.slug := "fed-cut-odds"; Draft.bucket := b; Draft.category := "";
  Draft.content := "# Fed cut odds"; Draft.title := "Fed cut odds";
  Draft.targetKeyword := "fed cut odds"; Draft.wordCount := 3;
|}.

Lemma contentPath_matches_sitemap_witness :
  resultOf (getContentPath (draft "kalshi-review" "Kalshi review")) emptyWorld =
    Ok ("site/content" +:+
        Site.url (Site.articlePage
                    (metaOf (draft "kalshi-review" "Kalshi review")))
        +:+ ".md") ∧
  resultOf (getContentPath (draftIn "news")) emptyWorld =
    Ok "site/content/markets/fed-cut-odds.md" ∧
  resultOf (getContentPath (draftIn "constructor")) emptyWorld =
    Thrown "TypeError" ∧
  resultOf (getContentPath (draftIn "__proto__")) emptyWorld =
    Thrown "TypeError".
Proof.
  split_and!.
  - apply (contentPath_matches_sitemap (draft "kalshi-review" "Kalshi review")
             (metaOf (draft "kalshi-review" "Kalshi review")) emptyWorld);
      [reflexivity | reflexivity | reflexivity | by left].
  - apply (contentPath_matches_sitemap (draftIn "news")
             (metaOf (draftIn "news")) emptyWorld); done.
  - apply (contentPath_matches_sitemap (draftIn "constructor")
             (metaOf (draftIn "constructor")) emptyWorld); done.
  - apply (contentPath_matches_sitemap (draftIn "__proto__")
             (metaOf (draftIn "__proto__")) emptyWorld); done.
Defined.

(** * Properties of the seed script *)

Section seed_properties.
Context (answer : Seed.article → option (string * Z)) (toISO : nat → string).

Definition promptsPresent (w : World) : Prop :=
  is_Some (files w !! Seed.systemPrompt) ∧
  is_Some (files w !! Seed.templatePrompt).

(** The entries the loop collects and the files it writes, without the
    world: [n] is the number of the next clock reading. *)
Fixpoint seeded (articles : list Seed.article) (n : nat) : list Item.t :=
  match articles with
  | [] => []
  | a :: rest =>
      match answer a with
      | Some text => Seed.itemOf a text.2 (toISO (S n)) :: seeded rest (S (S n))
      | None => seeded rest (S n)
      end
  end.

Definition seedFiles (articles : list Seed.article) (fs : gmap string FileData)
  : gmap string FileData :=
  foldl (λ fs a, match answer a with
                 | Some text => <[Seed.filepath a := Markdown text.1]> fs
                 | None => fs
                 end) fs articles.

Lemma seedFiles_cons (a : Seed.article) (rest : list Seed.article)
    (fs : gmap string FileData) :
  seedFiles (a :: rest) fs =
  seedFiles rest (match answer a with
                  | Some text => <[Seed.filepath a := Markdown text.1]> fs
                  | None => fs
                  end).
Proof. reflexivity. Qed.

Lemma filepath_not_fixed (a : Seed.article) (p : string) :
  p ∈ [inventoryPath; Seed.systemPrompt; Seed.templatePrompt] →
  Seed.filepath a ≠ p.
Proof.
  intros Hp Heq. subst p. unfold Seed.filepath, Seed.outputDir in Hp.
  cbv [String.append] in Hp.
  repeat (apply elem_of_cons in Hp as [Hp|Hp]; [discriminate Hp|]).
  by apply elem_of_nil in Hp.
Qed.

Lemma filepath_slug_inj (a b : Seed.article) :
  Seed.filepath a = Seed.filepath b → Seed.slug a = Seed.slug b.
Proof.
  unfold Seed.filepath. intros H.
  do 2 apply (inj (String.app _)) in H. by apply append_cancel_r in H.
Qed.

Lemma seedFiles_lookup_other (articles : list Seed.article)
    (fs : gmap string FileData) (p : string) :
  (∀ a, a ∈ articles → Seed.filepath a ≠ p) →
  seedFiles articles fs !! p = fs !! p.
Proof.
  revert fs. induction articles as [|a rest IH]; intros fs Hp; [done|].
  rewrite seedFiles_cons.
  rewrite IH by (intros a' Ha'; apply Hp; by right).
  destruct (answer a) as [text|]; [|done].
  apply lookup_insert_ne, Hp. by left.
Qed.

Lemma seedFiles_lookup_fixed (articles : list Seed.article)
    (fs : gmap string FileData) (p : string) :
  p ∈ [inventoryPath; Seed.systemPrompt; Seed.templatePrompt] →
  seedFiles articles fs !! p = fs !! p.
Proof.
  intros Hp. apply seedFiles_lookup_other. intros a _.
  by apply filepath_not_fixed.
Qed.

(** The file of an article whose text was generated holds that text, as long
    as no later article of the list has the same slug. *)
Lemma seedFiles_lookup_written (articles : list Seed.article)
    (fs : gmap string FileData) (a : Seed.article) (text : string * Z) :
  NoDup (Seed.slug <$> articles) → a ∈ articles → answer a = Some text →
  seedFiles articles fs !! Seed.filepath a = Some (Markdown text.1).
Proof.
  revert fs. induction articles as [|a' rest IH]; intros fs Hnd Ha Hans.
  { by apply elem_of_nil in Ha. }
  rewrite fmap_cons in Hnd. apply NoDup_cons in Hnd as [Hfresh Hnd].
  rewrite seedFiles_cons.
  apply elem_of_cons in Ha as [->|Ha].
  - rewrite seedFiles_lookup_other.
    + rewrite Hans. apply lookup_insert_eq.
    + intros b Hb Heq. apply Hfresh.
      rewrite <- (filepath_slug_inj _ _ Heq).
      apply list_elem_of_fmap. by exists b.
  - by apply IH.
Qed.

Lemma seeded_slugs (articles : list Seed.article) (n : nat) :
  Item.slug <$> seeded articles n =
  Seed.slug <$> filter (λ a, is_Some (answer a)) articles.
Proof.
  revert n. induction articles as [|a rest IH]; intros n; [done|].
  simpl. destruct (answer a) as [text|] eqn:Ha.
  - rewrite filter_cons_True by (rewrite Ha; by eexists).
    simpl. by rewrite IH.
  - rewrite filter_cons_False by (rewrite Ha; by intros [? ?]).
    by rewrite IH.
Qed.

Lemma seeded_shape (articles : list Seed.article) (n : nat) :
  Forall (λ it, ∃ a text t, a ∈ articles ∧ answer a = Some text ∧
                            it = Seed.itemOf a text.2 t)
         (seeded articles n).
Proof.
  revert n. induction articles as [|a rest IH]; intros n; simpl; [done|].
  destruct (answer a) as [text|] eqn:Ha.
  - constructor.
    + exists a, text, (toISO (S n)). split_and!; [by left|done|done].
    + eapply Forall_impl; [apply IH|].
      intros it (b & tx & t & Hb & Hans & ->). exists b, tx, t.
      split_and!; [by right|done|done].
  - eapply Forall_impl; [apply IH|].
    intros it (b & tx & t & Hb & Hans & ->). exists b, tx, t.
    split_and!; [by right|done|done].
Qed.

Lemma SEED_ARTICLES_slugs_NoDup : NoDup (Seed.slug <$> Seed.SEED_ARTICLES).
Proof. by apply (bool_decide_unpack _). Qed.

Lemma dirname_filepath (a : Seed.article) :
  hasSlash (Seed.slug a) = false →
  dirname (Seed.filepath a) = Some Seed.outputDir.
Proof.
  intros Ha. unfold Seed.filepath. apply dirname_file.
  by rewrite hasSlash_app, Ha.
Qed.

Lemma SEED_ARTICLES_slugs_plain :
  Forall (λ a, hasSlash (Seed.slug a) = false) Seed.SEED_ARTICLES.
Proof. by apply (bool_decide_unpack _). Qed.

(** One turn of the loop when both prompt files and the output directory
    are there. *)
Lemma step_run (a : Seed.article) (inventory : list Item.t) (w : World) :
  promptsPresent w → Seed.outputDir ∈ dirs w →
  hasSlash (Seed.slug a) = false →
  Seed.step answer toISO a inventory w =
    match answer a with
    | Some text =>
        (Ok (inventory ++ [Seed.itemOf a text.2 (toISO (S (clock w)))]),
         {| files := <[Seed.filepath a := Markdown text.1]> (files w);
            dirs := dirs w; clock := S (S (clock w));
            trace := trace w ++
                     [EvWriteFile (Seed.filepath a) (Markdown text.1)] |})
    | None =>
        (Ok inventory,
         {| files := files w; dirs := dirs w; clock := S (clock w);
            trace := trace w |})
    end.
Proof.
  intros [[d1 H1] [d2 H2]] Hdir Ha.
  unfold Seed.step, tryCatch, Seed.generateArticle. io.
  unfold readFileSync at 1. rewrite H1. io.
  unfold readFileSync at 1. rewrite H2. io.
  unfold readClock at 1. io.
  destruct (answer a) as [text|]; io; [| done].
  erewrite writeFileSync_run; [| by apply dirname_filepath | done].
  reflexivity.
Qed.

(** What the loop does when both prompt files are there. *)
Lemma loop_run (articles : list Seed.article) (inventory : list Item.t)
    (w : World) :
  promptsPresent w → Seed.outputDir ∈ dirs w →
  Forall (λ a, hasSlash (Seed.slug a) = false) articles →
  ∃ n tr, Seed.loop answer toISO articles inventory w =
    (Ok (inventory ++ seeded articles (clock w)),
     {| files := seedFiles articles (files w); dirs := dirs w;
        clock := n; trace := tr |}).
Proof.
  intros Hw Hdir Hall. revert inventory w Hw Hdir.
  induction Hall as [|a rest Ha _ IH]; intros inventory w Hw Hdir.
  { exists (clock w), (trace w). simpl. rewrite app_nil_r. by destruct w. }
  cbn [Seed.loop]. rewrite bind_run, step_run by done.
  rewrite seedFiles_cons. cbn [seeded].
  destruct Hw as [[d1 H1] [d2 H2]].
  destruct (answer a) as [text|] eqn:Hans.
  - match goal with |- ∃ n tr, Seed.loop _ _ _ _ ?w' = _ =>
      destruct (IH (inventory ++ [Seed.itemOf a text.2 (toISO (S (clock w)))])
                  w') as (n & tr & ->)
    end.
    + split; cbn [files].
      * rewrite lookup_insert_ne; [by eexists|].
        apply filepath_not_fixed. set_solver.
      * rewrite lookup_insert_ne; [by eexists|].
        apply filepath_not_fixed. set_solver.
    + done.
    + exists n, tr. cbn [files dirs clock]. by rewrite <- app_assoc.
  - match goal with |- ∃ n tr, Seed.loop _ _ _ _ ?w' = _ =>
      destruct (IH inventory w') as (n & tr & ->)
    end.
    + split; cbn [files]; by eexists.
    + done.
    + by exists n, tr.
Qed.

(** Without one of the prompt files every article fails, and the loop leaves
    the world as it was. *)
Lemma loop_without_prompts (articles : list Seed.article)
    (inventory : list Item.t) (w : World) :
  ¬ promptsPresent w →
  Seed.loop answer toISO articles inventory w = (Ok inventory, w).
Proof.
  intros Hw. induction articles as [|a rest IH]; [done|].
  simpl. unfold mbind at 1, IO_bind at 1.
  assert (Seed.step answer toISO a inventory w = (Ok inventory, w)) as ->.
  { unfold Seed.step, tryCatch, Seed.generateArticle.
    unfold mbind, IO_bind, readFileSync, mret, IO_ret.
    destruct (files w !! Seed.systemPrompt) as [d1|] eqn:H1; [|done].
    destruct (files w !! Seed.templatePrompt) as [d2|] eqn:H2; [|done].
    destruct Hw. split; by eexists. }
  exact IH.
Qed.

(** The inventory [main] writes, from what the loop collected. *)
Definition merged (existing inventory : list Item.t) : list Item.t :=
  existing ++
  filter (λ item, hasSlug existing (Item.slug item) = false) inventory.

(** [main] from the end of the loop: a value in the inventory file that is
    not an array ends the run before the file is written. *)
Lemma main_after_loop (inventory : list Item.t) (w w' : World) :
  Seed.loop answer toISO Seed.SEED_ARTICLES []
    {| files := files w;
       dirs := dirs w ∪ list_to_set (madeBy Seed.outputDir);
       clock := clock w;
       trace := trace w ++ [EvMkdir Seed.outputDir] |} = (Ok inventory, w') →
  ∃ ds tr, Seed.main answer toISO w =
    if decide (inventoryIsObject w')
    then (Thrown "TypeError",
          {| files := files w'; dirs := ds; clock := clock w'; trace := tr |})
    else (Ok (),
          {| files := <[inventoryPath :=
                          InventoryJson (merged (storedInventory w') inventory)]>
                        (files w');
             dirs := ds; clock := clock w'; trace := tr |}).
Proof.
  intros Hloop. unfold Seed.main.
  rewrite bind_run. unfold mkdirSync at 1.
  rewrite bind_run, Hloop.
  rewrite bind_run. unfold mkdirSync at 1.
  rewrite readInventory_run. cbn [files].
  match goal with |- context [storedInventory ?wx] =>
    change (storedInventory wx) with (storedInventory w') end.
  destruct (decide (inventoryIsObject w')) as [Hobj|Hobj];
    unfold inventoryIsObject in Hobj;
    destruct (files w' !! inventoryPath) as [[]|] eqn:Hf; try tauto;
    try (unfold throw; by eexists _, _);
    (erewrite writeFileSync_run;
       [| reflexivity | cbn [dirs]; apply madeBy_self]);
    cbn [files dirs clock trace]; by eexists _, _.
Qed.

Lemma merged_slugs_NoDup (existing inventory : list Item.t) :
  NoDup (Item.slug <$> existing) → NoDup (Item.slug <$> inventory) →
  NoDup (Item.slug <$> merged existing inventory).
Proof.
  intros He Hi. unfold merged. rewrite fmap_app. apply NoDup_app.
  split_and!; [done| |].
  - intros s Hs Hs'. apply list_elem_of_fmap in Hs' as (it & -> & Hit).
    apply list_elem_of_filter in Hit as [Hit _].
    by apply hasSlug_false in Hit.
  - eapply sublist_NoDup; [exact Hi|apply fmap_sublist, sublist_filter].
Qed.

Lemma merged_covers (existing inventory : list Item.t) (s : string) :
  s ∈ Item.slug <$> inventory → s ∈ Item.slug <$> merged existing inventory.
Proof.
  intros Hs. unfold merged. rewrite fmap_app. apply elem_of_app.
  destruct (decide (s ∈ Item.slug <$> existing)) as [He|He]; [by left|right].
  apply list_elem_of_fmap in Hs as (it & -> & Hit).
  apply list_elem_of_fmap_2, list_elem_of_filter. split; [|done].
  by apply hasSlug_false.
Qed.

#[local] Instance promptsPresent_dec (w : World) : Decision (promptsPresent w).
Proof. unfold promptsPresent. apply _. Defined.

(** What a run of the script does to the world: the entries [items] the
    loop collected and the files [fs] it left. *)
Lemma main_run (w : World) :
  ∃ items fs ds n tr,
    (promptsPresent w →
       items = seeded Seed.SEED_ARTICLES (clock w) ∧
       fs = seedFiles Seed.SEED_ARTICLES (files w)) ∧
    (¬ promptsPresent w → items = [] ∧ fs = files w) ∧
    (∀ p, p ∈ [inventoryPath; Seed.systemPrompt; Seed.templatePrompt] →
          fs !! p = files w !! p) ∧
    Seed.main answer toISO w =
      if decide (inventoryIsObject w)
      then (Thrown "TypeError",
            {| files := fs; dirs := ds; clock := n; trace := tr |})
      else (Ok (),
            {| files := <[inventoryPath :=
                            InventoryJson (merged (storedInventory w) items)]> fs;
               dirs := ds; clock := n; trace := tr |}).
Proof.
  set (w0 := {| files := files w;
                dirs := dirs w ∪ list_to_set (madeBy Seed.outputDir);
                clock := clock w;
                trace := trace w ++ [EvMkdir Seed.outputDir] |}).
  destruct (decide (promptsPresent w)) as [Hw|Hw].
  - destruct (loop_run Seed.SEED_ARTICLES [] w0 Hw) as (n & tr & Hloop).
    { apply madeBy_self. }
    { apply SEED_ARTICLES_slugs_plain. }
    destruct (main_after_loop _ _ _ Hloop) as (ds & tr' & Hmain).
    exists (seeded Seed.SEED_ARTICLES (clock w)),
      (seedFiles Seed.SEED_ARTICLES (files w)), ds, n, tr'.
    assert (Hfixed : ∀ p,
              p ∈ [inventoryPath; Seed.systemPrompt; Seed.templatePrompt] →
              seedFiles Seed.SEED_ARTICLES (files w) !! p = files w !! p)
      by (intros p Hp; by apply seedFiles_lookup_fixed).
    split_and!; [done | done | done |].
    rewrite Hmain. subst w0. cbn [files clock]. rewrite app_nil_l.
    rewrite (decide_ext _ (inventoryIsObject w))
      by (apply inventoryIsObject_files; cbn [files]; apply Hfixed; by left).
    rewrite (storedInventory_files w)
      by (cbn [files]; apply Hfixed; by left).
    reflexivity.
  - pose proof (loop_without_prompts Seed.SEED_ARTICLES [] w0 Hw) as Hloop.
    destruct (main_after_loop _ _ _ Hloop) as (ds & tr' & Hmain).
    exists [], (files w), ds, (clock w), tr'.
    split_and!; [done | done | done |].
    rewrite Hmain. subst w0. cbn [files clock].
    rewrite (decide_ext _ (inventoryIsObject w))
      by (by apply inventoryIsObject_files).
    by rewrite (storedInventory_files w).
Qed.
End seed_properties.

Definition seedWorld : World := {|
  files := {[ Seed.systemPrompt := Markdown "You write for PredictionScope.";
              Seed.templatePrompt := Markdown "Write an explainer." ]};
  dirs := {[ "agent"; "agent/prompts" ]};
  clock := 0;
  trace := [];
|}.

Definition glossary : Seed.article := {|
  Seed.title := "Prediction Market Glossary: Every Term You Need to Know";
  Seed.slug := "prediction-market-glossary";
  Seed.targetKeyword := "prediction market glossary";
  Seed.secondaryKeywords := ["prediction market terms";
                             "prediction market definitions"];
|}.

(** The model answers for the glossary only. *)
Definition glossaryOnly (a : Seed.article) : option (string * Z) :=
  if decide (Seed.slug a = "prediction-market-glossary")
  then Some ("# Glossary", 2) else None.

(** A run that finds an array, or nothing it can parse, in the inventory
    file returns normally. *)
Lemma main_run_loads (answer : Seed.article → option (string * Z))
    (toISO : nat → string) (w : World) :
  inventoryLoads w →
  ∃ items fs ds n tr,
    (promptsPresent w →
       items = seeded answer toISO Seed.SEED_ARTICLES (clock w) ∧
       fs = seedFiles answer Seed.SEED_ARTICLES (files w)) ∧
    (¬ promptsPresent w → items = [] ∧ fs = files w) ∧
    Seed.main answer toISO w =
      (Ok (),
       {| files := <[inventoryPath :=
                       InventoryJson (merged (storedInventory w) items)]> fs;
          dirs := ds; clock := n; trace := tr |}).
Proof.
  intros Hloads.
  destruct (main_run answer toISO w)
    as (items & fs & ds & n & tr & Hp & Hn & _ & Hmain).
  rewrite decide_False in Hmain by (by apply inventoryLoads_array).
  by exists items, fs, ds, n, tr.
Qed.

(** X23.  When the inventory file is missing, is an incomplete write or
    holds an array of entries, a run of the seed script returns normally
    whatever the model answers, and the inventory it writes is the stored
    inventory followed by new entries: each new entry is an educational
    draft of one of the seed articles whose slug the stored inventory did
    not hold, no two new entries share a slug, and distinct stored slugs
    stay distinct. *)
Theorem seed_extends_inventory (answer : Seed.article → option (string * Z))
    (toISO : nat → string) (w : World) :
  inventoryLoads w →
  resultOf (Seed.main answer toISO) w = Ok () ∧
  ∃ added,
    storedInventory (worldAfter (Seed.main answer toISO) w) =
      storedInventory w ++ added ∧
    Forall (λ it, (Item.slug it ∉ Item.slug <$> storedInventory w) ∧
                  Item.bucket it = "educational" ∧ Item.status it = "draft" ∧
                  ∃ a, a ∈ Seed.SEED_ARTICLES ∧ Item.slug it = Seed.slug a ∧
                       Item.title it = Seed.title a) added ∧
    NoDup (Item.slug <$> added) ∧
    (NoDup (Item.slug <$> storedInventory w) →
     NoDup (Item.slug <$> storedInventory w ++ added)).
Proof.
  intros Hloads.
  destruct (main_run_loads answer toISO w Hloads)
    as (items & fs & ds & n & tr & Hp & Hn & Hmain).
  unfold resultOf, worldAfter. rewrite Hmain. cbn [fst snd].
  split; [done|].
  assert (Hitems : NoDup (Item.slug <$> items) ∧
            Forall (λ it, ∃ a text t, a ∈ Seed.SEED_ARTICLES ∧
                          answer a = Some text ∧
                          it = Seed.itemOf a text.2 t) items).
  { destruct (decide (promptsPresent w)) as [Hw|Hw].
    - destruct (Hp Hw) as [-> _]. split; [|apply seeded_shape].
      rewrite seeded_slugs.
      eapply sublist_NoDup; [apply SEED_ARTICLES_slugs_NoDup|].
      apply fmap_sublist, sublist_filter.
    - destruct (Hn Hw) as [-> _]. split; [constructor|done]. }
  destruct Hitems as [Hnd Hshape].
  exists (filter (λ item, hasSlug (storedInventory w) (Item.slug item) = false)
            items).
  split_and!.
  - unfold storedInventory at 1. cbn [files]. by rewrite lookup_insert_eq.
  - apply Forall_forall. intros it Hit.
    apply list_elem_of_filter in Hit as [Hfresh Hit].
    apply hasSlug_false in Hfresh.
    rewrite Forall_forall in Hshape.
    destruct (Hshape it Hit) as (a & text & t & Ha & _ & ->).
    split_and!; [done|done|done|]. by exists a.
  - eapply sublist_NoDup; [exact Hnd|apply fmap_sublist, sublist_filter].
  - intros He. by apply (merged_slugs_NoDup (storedInventory w) items).
Qed.

Lemma seed_extends_inventory_witness :
  let run := Seed.main glossaryOnly (λ _, "2026-01-01T00:00:00.000Z") in
  let w := seedWorld in
  resultOf run w = Ok () ∧
  ∃ added,
    storedInventory (worldAfter run w) = storedInventory w ++ added ∧
    Forall (λ it, (Item.slug it ∉ Item.slug <$> storedInventory w) ∧
                  Item.bucket it = "educational" ∧ Item.status it = "draft" ∧
                  ∃ a, a ∈ Seed.SEED_ARTICLES ∧ Item.slug it = Seed.slug a ∧
                       Item.title it = Seed.title a) added ∧
    NoDup (Item.slug <$> added) ∧
    (NoDup (Item.slug <$> storedInventory w) →
     NoDup (Item.slug <$> storedInventory w ++ added)).
Proof.
  apply (seed_extends_inventory glossaryOnly
           (λ _, "2026-01-01T00:00:00.000Z") seedWorld).
  exact I.
Defined.

(** X24.  With both prompt files in place and an inventory file that is
    missing, incomplete or an array of entries, a seed article whose text
    the model returns has that text in its file and its slug in the
    inventory after the run, whatever happens to the other articles. *)
Theorem seed_failure_isolated (answer : Seed.article → option (string * Z))
    (toISO : nat → string) (w : World) (a : Seed.article)
    (text : string * Z) :
  inventoryLoads w →
  promptsPresent w → a ∈ Seed.SEED_ARTICLES → answer a = Some text →
  resultOf (Seed.main answer toISO) w = Ok () ∧
  files (worldAfter (Seed.main answer toISO) w) !! Seed.filepath a =
    Some (Markdown text.1) ∧
  Seed.slug a ∈
    Item.slug <$> storedInventory (worldAfter (Seed.main answer toISO) w).
Proof.
  intros Hloads Hw Ha Hans.
  destruct (main_run_loads answer toISO w Hloads)
    as (items & fs & ds & n & tr & Hp & _ & Hmain).
  destruct (Hp Hw) as [-> ->].
  unfold resultOf, worldAfter. rewrite Hmain. cbn [fst snd files].
  split_and!; [done| |].
  - rewrite lookup_insert_ne by (apply not_eq_sym, filepath_not_fixed; by left).
    by apply seedFiles_lookup_written;
      [apply SEED_ARTICLES_slugs_NoDup|..].
  - unfold storedInventory. cbn [files]. rewrite lookup_insert_eq.
    apply merged_covers. rewrite seeded_slugs.
    apply list_elem_of_fmap_2, list_elem_of_filter. split; [|done].
    rewrite Hans. by eexists.
Qed.

Lemma seed_failure_isolated_witness :
  resultOf (Seed.main glossaryOnly (λ _, "2026-01-01T00:00:00.000Z"))
    seedWorld = Ok () ∧
  files (worldAfter (Seed.main glossaryOnly (λ _, "2026-01-01T00:00:00.000Z"))
           seedWorld) !! Seed.filepath glossary =
    Some (Markdown "# Glossary") ∧
  Seed.slug glossary ∈
    Item.slug <$> storedInventory
      (worldAfter (Seed.main glossaryOnly (λ _, "2026-01-01T00:00:00.000Z"))
         seedWorld).
Proof.
  apply (seed_failure_isolated glossaryOnly (λ _, "2026-01-01T00:00:00.000Z")
           seedWorld glossary ("# Glossary", 2)).
  - exact I.
  - split; by eexists.
  - unfold Seed.SEED_ARTICLES, glossary. do 8 right. left.
  - reflexivity.
Defined.

(** X25.  When one of the two prompt files is missing, every article fails
    before the model is called: with an inventory file that is missing,
    incomplete or an array of entries, the run still returns normally,
    writes no article, and rewrites the inventory file with the entries it
    could read from it (none when the file was missing or did not parse). *)
Theorem seed_without_prompts (answer : Seed.article → option (string * Z))
    (toISO : nat → string) (w : World) :
  inventoryLoads w → ¬ promptsPresent w →
  resultOf (Seed.main answer toISO) w = Ok () ∧
  files (worldAfter (Seed.main answer toISO) w) =
    <[inventoryPath := InventoryJson (storedInventory w)]> (files w).
Proof.
  intros Hloads Hw.
  destruct (main_run_loads answer toISO w Hloads)
    as (items & fs & ds & n & tr & _ & Hn & Hmain).
  destruct (Hn Hw) as [-> ->].
  unfold resultOf, worldAfter. rewrite Hmain. cbn [fst snd files].
  split; [done|]. unfold merged. by rewrite filter_nil, app_nil_r.
Qed.

Lemma seed_without_prompts_witness :
  resultOf (Seed.main glossaryOnly (λ _, "2026-01-01T00:00:00.000Z"))
    (worldWith [oldItem "kalshi-review"]) = Ok () ∧
  files (worldAfter (Seed.main glossaryOnly (λ _, "2026-01-01T00:00:00.000Z"))
           (worldWith [oldItem "kalshi-review"])) =
    <[inventoryPath :=
        InventoryJson (storedInventory (worldWith [oldItem "kalshi-review"]))]>
      (files (worldWith [oldItem "kalshi-review"])).
Proof.
  apply (seed_without_prompts glossaryOnly (λ _, "2026-01-01T00:00:00.000Z")
           (worldWith [oldItem "kalshi-review"])).
  - exact I.
  - intros [[d Hd] _]. vm_compute in Hd. discriminate Hd.
Defined.

Lemma filter_none {A} (P : A → Prop) `{∀ x, Decision (P x)} (l : list A) :
  Forall (λ x, ¬ P x) l → filter P l = [].
Proof.
  induction 1 as [|x l Hx _ IH]; [done|].
  by rewrite filter_cons_False.
Qed.

(** X26.  Running the script again with the same answers from
    the model leaves the inventory as the first run wrote it (the article files
    are generated and written again). *)
Theorem seed_rerun_keeps_inventory
    (answer : Seed.article → option (string * Z))
    (toISO toISO' : nat → string) (w : World) :
  storedInventory
    (worldAfter (Seed.main answer toISO')
       (worldAfter (Seed.main answer toISO) w)) =
  storedInventory (worldAfter (Seed.main answer toISO) w).
Proof.
  destruct (main_run answer toISO w)
    as (items & fs & ds & n & tr & Hp & Hn & Hfixed & Hmain).
  unfold worldAfter at 2 3. rewrite Hmain.
  destruct (decide (inventoryIsObject w)) as [Hobj|Hobj]; cbn [snd].
  { set (w1 := {| files := fs; dirs := ds; clock := n; trace := tr |}).
    assert (Hobj1 : inventoryIsObject w1)
      by (apply (inventoryIsObject_files w); [apply Hfixed; by left | done]).
    destruct (main_run answer toISO' w1)
      as (items' & fs' & ds' & n' & tr' & _ & _ & Hfixed' & Hmain').
    rewrite decide_True in Hmain' by done.
    unfold worldAfter. rewrite Hmain'. cbn [snd].
    rewrite !storedInventory_object; [done | done |].
    apply (inventoryIsObject_files w1); [apply Hfixed'; by left | done]. }
  set (w1 := {| files := _; dirs := ds; clock := n; trace := tr |}).
  assert (Hstored : storedInventory w1 = merged (storedInventory w) items).
  { unfold storedInventory at 1, w1. cbn [files]. by rewrite lookup_insert_eq. }
  assert (Hobj1 : ¬ inventoryIsObject w1).
  { unfold inventoryIsObject, w1. cbn [files]. rewrite lookup_insert_eq. tauto. }
  assert (Hpres : promptsPresent w1 ↔ promptsPresent w).
  { assert (∀ p, p ∈ [Seed.systemPrompt; Seed.templatePrompt] →
                 files w1 !! p = files w !! p) as Hfiles.
    { intros p Hin. unfold w1. cbn [files].
      rewrite lookup_insert_ne
        by (intros <-; repeat (apply elem_of_cons in Hin as [Hin|Hin];
                                 [discriminate Hin|]);
            by apply elem_of_nil in Hin).
      apply Hfixed. by right. }
    unfold promptsPresent.
    rewrite (Hfiles Seed.systemPrompt) by left.
    by rewrite (Hfiles Seed.templatePrompt) by (right; left). }
  destruct (main_run answer toISO' w1)
    as (items' & fs' & ds' & n' & tr' & Hp' & Hn' & _ & Hmain').
  rewrite decide_False in Hmain' by done.
  unfold worldAfter. rewrite Hmain'. cbn [snd].
  unfold storedInventory at 1. cbn [files]. rewrite lookup_insert_eq.
  rewrite Hstored. unfold merged at 1.
  rewrite filter_none; [by rewrite app_nil_r|].
  apply Forall_forall. intros it Hit Hfresh. apply hasSlug_false in Hfresh.
  apply Hfresh. apply merged_covers.
  destruct (decide (promptsPresent w)) as [Hw|Hw].
  - destruct (Hp Hw) as [-> _]. destruct (Hp' (proj2 Hpres Hw)) as [-> _].
    rewrite seeded_slugs.
    rewrite <- (seeded_slugs answer toISO' _ (clock w1)).
    by apply list_elem_of_fmap_2.
  - destruct (Hn' (λ H, Hw (proj1 Hpres H))) as [-> _].
    by apply elem_of_nil in Hit.
Qed.


